(** * Wave2Music studio: the client-side audio pipeline

    A shallow embedding of the recorder hook, the duration resolver, the
    effects panel with its WAV encoder, the multi-track player, the stores
    (tracks, AI transformations, the project's audio session) and the
    parameters of a transformation on their way from the panel to the
    inference function, followed by the properties proved about them.

    Conventions.
    - JavaScript numbers that carry seconds, gains or samples are rationals
      ([Q]); the non-finite doubles are added explicitly where the source
      tests for them ([jsnum]).  Counts, sizes and sample rates are [Z].
    - Zustand/React state is passed explicitly; every action is a function
      from the old state (and what the platform answered) to the new one.
    - [Map<string, _>] is [gmap string _]; arrays are lists; the [DataView]
      over an [ArrayBuffer] is a list of bytes updated by index. *)

From Stdlib Require Import ZArith QArith Qround Lia Lqa Bool.
From stdpp Require Import gmap strings list sorting.

Local Open Scope string_scope.
Local Open Scope list_scope.
Local Open Scope Z_scope.

(* ===================================================================== *)
(** * Part I: the programs                                                *)
(* ===================================================================== *)

(** ** JavaScript numbers *)
Module JS.

(** A double: a finite value or one of the three non-finite ones. *)
Inductive jsnum := Fin (q : Q) | PosInf | NegInf | NaN.

Definition Qlt_bool (a b : Q) : bool := negb (Qle_bool b a).

(** [isFinite(d) && d > 0], with the finite value it holds. *)
Definition finite_positive (d : jsnum) : option Q :=
  match d with
  | Fin q => if Qlt_bool 0 q then Some q else None
  | _ => None
  end.

(** Truthiness of a number: [NaN] and zero are falsy. *)
Definition truthy (d : jsnum) : bool :=
  match d with
  | Fin q => negb (Qeq_bool q 0)
  | NaN => false
  | _ => true
  end.

(** [Math.min], [Math.max]: [NaN] if either argument is. *)
Definition Math_min (a b : jsnum) : jsnum :=
  match a, b with
  | NaN, _ | _, NaN => NaN
  | NegInf, _ | _, NegInf => NegInf
  | PosInf, x | x, PosInf => x
  | Fin x, Fin y => if Qle_bool x y then Fin x else Fin y
  end.

Definition Math_max (a b : jsnum) : jsnum :=
  match a, b with
  | NaN, _ | _, NaN => NaN
  | PosInf, _ | _, PosInf => PosInf
  | NegInf, x | x, NegInf => x
  | Fin x, Fin y => if Qle_bool x y then Fin y else Fin x
  end.

(** [Math.round]: the nearest integer, halves upwards. *)
Definition Math_round (a : jsnum) : jsnum :=
  match a with
  | Fin x => Fin (inject_Z (Qfloor (x + (1 # 2))))
  | _ => a
  end.

(** [a * k] for a finite [k]. *)
Definition times (a : jsnum) (k : Q) : jsnum :=
  match a with
  | Fin x => Fin (x * k)
  | NaN => NaN
  | PosInf => if Qeq_bool k 0 then NaN else if Qlt_bool 0 k then PosInf else NegInf
  | NegInf => if Qeq_bool k 0 then NaN else if Qlt_bool 0 k then NegInf else PosInf
  end.

(** The integer conversion the typed-array setters start from: the
    non-finite values give 0, a finite one is truncated towards zero. *)
Definition ToInteger (a : jsnum) : Z :=
  match a with
  | Fin x => if Qle_bool 0 x then Qfloor x else Qceiling x
  | _ => 0
  end.

(** A [Blob]: its bytes and its MIME hint. *)
Record Blob := mkBlob { blob_data : list Z; blob_type : string }.

Definition blob_size (b : Blob) : Z := Z.of_nat (length (blob_data b)).

(** [new Blob(parts, { type })]: the parts are concatenated, the type is
    the one given in the options bag and nothing else. *)
Definition newBlob (parts : list Blob) (type : string) : Blob :=
  mkBlob (concat (map blob_data parts)) type.

End JS.

(** ** getAudioDuration (src/stores/projectStore.ts and, with the same
       body up to logging, src/stores/trackStore.ts) *)
Module Duration.
Import JS.

(** The promise returned by [getAudioDuration]. [resolve] and [reject]
    only act on a pending promise. *)
Inductive Settled := Pending | Resolved (seconds : Q) | Rejected (message : string).

Definition settle (p r : Settled) : Settled :=
  match p with Pending => r | _ => p end.

(** What the platform gives for one blob: its size, and what
    [arrayBuffer()] followed by [decodeAudioData] yields, [None] when
    either promise rejects, else [audioBuffer.duration]. *)
Record AudioBlob := mkAudioBlob { size : Z; decoded : option jsnum }.

(** What can happen to the [Audio] element, with [audio.duration] as it
    reads when the event is delivered, and the 5000 ms timer. *)
Inductive Event :=
| LoadedMetadata (duration : jsnum)
| DurationChange (duration : jsnum)
| CanPlayThrough (duration : jsnum)
| ErrorEvent
| Timeout.

(** The closure state of [tryAudioElement] and the promise. *)
Record State := mkState {
  resolved : bool;
  listening : bool;     (* the four listeners are still attached *)
  urlRevoked : bool;
  promise : Settled
}.

Definition initial : State := mkState false true false Pending.

Definition estimatedDuration (audioBlob : AudioBlob) : Q :=
  inject_Z (size audioBlob * 8) / inject_Z (128 * 1000).

(** Method 3. *)
Definition tryEstimateFromSize (audioBlob : AudioBlob) (p : Settled) : Settled :=
  let estimatedDuration := estimatedDuration audioBlob in
  if Qlt_bool 0 estimatedDuration && Qlt_bool estimatedDuration (inject_Z 3600)
  then settle p (Resolved estimatedDuration)
  else settle p (Rejected "Could not determine audio duration").

(** Method 2.  The decode is asynchronous in the source; once method 2
    has been entered the listeners are gone and only the timer can still
    run, which enters method 2 again on the same blob, so the promise
    settles as if the decode had answered at once. *)
Definition tryWebAudioAPI (audioBlob : AudioBlob) (p : Settled) : Settled :=
  match decoded audioBlob with
  | Some duration =>
      match finite_positive duration with
      | Some d => settle p (Resolved d)
      | None => tryEstimateFromSize audioBlob p
      end
  | None => tryEstimateFromSize audioBlob p
  end.

(** [cleanup]: guarded by [!resolved]. *)
Definition cleanup (st : State) : State :=
  if resolved st then st
  else mkState (resolved st) false true (promise st).

Definition resolveWithDuration (audioBlob : AudioBlob) (duration : jsnum)
           (st : State) : State :=
  if resolved st then st
  else
    let st1 := cleanup (mkState true (listening st) (urlRevoked st) (promise st)) in
    match finite_positive duration with
    | Some d =>
        mkState (resolved st1) (listening st1) (urlRevoked st1)
                (settle (promise st1) (Resolved d))
    | None =>
        mkState (resolved st1) (listening st1) (urlRevoked st1)
                (tryWebAudioAPI audioBlob (promise st1))
    end.

(** [onLoadedMetadata], [onDurationChange] and [onCanPlayThrough] share
    one body. *)
Definition onDuration (audioBlob : AudioBlob) (duration : jsnum) (st : State) : State :=
  if truthy duration && bool_decide (is_Some (finite_positive duration))
  then resolveWithDuration audioBlob duration st
  else st.

(** [onError] and the timer callback share one body. *)
Definition fallThrough (audioBlob : AudioBlob) (st : State) : State :=
  if negb (resolved st)
  then let st1 := cleanup st in
       mkState (resolved st1) (listening st1) (urlRevoked st1)
               (tryWebAudioAPI audioBlob (promise st1))
  else st.

Definition step (audioBlob : AudioBlob) (st : State) (ev : Event) : State :=
  match ev with
  | LoadedMetadata d | DurationChange d | CanPlayThrough d =>
      if listening st then onDuration audioBlob d st else st
  | ErrorEvent =>
      if listening st then fallThrough audioBlob st else st
  | Timeout => fallThrough audioBlob st
  end.

(** The promise after the element's events and the timer have run. *)
Definition getAudioDuration (audioBlob : AudioBlob) (events : list Event) : Settled :=
  promise (fold_left (step audioBlob) events initial).

(** *** The chain as the specification words it *)

(** Strategy 1 succeeds with the first usable duration the element
    reports before it errors or the timer fires. *)
Fixpoint element_duration (events : list Event) : option Q :=
  match events with
  | [] => None
  | (LoadedMetadata d | DurationChange d | CanPlayThrough d) :: rest =>
      match finite_positive d with
      | Some q => Some q
      | None => element_duration rest
      end
  | (ErrorEvent | Timeout) :: _ => None
  end.

(** Strategy 2 succeeds when the decode answers with a finite positive
    duration. *)
Definition decoded_duration (audioBlob : AudioBlob) : option Q :=
  match decoded audioBlob with
  | Some d => finite_positive d
  | None => None
  end.

(** Strategy 3 succeeds when the size estimate lies in (0, 3600). *)
Definition size_estimate (audioBlob : AudioBlob) : option Q :=
  let e := estimatedDuration audioBlob in
  if Qlt_bool 0 e && Qlt_bool e (inject_Z 3600) then Some e else None.

(** *** Vocabulary of the statements, and sample data *)

(** What strategies 2 and 3 make of a pending promise. *)
Definition fallback (b : AudioBlob) : Settled :=
  match decoded_duration b with
  | Some d => Resolved d
  | None =>
      match size_estimate b with
      | Some e => Resolved e
      | None => Rejected "Could not determine audio duration"
      end
  end.

(** The states in which strategy 1 is still waiting. *)
Definition waiting (st : State) : Prop :=
  resolved st = false /\ listening st = true /\ promise st = Pending.

End Duration.

(** ** src/hooks/useAudioRecorder.ts *)
Module Recorder.

Import JS.

Definition supportedTypes : list string :=
  [ "audio/webm;codecs=opus"; "audio/webm"; "audio/mp4";
    "audio/ogg;codecs=opus"; "audio/wav" ].

(** The [for (const type of supportedTypes)] loop with its [break];
    [mimeType] starts as the empty string. *)
Fixpoint selectMimeType (isTypeSupported : string -> bool)
         (types : list string) : string :=
  match types with
  | [] => ""
  | type :: rest =>
      if isTypeSupported type then type
      else selectMimeType isTypeSupported rest
  end.

(** What the hook keeps about the [MediaRecorder] it created. *)
Record MediaRecorder := mkRecorder { mimeType : string }.

Record RecorderState := mkState {
  mediaRecorderRef : option MediaRecorder;
  chunksRef : list Blob;
  streamRef : bool;          (* a capture stream is held *)
  isRecording : bool;
  isPaused : bool;
  recordingTime : Z
}.

Definition initial : RecorderState := mkState None [] false false false 0.

(** [startRecording] once permission is granted and [getUserMedia] has
    answered with a stream. *)
Definition startRecording (isTypeSupported : string -> bool)
           (st : RecorderState) : RecorderState :=
  let mimeType := selectMimeType isTypeSupported supportedTypes in
  mkState (Some (mkRecorder mimeType)) [] true true false 0.

(** [mediaRecorder.ondataavailable] *)
Definition ondataavailable (st : RecorderState) (data : Blob) : RecorderState :=
  if 0 <? blob_size data
  then mkState (mediaRecorderRef st) (chunksRef st ++ [data]) (streamRef st)
               (isRecording st) (isPaused st) (recordingTime st)
  else st.

(** [stopRecording]: the value the promise resolves with, and the state
    left behind.  The recorder reference itself is not cleared. *)
Definition stopRecording (st : RecorderState) : option Blob * RecorderState :=
  match mediaRecorderRef st with
  | None => (None, st)
  | Some _ =>
      let blob := newBlob (chunksRef st) "audio/webm" in
      (Some blob,
       mkState (mediaRecorderRef st) (chunksRef st) false false false
               (recordingTime st))
  end.

(** *** Vocabulary of the statements, and sample data *)

(** A platform that only records into MP4 (no WebM, no Ogg). *)
Definition mp4_only (type : string) : bool := String.eqb type "audio/mp4".

End Recorder.

(** ** src/stores/aiStore.ts *)
Module AIStore.

(** The persisted vocabulary: [AITransformation['status']], and the CHECK
    constraint [ai_transformations_status_check] of the migrations. *)
Definition persisted_statuses : list string :=
  [ "pending"; "processing"; "completed"; "failed"; "cancelled" ].

(** The inference service's vocabulary ([ReplicatePrediction.status]). *)
Definition inference_statuses : list string :=
  [ "starting"; "processing"; "succeeded"; "failed"; "canceled" ].

Definition includes (l : list string) (s : string) : bool :=
  existsb (String.eqb s) l.

(** [ProxyStatusResponse], the fields the store reads. *)
Record StatusResponse := mkResponse {
  success : bool;
  status : option string;
  output : list string;      (* [string | string[]], as a list *)
  error : option string
}.

Record AITransformation := mkTransformation {
  id : string;
  t_status : string;
  replicate_prediction_id : option string;
  output_audio_path : option string;
  error_message : option string;
  started_at : option Z;
  completed_at : option Z;
  processing_time_seconds : option Z
}.

(** [Partial<AITransformation>] as built by [checkTransformationStatus];
    a field left [None] is absent from the object. *)
Record Updates := mkUpdates {
  u_status : option string;
  u_started_at : option Z;
  u_completed_at : option Z;
  u_output_audio_path : option string;
  u_error_message : option string;
  u_processing_time_seconds : option Z
}.

Definition status_is (r : StatusResponse) (s : string) : bool :=
  match status r with Some x => String.eqb x s | None => false end.

(** The [updates] object assembled from a successful status response.
    [now] is [new Date()] in whole seconds. *)
Definition build_updates (now : Z) (transformation : AITransformation)
           (statusResponse : StatusResponse) : Updates :=
  (* let updates = { status: statusResponse.status as ... } *)
  let u0 := mkUpdates (status statusResponse) None None None None None in
  (* if (status === 'processing' && !transformation.started_at) *)
  let u1 :=
    if status_is statusResponse "processing"
       && negb (bool_decide (is_Some (started_at transformation)))
    then mkUpdates (u_status u0) (Some now) (u_completed_at u0)
                   (u_output_audio_path u0) (u_error_message u0)
                   (u_processing_time_seconds u0)
    else u0 in
  (* if (status === 'succeeded') *)
  let u2 :=
    if status_is statusResponse "succeeded"
    then mkUpdates (Some "completed") (u_started_at u1) (Some now)
                   (head (output statusResponse)) (u_error_message u1)
                   (match started_at transformation with
                    | Some t0 => Some (now - t0)
                    | None => u_processing_time_seconds u1
                    end)
    else u1 in
  (* if (status === 'failed') *)
  if status_is statusResponse "failed"
  then mkUpdates (u_status u2) (u_started_at u2) (Some now)
                 (u_output_audio_path u2)
                 (Some (match error statusResponse with
                        | Some message =>
                            if String.eqb message "" then "Processing failed"
                            else message
                        | None => "Processing failed"
                        end))
                 (u_processing_time_seconds u2)
  else u2.

(** The row update as the database answers it: a status outside the CHECK
    constraint is refused and no row comes back ([data] is null). *)
Definition apply_updates (t : AITransformation) (u : Updates) : AITransformation :=
  mkTransformation (id t)
    (default (t_status t) (u_status u))
    (replicate_prediction_id t)
    (from_option Some (output_audio_path t) (u_output_audio_path u))
    (from_option Some (error_message t) (u_error_message u))
    (from_option Some (started_at t) (u_started_at u))
    (from_option Some (completed_at t) (u_completed_at u))
    (from_option Some (processing_time_seconds t) (u_processing_time_seconds u)).

Definition db_update (row : AITransformation) (u : Updates) : option AITransformation :=
  let row' := apply_updates row u in
  if includes persisted_statuses (t_status row') then Some row' else None.

Record AIState := mkAIState {
  transformations : list AITransformation;
  currentTransformation : option AITransformation;
  polling : bool
}.

Definition replace_by_id (tid : string) (new : AITransformation)
           (t : AITransformation) : AITransformation :=
  if String.eqb (id t) tid then new else t.

(** [checkTransformationStatus], given the row read from the database
    and the proxy's answer.  Returns the update submitted (if the code got
    that far) and the next store state. *)
Definition checkTransformationStatus (now : Z) (st : AIState)
           (transformationId : string) (row : option AITransformation)
           (statusResponse : StatusResponse) : option Updates * AIState :=
  match row with
  | None => (None, st)
  | Some transformation =>
      match replicate_prediction_id transformation with
      | None => (None, st)
      | Some _ =>
          if negb (success statusResponse) then (None, st)
          else
            let updates := build_updates now transformation statusResponse in
            match db_update transformation updates with
            | None => (Some updates, st)
            | Some updated =>
                let stop :=
                  includes [ "completed"; "failed"; "cancelled" ]
                           (default "" (status statusResponse)) in
                (Some updates,
                 mkAIState
                   (map (replace_by_id transformationId updated) (transformations st))
                   (match currentTransformation st with
                    | Some c => if String.eqb (id c) transformationId
                                then Some updated else Some c
                    | None => None
                    end)
                   (if stop then false else polling st))
            end
      end
  end.

(** *** Vocabulary of the statements, and sample data *)

Definition pending_row : AITransformation :=
  mkTransformation "t1" "pending" (Some "p1") None None None None None.

Definition answer (s : string) : StatusResponse :=
  mkResponse true (Some s) [] None.

End AIStore.

(** ** audioBufferToWav (the effects panel, src/unnamed/part_005) *)
Module Wav.
Import JS.

(** An [AudioBuffer]: [getChannelData channel i] is sample [i] of the
    [Float32Array] of that channel. *)
Record AudioBuffer := mkBuffer {
  sampleRate : Z;
  numberOfChannels : nat;
  buffer_length : nat;
  getChannelData : nat -> nat -> jsnum
}.

(** Byte [k] of the two's-complement little-endian form of [v]. *)
Definition byte (k : nat) (v : Z) : Z := (v / 2 ^ (8 * Z.of_nat k)) mod 256.
Global Arguments byte : simpl never.

(** *** [DataView] over a list of bytes; a write that does not fit raises
    [RangeError] ([None]) and writes nothing. *)
Definition setUint8 (view : list Z) (byteOffset : nat) (value : Z) : option (list Z) :=
  if (byteOffset + 1 <=? length view)%nat
  then Some (<[byteOffset := byte 0 value]> view)
  else None.

(** [setUint16(byteOffset, value, true)] *)
Definition setUint16 (view : list Z) (byteOffset : nat) (value : Z) : option (list Z) :=
  if (byteOffset + 2 <=? length view)%nat
  then Some (<[byteOffset + 1 := byte 1 value]> (<[byteOffset := byte 0 value]> view))%nat
  else None.

(** [setInt16(byteOffset, value, true)]: the same two bytes. *)
Definition setInt16 (view : list Z) (byteOffset : nat) (value : jsnum) : option (list Z) :=
  setUint16 view byteOffset (ToInteger value).

(** [setUint32(byteOffset, value, true)] *)
Definition setUint32 (view : list Z) (byteOffset : nat) (value : Z) : option (list Z) :=
  if (byteOffset + 4 <=? length view)%nat
  then Some (<[byteOffset + 3 := byte 3 value]>
             (<[byteOffset + 2 := byte 2 value]>
              (<[byteOffset + 1 := byte 1 value]>
               (<[byteOffset := byte 0 value]> view))))%nat
  else None.

Definition charCode (c : Ascii.ascii) : Z := Z.of_N (Ascii.N_of_ascii c).

(** [writeString]: one [setUint8] per character. *)
Fixpoint writeString (view : list Z) (offset : nat) (string : string) : option (list Z) :=
  match string with
  | EmptyString => Some view
  | String c rest =>
      view ← setUint8 view offset (charCode c);
      writeString view (S offset) rest
  end.

(** A [for] loop over [items] threading a state, stopped by an exception. *)
Fixpoint for_each {A S : Type} (items : list A) (body : A -> S -> option S)
         (s : S) : option S :=
  match items with
  | [] => Some s
  | a :: rest => s' ← body a s; for_each rest body s'
  end.

Definition maxValue : Q := 32767.

(** [Math.round(Math.max(-1, Math.min(1, x)) * maxValue)] *)
Definition clamp (x : jsnum) : jsnum := Math_max (Fin (-1)) (Math_min (Fin 1) x).
Definition intSample (x : jsnum) : jsnum := Math_round (times (clamp x) maxValue).

(** The body of the inner loop: one sample of frame [i]. *)
Definition writeSample (buffer : AudioBuffer) (i channel : nat)
           (st : list Z * nat) : option (list Z * nat) :=
  let '(view, offset) := st in
  view ← setInt16 view offset (intSample (getChannelData buffer channel i));
  Some (view, (offset + 2)%nat).

Definition writeFrame (buffer : AudioBuffer) (i : nat)
           (st : list Z * nat) : option (list Z * nat) :=
  for_each (seq 0 (numberOfChannels buffer)) (writeSample buffer i) st.

(** The 44 header bytes, written into [view]. *)
Definition writeHeader (view : list Z)
           (bufferSize numberOfChannels sampleRate byteRate blockAlign dataSize : Z)
  : option (list Z) :=
  view ← writeString view 0 "RIFF";
  view ← setUint32 view 4 (bufferSize - 8);
  view ← writeString view 8 "WAVE";
  view ← writeString view 12 "fmt ";
  view ← setUint32 view 16 16;
  view ← setUint16 view 20 1;
  view ← setUint16 view 22 numberOfChannels;
  view ← setUint32 view 24 sampleRate;
  view ← setUint32 view 28 byteRate;
  view ← setUint16 view 32 blockAlign;
  view ← setUint16 view 34 16;
  view ← writeString view 36 "data";
  setUint32 view 40 dataSize.

Definition audioBufferToWav (buffer : AudioBuffer) : option Blob :=
  let length := buffer_length buffer in
  let numberOfChannels := numberOfChannels buffer in
  let sampleRate := sampleRate buffer in
  let bytesPerSample := 2%nat in
  let blockAlign := (numberOfChannels * bytesPerSample)%nat in
  let byteRate := sampleRate * Z.of_nat blockAlign in
  let dataSize := (length * blockAlign)%nat in
  let bufferSize := (44 + dataSize)%nat in
  (* new ArrayBuffer(bufferSize): zero-filled *)
  let view := replicate bufferSize 0 in
  view ← writeHeader view (Z.of_nat bufferSize) (Z.of_nat numberOfChannels)
                     sampleRate byteRate (Z.of_nat blockAlign) (Z.of_nat dataSize);
  '(view, _) ← for_each (seq 0 length) (writeFrame buffer) (view, 44%nat);
  Some (mkBlob view "audio/wav").

(** *** Reading the container back *)
Definition getUint16 (view : list Z) (byteOffset : nat) : option Z :=
  b0 ← view !! byteOffset; b1 ← view !! (byteOffset + 1)%nat;
  Some (b0 + 256 * b1).

Definition getInt16 (view : list Z) (byteOffset : nat) : option Z :=
  u ← getUint16 view byteOffset;
  Some (if u <? 32768 then u else u - 65536).

Definition getUint32 (view : list Z) (byteOffset : nat) : option Z :=
  b0 ← view !! byteOffset; b1 ← view !! (byteOffset + 1)%nat;
  b2 ← view !! (byteOffset + 2)%nat; b3 ← view !! (byteOffset + 3)%nat;
  Some (b0 + 256 * (b1 + 256 * (b2 + 256 * b3))).

(** *** Vocabulary of the statements, and sample data *)

(** The 44 header bytes for given field values. *)
Definition header_bytes
           (bufferSize numberOfChannels sampleRate byteRate blockAlign dataSize : Z)
  : list Z :=
  [ 82; 73; 70; 70;
    byte 0 (bufferSize - 8); byte 1 (bufferSize - 8);
    byte 2 (bufferSize - 8); byte 3 (bufferSize - 8);
    87; 65; 86; 69;
    102; 109; 116; 32;
    16; 0; 0; 0;
    1; 0;
    byte 0 numberOfChannels; byte 1 numberOfChannels;
    byte 0 sampleRate; byte 1 sampleRate; byte 2 sampleRate; byte 3 sampleRate;
    byte 0 byteRate; byte 1 byteRate; byte 2 byteRate; byte 3 byteRate;
    byte 0 blockAlign; byte 1 blockAlign;
    16; 0;
    100; 97; 116; 97;
    byte 0 dataSize; byte 1 dataSize; byte 2 dataSize; byte 3 dataSize ].

(** The 16-bit integer stored for sample [x], its two bytes, the bytes of
    frame [i] and those of the whole data chunk. *)
Definition pcm16 (x : jsnum) : Z := ToInteger (intSample x).

Definition sample_bytes (x : jsnum) : list Z := [ byte 0 (pcm16 x); byte 1 (pcm16 x) ].

Definition frame_bytes (buffer : AudioBuffer) (i : nat) : list Z :=
  flat_map (fun channel => sample_bytes (getChannelData buffer channel i))
           (seq 0 (numberOfChannels buffer)).

Definition data_bytes (buffer : AudioBuffer) : list Z :=
  flat_map (frame_bytes buffer) (seq 0 (buffer_length buffer)).

(** A two-channel, three-frame buffer at 44.1 kHz with samples inside and
    outside the range. *)
Definition sample_buffer : AudioBuffer :=
  mkBuffer 44100 2 3
           (fun channel i =>
              match channel, i with
              | 0, 0 => Fin (1 # 2) | 0, 1 => Fin (-3) | 0, 2 => Fin (5 # 4)
              | 1, 0 => NaN | 1, 1 => PosInf | _, _ => Fin (-1 # 3)
              end%nat).

End Wav.

(** ** The effects panel (src/unnamed/part_005) *)
Module Effects.
Import JS.

Module Reverb.
Record t := mk { roomSize : Q; damping : Q; wetLevel : Q; dryLevel : Q }.
End Reverb.
Module Delay.
Record t := mk { delayTime : Q; feedback : Q; wetLevel : Q; dryLevel : Q }.
End Delay.
Module Chorus.
Record t := mk { rate : Q; depth : Q; wetLevel : Q; dryLevel : Q }.
End Chorus.
Module Equalizer.
Record t := mk { lowGain : Q; midGain : Q; highGain : Q }.
End Equalizer.
Module Compressor.
Record t := mk { threshold : Q; ratio : Q; attack : Q; release : Q }.
End Compressor.

Record EffectParameters := mkParameters {
  reverb : Reverb.t;
  delay : Delay.t;
  chorus : Chorus.t;
  equalizer : Equalizer.t;
  compressor : Compressor.t
}.

(** The initial [parameters] state. *)
Definition defaultParameters : EffectParameters :=
  mkParameters (Reverb.mk (3 # 10) (1 # 2) (3 # 10) (7 # 10))
               (Delay.mk (3 # 10) (1 # 4) (3 # 10) (7 # 10))
               (Chorus.mk (3 # 2) (3 # 10) (2 # 5) (3 # 5))
               (Equalizer.mk 0 0 0)
               (Compressor.mk (-24) 3 (3 # 1000) (1 # 4)).

Definition includes (l : list string) (s : string) : bool :=
  existsb (String.eqb s) l.

(** [toggleEffect], as the updater passed to [setActiveEffects]. *)
Definition toggleEffect (prev : list string) (effectName : string) : list string :=
  if includes prev effectName
  then List.filter (fun name => negb (String.eqb name effectName)) prev
  else prev ++ [effectName].

(** *** The offline graph

    A node of the [OfflineAudioContext] is written as the signal it
    carries: the node's kind and settings, applied to what is connected to
    its input.  Two connections into one input are a [Sum].  The delay
    line with its feedback gain looped back is one [FeedbackDelay]; the
    chorus delay with the oscillator and its gain driving [delayTime] is
    one [ModulatedDelay]. *)

Inductive BiquadType := lowshelf | peaking | highshelf.

(** The reverb impulse: [length] frames, two channels, sample [i] being
    [(Math.random() * 2 - 1) * Math.pow(1 - i / length, exponent)], the
    draws being those numbered from [firstDraw] on. *)
Record Impulse := mkImpulse {
  imp_length : Q;
  imp_sampleRate : Q;
  imp_exponent : Q;
  imp_firstDraw : nat
}.

Inductive Node :=
| BufferSource
| BiquadFilter (type : BiquadType) (frequency : Q) (quality : option Q)
               (gain : Q) (input : Node)
| DynamicsCompressor (threshold ratio attack release : Q) (input : Node)
| Convolver (buffer : Impulse) (input : Node)
| Gain (gain : Q) (input : Node)
| Sum (a b : Node)
| FeedbackDelay (maxDelayTime delayTime feedback : Q) (input : Node)
| ModulatedDelay (maxDelayTime delayTime lfoFrequency lfoGain : Q) (input : Node).

(** The loop state: [currentNode], and how many [Math.random()] draws
    were made. *)
Record GraphState := mkGraph { currentNode : Node; draws : nat }.

(** One iteration of [activeEffects.forEach]: the [switch]. *)
Definition applyEffect (sampleRate : Q) (parameters : EffectParameters)
           (st : GraphState) (effectType : string) : GraphState :=
  let currentNode := currentNode st in
  if String.eqb effectType "equalizer" then
    let lowShelf :=
      BiquadFilter lowshelf 320 None (Equalizer.lowGain (equalizer parameters))
                   currentNode in
    let midPeaking :=
      BiquadFilter peaking 1000 (Some 1%Q) (Equalizer.midGain (equalizer parameters))
                   lowShelf in
    let highShelf :=
      BiquadFilter highshelf 3200 None (Equalizer.highGain (equalizer parameters))
                   midPeaking in
    mkGraph highShelf (draws st)
  else if String.eqb effectType "compressor" then
    mkGraph (DynamicsCompressor (Compressor.threshold (compressor parameters))
                                (Compressor.ratio (compressor parameters))
                                (Compressor.attack (compressor parameters))
                                (Compressor.release (compressor parameters))
                                currentNode)
            (draws st)
  else if String.eqb effectType "reverb" then
    let length := (sampleRate * Reverb.roomSize (reverb parameters) * 4)%Q in
    let impulse :=
      mkImpulse length sampleRate (Reverb.damping (reverb parameters) * 10)%Q
                (draws st) in
    let wetGain := Gain (Reverb.wetLevel (reverb parameters))
                        (Convolver impulse currentNode) in
    let dryGain := Gain (Reverb.dryLevel (reverb parameters)) currentNode in
    let outputGain := Gain 1 (Sum wetGain dryGain) in
    mkGraph outputGain (draws st + 2 * Z.to_nat (Qceiling length))%nat
  else if String.eqb effectType "delay" then
    let settings := delay parameters in
    let delay :=
      FeedbackDelay 1 (Delay.delayTime settings) (Delay.feedback settings)
                    currentNode in
    let wetGain := Gain (Delay.wetLevel settings) delay in
    let dryGain := Gain (Delay.dryLevel settings) currentNode in
    let outputGain := Gain 1 (Sum wetGain dryGain) in
    mkGraph outputGain (draws st)
  else if String.eqb effectType "chorus" then
    let delay :=
      ModulatedDelay (5 # 100) (2 # 100) (Chorus.rate (chorus parameters))
                     (Chorus.depth (chorus parameters) * (1 # 100))%Q
                     currentNode in
    let wetGain := Gain (Chorus.wetLevel (chorus parameters)) delay in
    let dryGain := Gain (Chorus.dryLevel (chorus parameters)) currentNode in
    let outputGain := Gain 1 (Sum wetGain dryGain) in
    mkGraph outputGain (draws st)
  else st.

(** The graph connected to [offlineContext.destination]. *)
Definition buildGraph (sampleRate : Q) (parameters : EffectParameters)
           (activeEffects : list string) : Node :=
  currentNode
    (fold_left (applyEffect sampleRate parameters) activeEffects
               (mkGraph BufferSource 0)).

(** *** Rendering

    What the platform's nodes do to a signal is the platform's business;
    [render] only follows the connections. *)
Record Platform (Signal : Type) := mkPlatform {
  biquadFilter : BiquadType -> Q -> option Q -> Q -> Signal -> Signal;
  dynamicsCompressor : Q -> Q -> Q -> Q -> Signal -> Signal;
  convolver : Impulse -> Signal -> Signal;
  gainNode : Q -> Signal -> Signal;
  mix : Signal -> Signal -> Signal;
  feedbackDelay : Q -> Q -> Q -> Signal -> Signal;
  modulatedDelay : Q -> Q -> Q -> Q -> Signal -> Signal
}.
Global Arguments biquadFilter {Signal}.
Global Arguments dynamicsCompressor {Signal}.
Global Arguments convolver {Signal}.
Global Arguments gainNode {Signal}.
Global Arguments mix {Signal}.
Global Arguments feedbackDelay {Signal}.
Global Arguments modulatedDelay {Signal}.

Fixpoint render {Signal : Type} (P : Platform Signal) (source : Signal)
         (node : Node) : Signal :=
  match node with
  | BufferSource => source
  | BiquadFilter type f q g input => biquadFilter P type f q g (render P source input)
  | DynamicsCompressor t r a rl input => dynamicsCompressor P t r a rl (render P source input)
  | Convolver buffer input => convolver P buffer (render P source input)
  | Gain g input => gainNode P g (render P source input)
  | Sum a b => mix P (render P source a) (render P source b)
  | FeedbackDelay m d f input => feedbackDelay P m d f (render P source input)
  | ModulatedDelay m d f g input => modulatedDelay P m d f g (render P source input)
  end.

(** [processAudioWithEffects] up to the rendered buffer: nothing happens
    without a session blob or without active effects; [decoded] is what
    [decodeAudioData] gave, [None] when it threw. *)
Definition processAudioWithEffects {Signal : Type} (P : Platform Signal)
           (sampleRate : Q) (decoded : option Signal)
           (parameters : EffectParameters) (activeEffects : list string)
  : option Signal :=
  match activeEffects with
  | [] => None
  | _ =>
      audioBuffer ← decoded;
      Some (render P audioBuffer (buildGraph sampleRate parameters activeEffects))
  end.

(** The stage of the chain the equalizer adds, and the one the compressor
    adds, as signal transformers. *)
Definition equalizerStage {Signal : Type} (P : Platform Signal)
           (parameters : EffectParameters) (x : Signal) : Signal :=
  biquadFilter P highshelf 3200 None (Equalizer.highGain (equalizer parameters))
    (biquadFilter P peaking 1000 (Some 1%Q) (Equalizer.midGain (equalizer parameters))
       (biquadFilter P lowshelf 320 None (Equalizer.lowGain (equalizer parameters)) x)).

Definition compressorStage {Signal : Type} (P : Platform Signal)
           (parameters : EffectParameters) (x : Signal) : Signal :=
  dynamicsCompressor P (Compressor.threshold (compressor parameters))
                     (Compressor.ratio (compressor parameters))
                     (Compressor.attack (compressor parameters))
                     (Compressor.release (compressor parameters)) x.

(** Reading a graph back: the effects whose topologies are chained from
    the source to the node, in that order. *)
Fixpoint effectChain (node : Node) : list string :=
  match node with
  | BiquadFilter highshelf _ _ _
      (BiquadFilter peaking _ _ _ (BiquadFilter lowshelf _ _ _ input)) =>
      effectChain input ++ ["equalizer"]
  | DynamicsCompressor _ _ _ _ input => effectChain input ++ ["compressor"]
  | Gain _ (Sum (Gain _ (Convolver _ input)) (Gain _ _)) =>
      effectChain input ++ ["reverb"]
  | Gain _ (Sum (Gain _ (FeedbackDelay _ _ _ input)) (Gain _ _)) =>
      effectChain input ++ ["delay"]
  | Gain _ (Sum (Gain _ (ModulatedDelay _ _ _ _ input)) (Gain _ _)) =>
      effectChain input ++ ["chorus"]
  | _ => []
  end.

Definition effectNames : list string :=
  [ "equalizer"; "compressor"; "reverb"; "delay"; "chorus" ].

End Effects.

(** ** src/stores/trackStore.ts *)
Module TrackStore.
Import JS.

Record Track := mkTrack {
  id : string;
  project_id : string;
  user_id : string;
  name : string;
  description : string;
  audio_url : option string;       (* client side only, not a column *)
  duration_seconds : Q;
  sample_rate : Z;
  volume : Q;
  pan : Q;
  is_muted : bool;
  is_solo : bool;
  track_order : Z
}.

Record TrackSession := mkSession {
  trackId : string;
  audioUrl : option string;
  isPlaying : bool;
  currentTime : Q;
  duration : Q
}.

Record TrackState := mkState {
  tracks : list Track;
  currentTrack : option Track;
  trackSessions : gmap string TrackSession;
  loading : bool;
  error : option string
}.

(** The store together with the [tracks] table it talks to. *)
Record World := mkWorld { state : TrackState; table : list Track }.

(** [Partial<Track>], restricted to the fields that the store's own
    actions pass to [updateTrack]: volume, pan, is_muted, is_solo and
    track_order. *)
Record Updates := mkUpdates {
  u_volume : option Q;
  u_pan : option Q;
  u_is_muted : option bool;
  u_is_solo : option bool;
  u_track_order : option Z
}.

Definition no_updates : Updates := mkUpdates None None None None None.

(** A function that awaits either returns or stays suspended on a
    promise that never settles. *)
Inductive Outcome (A : Type) := Returned (a : A) | Suspended.
Global Arguments Returned {A}.
Global Arguments Suspended {A}.

(** *** The [tracks] table *)

Definition set_columns (row : Track) (u : Updates) : Track :=
  mkTrack (id row) (project_id row) (user_id row) (name row) (description row)
          (audio_url row) (duration_seconds row) (sample_rate row)
          (default (volume row) (u_volume u))
          (default (pan row) (u_pan u))
          (default (is_muted row) (u_is_muted u))
          (default (is_solo row) (u_is_solo u))
          (default (track_order row) (u_track_order u)).

(** [update(updates).eq('id', id).select().single()]: the updated row, or
    an error when the request fails or no row has that id. *)
Definition db_update (requestFails : bool) (table : list Track) (rowId : string)
           (u : Updates) : option Track * list Track :=
  if requestFails then (None, table)
  else
    match List.find (fun r => String.eqb (id r) rowId) table with
    | None => (None, table)
    | Some row =>
        let row' := set_columns row u in
        (Some row',
         map (fun r => if String.eqb (id r) rowId then set_columns r u else r) table)
    end.

(** The trigger [enforce_track_limit] of the migration. *)
Definition check_track_limit (table : list Track) (new : Track) : bool :=
  (10 <=? length (List.filter
                    (fun r => String.eqb (project_id r) (project_id new)
                              && String.eqb (user_id r) (user_id new))
                    table))%nat.

(** How an insert request ends on the wire: it reaches the table and a
    fresh id is at hand, or it fails with a message. *)
Inductive InsertAnswer :=
| Accepted (newId : string)
| Failed (message : string).

(** [insert([newTrack]).select().single()]: the client-only field is not
    stored. *)
Definition db_insert (answer : InsertAnswer) (table : list Track) (newTrack : Track)
  : (string + Track) * list Track :=
  match answer with
  | Failed message => (inl message, table)
  | Accepted newId =>
      if check_track_limit table newTrack
      then (inl "Maximum of 10 tracks per project allowed", table)
      else
        let row := mkTrack newId (project_id newTrack) (user_id newTrack)
                           (name newTrack) (description newTrack) None
                           (duration_seconds newTrack) (sample_rate newTrack)
                           (volume newTrack) (pan newTrack) (is_muted newTrack)
                           (is_solo newTrack) (track_order newTrack) in
        (inr row, table ++ [row])
  end.

(** *** The store *)

Definition with_status (st : TrackState) (loading : bool) (error : option string)
  : TrackState :=
  mkState (tracks st) (currentTrack st) (trackSessions st) loading error.

(** [Math.max(0, ...values)] *)
Definition Math_max0 (values : list Z) : Z := fold_left Z.max values 0.

(** [createTrackSession]: [duration] is what [getAudioDuration] settled
    with, [audioUrl] what [URL.createObjectURL] returned. *)
Definition createTrackSession (st : TrackState) (trackId : string)
           (duration : Duration.Settled) (audioUrl : string) : Outcome TrackState :=
  match duration with
  | Duration.Pending => Suspended
  | Duration.Rejected _ => Returned st
  | Duration.Resolved d =>
      let session := mkSession trackId (Some audioUrl) false 0 d in
      Returned (mkState (tracks st) (currentTrack st)
                        (<[trackId := session]> (trackSessions st))
                        (loading st) (error st))
  end.

(** [track.audio_url = audioUrl] *)
Definition set_audio_url (track : Track) (audioUrl : string) : Track :=
  mkTrack (id track) (project_id track) (user_id track) (name track)
          (description track) (Some audioUrl) (duration_seconds track)
          (sample_rate track) (volume track) (pan track) (is_muted track)
          (is_solo track) (track_order track).

(** [createTrack].  [user] is the auth store's user, [events] and
    [events'] what happens to the two [getAudioDuration] calls,
    [audioUrl] and [audioUrl'] the two object URLs, [answer] the fate of
    the insert request, and [errorIsError] whether the client library's
    error values are [Error] instances. *)
Definition createTrack (user : option string)
           (events events' : list Duration.Event) (audioUrl audioUrl' : string)
           (answer : InsertAnswer) (errorIsError : bool)
           (w : World) (projectId name : string) (audioBlob : Duration.AudioBlob)
           (description : option string)
  : Outcome (option Track * World) :=
  match user with
  | None => Returned (None, w)
  | Some userId =>
      let st := with_status (state w) true None in
      (* try { *)
      let existingTracks :=
        List.filter (fun t => String.eqb (project_id t) projectId) (tracks st) in
      if (10 <=? length existingTracks)%nat then
        Returned (None,
                  mkWorld (with_status st false
                             (Some "Maximum of 10 tracks per project allowed"))
                          (table w))
      else
        match Duration.getAudioDuration audioBlob events with
        | Duration.Pending => Suspended
        | Duration.Rejected message =>
            Returned (None, mkWorld (with_status st false (Some message)) (table w))
        | Duration.Resolved duration =>
            let maxOrder := Math_max0 (map track_order existingTracks) in
            let newTrack :=
              mkTrack "" projectId userId name (default "" description) None
                      duration 44100 1 0 false false (maxOrder + 1) in
            match db_insert answer (table w) newTrack with
            | (inl message, table') =>
                Returned (None,
                          mkWorld (with_status st false
                                     (Some (if errorIsError then message
                                            else "Failed to create track")))
                                  table')
            | (inr data, table') =>
                let track := set_audio_url data audioUrl in
                let st1 := mkState (tracks st ++ [track]) (Some track)
                                   (trackSessions st) false (error st) in
                match createTrackSession st1 (id track)
                        (Duration.getAudioDuration audioBlob events') audioUrl' with
                | Suspended => Suspended
                | Returned st2 => Returned (Some track, mkWorld st2 table')
                end
            end
        end
  end.

(** [{ ...t, ...updatedTrack }]: every column from the row, the
    client-side field from [t]. *)
Definition merge (t updatedTrack : Track) : Track :=
  mkTrack (id updatedTrack) (project_id updatedTrack) (user_id updatedTrack)
          (name updatedTrack) (description updatedTrack) (audio_url t)
          (duration_seconds updatedTrack) (sample_rate updatedTrack)
          (volume updatedTrack) (pan updatedTrack) (is_muted updatedTrack)
          (is_solo updatedTrack) (track_order updatedTrack).

(** [updateTrack]; [requestFails] says whether the request errors. *)
Definition updateTrack (requestFails : bool) (w : World) (trackId : string)
           (updates : Updates) : bool * World :=
  let st := with_status (state w) true None in
  match db_update requestFails (table w) trackId updates with
  | (None, table') =>
      (false, mkWorld (with_status st false (Some "Failed to update track")) table')
  | (Some updatedTrack, table') =>
      (true,
       mkWorld
         (mkState
            (map (fun t => if String.eqb (id t) trackId then merge t updatedTrack else t)
                 (tracks st))
            (match currentTrack st with
             | Some c => if String.eqb (id c) trackId
                         then Some (merge c updatedTrack) else Some c
             | None => None
             end)
            (trackSessions st) false (error st))
         table')
  end.

(** [muteTrack] *)
Definition muteTrack (requestFails : bool) (w : World) (trackId : string)
           (muted : bool) : World :=
  (updateTrack requestFails w trackId
               (mkUpdates None None (Some muted) None None)).2.

(** The body of the [for (const track of tracks)] loop of [soloTrack];
    the loop state carries the request outcomes still to come (an
    exhausted list means the request goes through). *)
Definition soloStep (trackId : string) (acc : World * list bool) (track : Track)
  : World * list bool :=
  let '(w, outcomes) := acc in
  let requestFails := default false (head outcomes) in
  let updates :=
    if String.eqb (id track) trackId
    then mkUpdates None None (Some false) (Some true) None
    else mkUpdates None None None (Some false) None in
  ((updateTrack requestFails w (id track) updates).2, tail outcomes).

(** [soloTrack] *)
Definition soloTrack (outcomes : list bool) (w : World) (trackId : string)
           (solo : bool) : World :=
  let tracks := tracks (state w) in
  if solo then
    (fold_left (soloStep trackId) tracks (w, outcomes)).1
  else
    (updateTrack (default false (head outcomes)) w trackId
                 (mkUpdates None None None (Some false) None)).2.

(** *** Vocabulary of the statements, and sample data *)

(** The tracks of the project that the store holds. *)
Definition existingTracks (w : World) (projectId : string) : list Track :=
  List.filter (fun t => String.eqb (project_id t) projectId) (tracks (state w)).

(** What the next order is: one more than the greatest of 0 and the
    project's existing orders. *)
Definition next_order (w : World) (projectId : string) : Z :=
  Math_max0 (map track_order (existingTracks w projectId)) + 1.

(** A store and table holding the tracks named [keys], all of one
    project, in order. *)
Definition track_named (order : Z) (key : string) : Track :=
  mkTrack key "project" "user" key "" None 2 44100 1 0 false false order.

Fixpoint tracks_named (order : Z) (keys : list string) : list Track :=
  match keys with
  | [] => []
  | key :: rest => track_named order key :: tracks_named (order + 1) rest
  end.

Definition world_of (ts : list Track) : World :=
  mkWorld (mkState ts None ∅ false None) ts.

Definition full_world : World :=
  world_of (tracks_named 1 ["t1"; "t2"; "t3"; "t4"; "t5";
                            "t6"; "t7"; "t8"; "t9"; "t10"]).

Definition small_world : World := world_of (tracks_named 1 ["t1"; "t2"]).

Definition a_blob : Duration.AudioBlob := Duration.mkAudioBlob 32000 None.

Definition metadata_then_timer : list Duration.Event :=
  [Duration.LoadedMetadata (Fin 2); Duration.Timeout].

Definition has_id (key : string) (r : Track) : bool := String.eqb (id r) key.

(** Every track of the store has its row in the table. *)
Definition persisted (w : World) : Prop :=
  forall t, In t (tracks (state w)) ->
            exists row, List.find (has_id (id t)) (table w) = Some row.

(** The store and the table after a request that goes through. *)
Definition updated (w : World) (key : string) (u : Updates) (row : Track) : World :=
  mkWorld
    (mkState
       (map (fun t => if String.eqb (id t) key then merge t (set_columns row u) else t)
            (tracks (state w)))
       (match currentTrack (state w) with
        | Some c => if String.eqb (id c) key
                    then Some (merge c (set_columns row u)) else Some c
        | None => None
        end)
       (trackSessions (state w)) false None)
    (map (fun r => if String.eqb (id r) key then set_columns r u else r) (table w)).

(** What [soloTrack(trackId, true)] is after for each track. *)
Definition solo_settled (trackId : string) (t : Track) : Prop :=
  is_solo t = String.eqb (id t) trackId
  /\ (id t = trackId -> is_muted t = false).

(** No request of the list fails. *)
Definition all_go_through (outcomes : list bool) : Prop :=
  forall b, In b outcomes -> b = false.

(** Two persisted tracks, the first one solo. *)
Definition solo_world : World :=
  world_of [ mkTrack "A" "project" "user" "A" "" None 2 44100 1 0 false true 1;
             mkTrack "B" "project" "user" "B" "" None 2 44100 1 0 true false 2 ].

End TrackStore.

(** ** src/components/studio/MultiTrackPlayer.tsx *)
Module Player.
Import JS TrackStore.

(** An [HTMLAudioElement], as far as the player drives it. *)
Record Audio := mkAudio {
  src : string;
  a_volume : Q;
  muted : bool;
  paused : bool;
  a_currentTime : Q
}.

(** [new Audio()] *)
Definition newAudio : Audio := mkAudio "" 1 false true 0.

(** [audioRefs]: a [Map], which iterates in insertion order. *)
Definition AudioRefs := list (string * Audio).

Fixpoint refs_get (refs : AudioRefs) (key : string) : option Audio :=
  match refs with
  | [] => None
  | (k, a) :: rest => if String.eqb k key then Some a else refs_get rest key
  end.

(** [Map.set]: in place for a known key, at the end for a new one. *)
Fixpoint refs_set (refs : AudioRefs) (key : string) (audio : Audio) : AudioRefs :=
  match refs with
  | [] => [(key, audio)]
  | (k, a) :: rest =>
      if String.eqb k key then (k, audio) :: rest
      else (k, a) :: refs_set rest key audio
  end.

Definition values (refs : AudioRefs) : list Audio := map snd refs.

Record PlayerState := mkPlayer {
  audioRefs : AudioRefs;
  masterVolume : Q;
  currentTime : Q;
  isPlaying : bool;
  duration : Q
}.

(** [Math.max(0, ...values)] on seconds. *)
Definition Qmax2 (a b : Q) : Q := if Qle_bool a b then b else a.
Definition Math_max0 (values : list Q) : Q := fold_left Qmax2 values 0%Q.

(** The effect on [tracks]: the master duration. *)
Definition durationEffect (tracks : list Track) (st : PlayerState) : PlayerState :=
  let maxDuration := Math_max0 (map duration_seconds tracks) in
  mkPlayer (audioRefs st) (masterVolume st) (currentTime st) (isPlaying st)
           maxDuration.

(** [audio.src = url; audio.load()]: the element is reset. *)
Definition load (audio : Audio) (url : string) : Audio :=
  mkAudio url (a_volume audio) (muted audio) true 0.

(** The body of [tracks.forEach] in the track-settings effect. *)
Definition setUpTrack (tracks : list Track) (trackSessions : gmap string TrackSession)
           (masterVolume : Q) (refs : AudioRefs) (track : Track) : AudioRefs :=
  match trackSessions !! id track with
  | Some session =>
      match audioUrl session with
      | Some url =>
          if String.eqb url "" then refs
          else
            let audio := default newAudio (refs_get refs (id track)) in
            let audio := if String.eqb (src audio) url then audio else load audio url in
            let audio :=
              mkAudio (src audio)
                      (volume track * masterVolume * (if is_muted track then 0 else 1))%Q
                      (is_muted track
                       || (existsb is_solo tracks && negb (is_solo track)))
                      (paused audio) (a_currentTime audio) in
            refs_set refs (id track) audio
      | None => refs
      end
  | None => refs
  end.

(** The track-settings effect: set every track up, then drop the
    elements of tracks that are gone. *)
Definition trackSettingsEffect (tracks : list Track)
           (trackSessions : gmap string TrackSession) (st : PlayerState)
  : PlayerState :=
  let refs := fold_left (setUpTrack tracks trackSessions (masterVolume st))
                        tracks (audioRefs st) in
  let refs :=
    List.filter (fun entry => existsb (fun t => String.eqb (id t) entry.1) tracks)
                refs in
  mkPlayer refs (masterVolume st) (currentTime st) (isPlaying st) (duration st).

(** What the listener hears of an element. *)
Definition audible (audio : Audio) : bool := negb (muted audio).

(** [audio.currentTime = 0; audio.pause()] *)
Definition rewind (audio : Audio) : Audio :=
  mkAudio (src audio) (a_volume audio) (muted audio) true 0.

(** One run of [updateTime]. *)
Definition updateTime (st : PlayerState) : PlayerState :=
  if isPlaying st then
    let audioElements := values (audioRefs st) in
    match List.find (fun audio => negb (paused audio)) audioElements with
    | Some playingAudio =>
        (* setCurrentTime(playingAudio.currentTime) *)
        let st1 := mkPlayer (audioRefs st) (masterVolume st)
                            (a_currentTime playingAudio) (isPlaying st)
                            (duration st) in
        if Qle_bool (duration st) (a_currentTime playingAudio) then
          mkPlayer (map (fun entry => (entry.1, rewind entry.2)) (audioRefs st))
                   (masterVolume st) 0 false (duration st)
        else st1
    | None => st
    end
  else st.

(** *** Vocabulary of the statements, and sample data *)

(** The settings the effect writes for [track]. *)
Definition settings_of (tracks : list Track) (masterVolume : Q) (track : Track)
           (audio : Audio) : Prop :=
  a_volume audio
  = (volume track * masterVolume * (if is_muted track then 0 else 1))%Q
  /\ muted audio
     = (is_muted track || (existsb is_solo tracks && negb (is_solo track))).

(** Three tracks of one project, each with a playable session. *)
Definition example_track (key : string) (seconds : Q) (muted solo : bool) : Track :=
  mkTrack key "project" "user" key "" None seconds 44100 (4 # 5) 0 muted solo 1.

Definition example_sessions : gmap string TrackSession :=
  <["A" := mkSession "A" (Some "blob:a") false 0 3]>
    (<["B" := mkSession "B" (Some "blob:b") false 0 5]>
       (<["C" := mkSession "C" (Some "blob:c") false 0 2]> ∅)).

Definition example_player : PlayerState := mkPlayer [] 1 0 false 0.

(** The three example tracks loaded and playing, the 5-second one at its
    end. *)
Definition example_playing : PlayerState :=
  mkPlayer [ ("A", mkAudio "blob:a" 1 false true 3);
             ("B", mkAudio "blob:b" 1 false false 5);
             ("C", mkAudio "blob:c" 1 false true 2) ]
           1 (49 # 10) true 5.

(** The track has a session with a usable object URL. *)
Definition playable (trackSessions : gmap string TrackSession) (track : Track) : bool :=
  match trackSessions !! id track with
  | Some session =>
      match audioUrl session with
      | Some url => negb (String.eqb url "")
      | None => false
      end
  | None => false
  end.

(** A solo and muted, B and C neither. *)
Definition solo_example : list Track :=
  [ example_track "A" 3 true true;
    example_track "B" 5 false false;
    example_track "C" 2 false false ].

(** Three persisted tracks, none muted, none solo. *)
Definition studio_world : World :=
  world_of [ example_track "A" 3 false false;
             example_track "B" 5 false false;
             example_track "C" 2 false false ].

End Player.

(** ** src/stores/projectStore.ts: the audio session *)
Module ProjectStore.
Import JS.

Record AudioSession := mkSession {
  id : string;
  projectId : string;
  audioBlob : Duration.AudioBlob;
  audioUrl : option string;
  isPlaying : bool;
  currentTime : Q;
  duration : Q
}.

(** [Partial<AudioSession>] *)
Record Updates := mkUpdates {
  u_audioBlob : option Duration.AudioBlob;
  u_audioUrl : option string;
  u_isPlaying : option bool;
  u_currentTime : option Q;
  u_duration : option Q
}.

(** The session slice of the store (the session actions touch nothing
    else of it), and the object URLs handed to [URL.revokeObjectURL] so
    far, oldest first. *)
Record SessionStore := mkStore {
  currentSession : option AudioSession;
  revoked : list string
}.

(** [Math.max(1, x)] *)
Definition Math_max1 (x : Q) : Q := if Qle_bool 1 x then x else 1%Q.

(** Whether [cleanup] hands the probe's object URL to
    [URL.revokeObjectURL] while [ev] is handled: it does whenever it runs
    with [resolved] still false, that is in [onError], while the
    listeners are attached, and in the timer's callback; the URL is not
    remembered as revoked, so it can be handed over twice. *)
Definition cleanup_revokes (st : Duration.State) (ev : Duration.Event) : bool :=
  match ev with
  | Duration.ErrorEvent => Duration.listening st && negb (Duration.resolved st)
  | Duration.Timeout => negb (Duration.resolved st)
  | _ => false
  end.

(** The calls of [URL.revokeObjectURL] that one [getAudioDuration] makes
    on its probe URL, in the order of the events. *)
Fixpoint probe_revocations (audioBlob : Duration.AudioBlob) (probeUrl : string)
         (st : Duration.State) (events : list Duration.Event) : list string :=
  match events with
  | [] => []
  | ev :: rest =>
      (if cleanup_revokes st ev then [probeUrl] else [])
        ++ probe_revocations audioBlob probeUrl (Duration.step audioBlob st ev) rest
  end.

(** [createSession].  [sessionId] is the [session-${Date.now()}] string,
    [events] what happens to the [getAudioDuration] call, [probeUrl] the
    object URL of its probe and [url] what [URL.createObjectURL] returns
    for the session. The revocations of the probe are counted with the
    call, also those of a timer that fires after the promise settled. *)
Definition createSession (sessionId probeUrl url : string)
           (events : list Duration.Event)
           (st : SessionStore) (projectId : string) (audioBlob : Duration.AudioBlob)
  : TrackStore.Outcome SessionStore :=
  let revoked :=
    revoked st ++ probe_revocations audioBlob probeUrl Duration.initial events in
  match Duration.getAudioDuration audioBlob events with
  | Duration.Pending => TrackStore.Suspended
  | Duration.Resolved duration =>
      let session := mkSession sessionId projectId audioBlob (Some url) false 0 duration in
      TrackStore.Returned (mkStore (Some session) revoked)
  | Duration.Rejected _ =>
      (* catch: the size estimate, at least one second *)
      let estimatedDuration :=
        Math_max1 (inject_Z (Duration.size audioBlob * 8) / inject_Z (128 * 1000)) in
      let session :=
        mkSession sessionId projectId audioBlob (Some url) false 0 estimatedDuration in
      TrackStore.Returned (mkStore (Some session) revoked)
  end.

(** [{ ...state.currentSession, ...updates }] *)
Definition apply_updates (s : AudioSession) (u : Updates) : AudioSession :=
  mkSession (id s) (projectId s)
            (default (audioBlob s) (u_audioBlob u))
            (from_option Some (audioUrl s) (u_audioUrl u))
            (default (isPlaying s) (u_isPlaying u))
            (default (currentTime s) (u_currentTime u))
            (default (duration s) (u_duration u)).

Definition updateSession (st : SessionStore) (updates : Updates) : SessionStore :=
  mkStore (match currentSession st with
           | Some s => Some (apply_updates s updates)
           | None => None
           end)
          (revoked st).

(** [clearSession]: an empty URL string is falsy. *)
Definition clearSession (st : SessionStore) : SessionStore :=
  let revoked :=
    match currentSession st with
    | Some s =>
        match audioUrl s with
        | Some url => if String.eqb url "" then revoked st else revoked st ++ [url]
        | None => revoked st
        end
    | None => revoked st
    end in
  mkStore None revoked.

Definition playAudio (st : SessionStore) : SessionStore :=
  updateSession st (mkUpdates None None (Some true) None None).

Definition pauseAudio (st : SessionStore) : SessionStore :=
  updateSession st (mkUpdates None None (Some false) None None).

Definition seekAudio (st : SessionStore) (time : Q) : SessionStore :=
  updateSession st (mkUpdates None None None (Some time) None).

(** One recording handed to [createSession]. *)
Record Take := mkTake {
  take_id : string;
  take_probe_url : string;
  take_url : string;
  take_events : list Duration.Event;
  take_project : string;
  take_blob : Duration.AudioBlob
}.

(** Several recordings in a row, each replacing the session of the one
    before; the run stops where a call stays suspended. *)
Fixpoint createSessions (takes : list Take) (st : SessionStore)
  : TrackStore.Outcome SessionStore :=
  match takes with
  | [] => TrackStore.Returned st
  | take :: rest =>
      match createSession (take_id take) (take_probe_url take) (take_url take)
                          (take_events take) st (take_project take)
                          (take_blob take) with
      | TrackStore.Suspended => TrackStore.Suspended
      | TrackStore.Returned st' => createSessions rest st'
      end
  end.

(** *** Vocabulary of the statements, and sample data *)

(** The state of the element probe after its events. *)
Definition probe (audioBlob : Duration.AudioBlob) (events : list Duration.Event)
  : Duration.State :=
  fold_left (Duration.step audioBlob) events Duration.initial.

(** A promise that, if resolved, holds a positive number. *)
Definition positive_if_resolved (p : Duration.Settled) : Prop :=
  forall d, p = Duration.Resolved d -> (0 < d)%Q.

(** The probe before anything decisive happened. *)
Definition untouched (st : Duration.State) : Prop :=
  Duration.resolved st = false /\ Duration.listening st = true /\ Duration.urlRevoked st = false.

(** The probe after the element gave the duration: nothing was released. *)
Definition kept (st : Duration.State) : Prop :=
  Duration.resolved st = true /\ Duration.listening st = true /\ Duration.urlRevoked st = false.

(** The probe after an error or the timer: everything was released. *)
Definition released (st : Duration.State) : Prop :=
  Duration.resolved st = false /\ Duration.listening st = false /\ Duration.urlRevoked st = true.

(** What the probes of the takes hand to [URL.revokeObjectURL]. *)
Definition probes_revoked (takes : list Take) : list string :=
  flat_map (fun take =>
              probe_revocations (take_blob take) (take_probe_url take)
                                Duration.initial (take_events take))
           takes.

Definition empty_store : SessionStore := mkStore None [].

Definition stripped_blob : Duration.AudioBlob := Duration.mkAudioBlob 0 None.

Definition short_blob : Duration.AudioBlob :=
  Duration.mkAudioBlob 32000 (Some (Fin (2 # 1))).

Definition error_then_timer : list Duration.Event :=
  [Duration.ErrorEvent; Duration.Timeout].

Definition infinite_then_timer : list Duration.Event :=
  [Duration.LoadedMetadata PosInf; Duration.Timeout].

End ProjectStore.

(** ** src/stores/trackStore.ts: deleting, sessions, playback flags *)
Module TrackOps.
Import JS TrackStore.

(** [delete().eq('id', id)]: an error when the request fails; deleting no
    row is not an error. *)
Definition db_delete (requestFails : bool) (table : list Track) (rowId : string)
  : bool * list Track :=
  if requestFails then (false, table)
  else (true, List.filter (fun r => negb (String.eqb (id r) rowId)) table).

(** The object URL of a session, if it has one that is not the empty
    string. *)
Definition session_url (s : TrackSession) : list string :=
  match audioUrl s with
  | Some url => if String.eqb url "" then [] else [url]
  | None => []
  end.

(** [clearTrackSession]: the new store, and the URLs handed to
    [URL.revokeObjectURL]. *)
Definition clearTrackSession (st : TrackState) (trackId : string)
  : TrackState * list string :=
  let revoked :=
    match trackSessions st !! trackId with
    | Some session => session_url session
    | None => []
    end in
  (mkState (tracks st) (currentTrack st) (delete trackId (trackSessions st))
           (loading st) (error st),
   revoked).

(** [clearAllSessions] *)
Definition clearAllSessions (st : TrackState) : TrackState * list string :=
  let revoked :=
    flat_map (fun entry => session_url entry.2) (map_to_list (trackSessions st)) in
  (mkState (tracks st) (currentTrack st) ∅ (loading st) (error st), revoked).

(** [deleteTrack]: the result, the new store and table, and the URLs
    revoked. *)
Definition deleteTrack (requestFails : bool) (w : World) (trackId : string)
  : bool * World * list string :=
  let st := with_status (state w) true None in
  match db_delete requestFails (table w) trackId with
  | (false, table') =>
      (false, mkWorld (with_status st false (Some "Failed to delete track")) table', [])
  | (true, table') =>
      let '(st1, revoked) := clearTrackSession st trackId in
      (true,
       mkWorld
         (mkState
            (List.filter (fun t => negb (String.eqb (id t) trackId)) (tracks st1))
            (match currentTrack st1 with
             | Some c => if String.eqb (id c) trackId then None else Some c
             | None => None
             end)
            (trackSessions st1) false (error st1))
         table',
       revoked)
  end.

(** [Partial<TrackSession>], for the fields of the session modelled here. *)
Record SessionUpdates := mkSessionUpdates {
  su_trackId : option string;
  su_audioUrl : option string;
  su_isPlaying : option bool;
  su_currentTime : option Q;
  su_duration : option Q
}.

Definition apply_session_updates (s : TrackSession) (u : SessionUpdates) : TrackSession :=
  mkSession (default (trackId s) (su_trackId u))
            (from_option Some (audioUrl s) (su_audioUrl u))
            (default (isPlaying s) (su_isPlaying u))
            (default (currentTime s) (su_currentTime u))
            (default (duration s) (su_duration u)).

(** [updateTrackSession]: nothing for a track without a session. *)
Definition updateTrackSession (st : TrackState) (trackId : string)
           (updates : SessionUpdates) : TrackState :=
  match trackSessions st !! trackId with
  | None => st
  | Some currentSession =>
      let updatedSession := apply_session_updates currentSession updates in
      mkState (tracks st) (currentTrack st)
              (<[trackId := updatedSession]> (trackSessions st))
              (loading st) (error st)
  end.

Definition playTrack (st : TrackState) (trackId : string) : TrackState :=
  updateTrackSession st trackId (mkSessionUpdates None None (Some true) None None).

Definition pauseTrack (st : TrackState) (trackId : string) : TrackState :=
  updateTrackSession st trackId (mkSessionUpdates None None (Some false) None None).

Definition seekTrack (st : TrackState) (trackId : string) (time : Q) : TrackState :=
  updateTrackSession st trackId (mkSessionUpdates None None None (Some time) None).

(** [setTrackVolume], [setTrackPan] *)
Definition setTrackVolume (requestFails : bool) (w : World) (trackId : string)
           (volume : Q) : World :=
  (updateTrack requestFails w trackId (mkUpdates (Some volume) None None None None)).2.

Definition setTrackPan (requestFails : bool) (w : World) (trackId : string)
           (pan : Q) : World :=
  (updateTrack requestFails w trackId (mkUpdates None (Some pan) None None None)).2.

(** *** Vocabulary of the statements, and sample data *)

(** How many tracks of the project the store holds. *)
Definition project_count (w : World) (projectId : string) : nat :=
  length (existingTracks w projectId).

(** How many rows the table holds for a project and a user, the number the
    trigger counts. *)
Definition pair_count (table : list Track) (projectId userId : string) : nat :=
  length (List.filter
            (fun r => String.eqb (project_id r) projectId
                      && String.eqb (user_id r) userId)
            table).

Definition within_limit (table : list Track) : Prop :=
  forall projectId userId, (pair_count table projectId userId <= 10)%nat.

(** Every session is stored under the id of its own track. *)
Definition keyed (st : TrackState) : Prop :=
  forall key session,
    trackSessions st !! key = Some session -> trackId session = key.

(** The URL of the session of a track, as [session_url] has it. *)
Definition url_of (st : TrackState) (key : string) : list string :=
  from_option session_url [] (trackSessions st !! key).

(** Two tracks with a session each. *)
Definition session_world : World :=
  mkWorld
    (mkState [track_named 1 "t1"; track_named 2 "t2"] None
             (<["t1" := mkSession "t1" (Some "blob:t1") false 0 2]>
                (<["t2" := mkSession "t2" (Some "blob:t2") true 1 2]> ∅))
             false None)
    [track_named 1 "t1"; track_named 2 "t2"].


End TrackOps.

(** ** src/stores/trackStore.ts: loading and reordering *)
Module TrackOrder.
Import JS TrackStore.

(** [order('track_order', { ascending: true })]; rows of equal order come
    in the order the sort leaves them in. *)
Definition by_order : relation Track :=
  fun a b => track_order a <= track_order b.

#[global] Instance by_order_dec : RelDecision by_order.
Proof. intros a b. unfold by_order. apply _. Defined.

(** [select('*').eq('project_id', projectId).eq('user_id', user.id).order(...)] *)
Definition db_select (requestFails : bool) (table : list Track)
           (projectId userId : string) : option (list Track) :=
  if requestFails then None
  else Some (merge_sort by_order
               (List.filter
                  (fun r => String.eqb (project_id r) projectId
                            && String.eqb (user_id r) userId)
                  table)).

(** [loadTracks] *)
Definition loadTracks (user : option string) (requestFails : bool) (w : World)
           (projectId : string) : World :=
  match user with
  | None => w
  | Some userId =>
      let st := with_status (state w) true None in
      match db_select requestFails (table w) projectId userId with
      | None => mkWorld (with_status st false (Some "Failed to load tracks")) (table w)
      | Some data =>
          mkWorld (mkState data (currentTrack st) (trackSessions st) false (error st))
                  (table w)
      end
  end.

(** The body of the [for (const update of updates)] loop of
    [reorderTracks]; the result of [updateTrack] is dropped. *)
Definition reorderStep (acc : World * list bool) (update : string * Z)
  : World * list bool :=
  let '(w, outcomes) := acc in
  ((updateTrack (default false (head outcomes)) w update.1
                (mkUpdates None None None None (Some update.2))).2,
   tail outcomes).

(** [reorderTracks]: [outcomes] are the fates of the update requests,
    [loadFails] that of the reload. *)
Definition reorderTracks (user : option string) (outcomes : list bool)
           (loadFails : bool) (w : World) (projectId : string)
           (trackIds : list string) : World :=
  let updates :=
    imap (fun index trackId => (trackId, Z.of_nat index + 1)) trackIds in
  let w1 := (fold_left reorderStep updates (w, outcomes)).1 in
  loadTracks user loadFails w1 projectId.

(** *** Vocabulary of the statements, and sample data *)

(** The rows of the table that belong to a project and a user. *)
Definition rows_of (table : list Track) (projectId userId : string) : list Track :=
  List.filter
    (fun r => String.eqb (project_id r) projectId && String.eqb (user_id r) userId)
    table.

(** [trackIds] names each row of the project and the user once, and
    nothing else. *)
Definition names_the_rows (table : list Track) (projectId userId : string)
           (trackIds : list string) : Prop :=
  NoDup trackIds
  /\ forall key, key ∈ trackIds <-> key ∈ map id (rows_of table projectId userId).

(** Three tracks and the same three in another order. *)
Definition three_tracks : World := world_of (tracks_named 1 ["a"; "b"; "c"]).

End TrackOrder.

(** ** The parameters of a transformation, from the panel to the model:
       src/components/studio/AITransformationPanel.tsx ([handleTransform]),
       src/stores/aiStore.ts ([createTransformation]),
       src/lib/replicateProxy.ts and
       supabase/functions/ai-transform/index.ts *)
Module Transform.
Import JS.

(** [TransformationStyle] *)
Inductive Style := orchestral | electronic | jazz | rock | acoustic | ambient.

Definition style_name (style : Style) : string :=
  match style with
  | orchestral => "orchestral"
  | electronic => "electronic"
  | jazz => "jazz"
  | rock => "rock"
  | acoustic => "acoustic"
  | ambient => "ambient"
  end.

(** [TRANSFORMATION_STYLES[style].prompts] *)
Definition prompts (style : Style) : list string :=
  match style with
  | orchestral =>
      [ "orchestral arrangement with strings, brass, and woodwinds";
        "classical symphony orchestra with rich harmonies";
        "cinematic orchestral score with dramatic dynamics";
        "romantic period orchestra with lush strings" ]
  | electronic =>
      [ "electronic dance music with synthesizers and beats";
        "ambient electronic with atmospheric pads";
        "techno with driving bassline and percussion";
        "synthwave with retro electronic sounds" ]
  | jazz =>
      [ "jazz ensemble with piano, bass, and drums";
        "smooth jazz with saxophone and guitar";
        "bebop jazz with complex harmonies";
        "latin jazz with percussion and brass" ]
  | rock =>
      [ "rock band with electric guitars and drums";
        "heavy metal with distorted guitars";
        "classic rock with guitar solos";
        "progressive rock with complex arrangements" ]
  | acoustic =>
      [ "acoustic guitar and vocals";
        "folk music with acoustic instruments";
        "unplugged acoustic arrangement";
        "singer-songwriter style with guitar" ]
  | ambient =>
      [ "ambient soundscape with ethereal textures";
        "atmospheric music with reverb and delay";
        "meditative ambient with soft tones";
        "space ambient with cosmic sounds" ]
  end.

(** A property of an options object: not there, there with the value
    [undefined], or there with a value. *)
Inductive Field (A : Type) := Absent | Undefined | Value (a : A).
Global Arguments Absent {A}.
Global Arguments Undefined {A}.
Global Arguments Value {A}.

(** Reading the property: [undefined] in the first two cases. *)
Definition read {A} (f : Field A) : option A :=
  match f with Value a => Some a | _ => None end.

(** The property after [{ key: computed, ...options }]. *)
Definition spread {A} (computed : option A) (f : Field A) : option A :=
  match f with
  | Absent => computed
  | Undefined => None
  | Value a => Some a
  end.

(** [a || b] for an optional string and for an optional number. *)
Definition or_string (a : option string) (b : string) : string :=
  match a with
  | Some s => if String.eqb s "" then b else s
  | None => b
  end.

Definition or_number (a : option jsnum) (b : jsnum) : jsnum :=
  match a with
  | Some x => if truthy x then x else b
  | None => b
  end.

(** [a < b] on doubles; a comparison with [NaN] is false. *)
Definition js_lt (a b : jsnum) : bool :=
  match a, b with
  | NaN, _ | _, NaN => false
  | PosInf, _ => false
  | _, NegInf => false
  | NegInf, _ => true
  | Fin _, PosInf => true
  | Fin x, Fin y => Qlt_bool x y
  end.

Definition js_le (a b : jsnum) : bool :=
  match a, b with
  | NaN, _ | _, NaN => false
  | NegInf, _ => true
  | _, PosInf => true
  | PosInf, _ => false
  | Fin _, NegInf => false
  | Fin x, Fin y => Qle_bool x y
  end.

(** The doubles that the literals [10.1] and [0.1] denote. *)
Definition lit_10_1 : Q := 5685794529555251 # 562949953421312.
Definition lit_0_1 : Q := 3602879701896397 # 36028797018963968.

(** *** createTransformation: the request's [parameters] *)

Record Options := mkOptions {
  o_prompt : Field string;
  o_duration : Field jsnum;
  o_temperature : Field jsnum;
  o_continuation : Field bool
}.

(** [ProxyTransformRequest['parameters']]; [None] is [undefined]. *)
Record Parameters := mkParameters {
  prompt : option string;
  duration : option jsnum;
  temperature : option jsnum;
  continuation : option bool
}.

(** [options.prompt || styleConfig.prompts[0]] *)
Definition chosen_prompt (style : Style) (options : Options) : string :=
  or_string (read (o_prompt options)) (default "" (head (prompts style))).

Definition request_parameters (style : Style) (options : Options) : Parameters :=
  let prompt := chosen_prompt style options in
  mkParameters
    (spread (Some prompt) (o_prompt options))
    (spread (Some (Math_min (Fin 30)
                            (Math_max (Fin 8)
                                      (or_number (read (o_duration options)) (Fin 15)))))
            (o_duration options))
    (spread (Some (Math_min (Fin 2)
                            (Math_max (Fin lit_0_1)
                                      (or_number (read (o_temperature options)) (Fin 1)))))
            (o_temperature options))
    (spread (Some false) (o_continuation options)).

(** *** The wire: [JSON.stringify] in the proxy, [req.json()] in the
    function.  The function does not validate what it parses, so a
    property of [parameters] is any JSON value, or not there. *)
Inductive Json :=
| JAbsent                    (* the property is not there: [undefined] *)
| JNull
| JBool (b : bool)
| JNum (q : Q)
| JStr (s : string)
| JOther (number : jsnum).   (* an array or an object (or, read from a
                                prototype, a function), with what
                                [ToNumber] makes of it *)

Record WireParameters := mkWire {
  w_prompt : Json;
  w_duration : Json;
  w_temperature : Json;
  w_continuation : Json
}.

(** [JSON.stringify] leaves out a property that is [undefined] and
    writes a number that is not finite as [null]. *)
Definition json_string (x : option string) : Json :=
  match x with Some s => JStr s | None => JAbsent end.

Definition json_number (x : option jsnum) : Json :=
  match x with
  | Some (Fin q) => JNum q
  | Some _ => JNull
  | None => JAbsent
  end.

Definition json_bool (x : option bool) : Json :=
  match x with Some b => JBool b | None => JAbsent end.

Definition json (p : Parameters) : WireParameters :=
  mkWire (json_string (prompt p)) (json_number (duration p))
         (json_number (temperature p)) (json_bool (continuation p)).

(** *** ai-transform: the model's input *)

(** What the function's JavaScript engine decides: the number a string
    converts to, and which property names every object inherits
    ([toString], [constructor], ...). *)
Record Engine := mkEngine {
  StringToNumber : string -> jsnum;
  inherited : string -> bool
}.

Definition truthy_json (v : Json) : bool :=
  match v with
  | JAbsent | JNull => false
  | JBool b => b
  | JNum q => negb (Qeq_bool q 0)
  | JStr s => negb (String.eqb s "")
  | JOther _ => true
  end.

(** [a || b] *)
Definition or_json (a b : Json) : Json := if truthy_json a then a else b.

(** The conversion [Math.min] and [Math.max] apply to an argument. *)
Definition ToNumber (engine : Engine) (v : Json) : jsnum :=
  match v with
  | JAbsent => NaN
  | JNull => Fin 0
  | JBool b => Fin (if b then 1 else 0)
  | JNum q => Fin q
  | JStr s => StringToNumber engine s
  | JOther number => number
  end.

(** [stylePrompts], its own properties. *)
Definition stylePrompts : list (string * string) :=
  [ ("orchestral", "orchestral arrangement with strings, brass, and woodwinds");
    ("electronic", "electronic dance music with synthesizers and beats");
    ("jazz", "jazz ensemble with piano, bass, and drums");
    ("rock", "rock band with electric guitars and drums");
    ("acoustic", "acoustic guitar and vocals");
    ("ambient", "ambient soundscape with ethereal textures") ].

(** [stylePrompts[style]], [style] being the property name the request's
    [style] converts to: an own property, else what the prototype holds
    under that name, which is not a string, else [undefined]. *)
Definition stylePrompt (engine : Engine) (style : string) : Json :=
  match List.find (fun entry => String.eqb entry.1 style) stylePrompts with
  | Some entry => JStr entry.2
  | None => if inherited engine style then JOther NaN else JAbsent
  end.

Definition Qmin2 (a b : Q) : Q := if Qle_bool a b then a else b.
Definition Qmax2 (a b : Q) : Q := if Qle_bool a b then b else a.

(** [replicateRequest.input], the fields computed from the request. In
    the body sent on, a number that is not finite is written as [null]
    and a prompt that is a function is left out. *)
Record ModelInput := mkInput {
  i_prompt : Json;
  i_duration : jsnum;
  i_temperature : jsnum;
  i_continuation : bool
}.

(** A request whose [parameters] is [null], or whose [audioBase64] is not
    a string, throws before this point and gets the error response. *)
Definition model_input (engine : Engine) (style : string)
           (parameters : WireParameters) : ModelInput :=
  mkInput
    (or_json (or_json (w_prompt parameters) (stylePrompt engine style))
             (stylePrompt engine "orchestral"))
    (Math_min (ToNumber engine (or_json (w_duration parameters) (JNum 15)))
              (Fin 30))
    (Math_min (Math_max (ToNumber engine (or_json (w_temperature parameters) (JNum 1)))
                        (Fin lit_0_1))
              (Fin 2))
    (match w_continuation parameters with JBool true => true | _ => false end).

(** What the model is given for a call of [createTransformation]. *)
Definition sent (engine : Engine) (style : Style) (options : Options) : ModelInput :=
  model_input engine (style_name style) (json (request_parameters style options)).

(** *** handleTransform *)

Inductive ConnectionStatus := unknown | connected | disconnected.

(** [handleTransform]: the options [createTransformation] is called
    with, or [None] when the handler returns before the call. *)
Definition handleTransform (hasProject hasAudioBlob : bool)
           (apiConnectionStatus : ConnectionStatus) (audioDuration : jsnum)
           (duration temperature : jsnum) (customPrompt : string)
  : option Options :=
  if negb hasProject || negb hasAudioBlob then None
  else if match apiConnectionStatus with disconnected => true | _ => false end
  then None
  else if negb (truthy audioDuration) || js_le audioDuration (Fin 0) then None
  else if js_lt (Fin lit_10_1) audioDuration then None
  else if js_lt audioDuration (Fin (1 # 2)) then None
  else
    Some (mkOptions
            (if String.eqb customPrompt "" then Undefined else Value customPrompt)
            (Value duration) (Value temperature) (Value false)).

(** *** Vocabulary of the statements, and sample data *)

(** A finite number other than zero. *)
Definition usable (x : jsnum) (q : Q) : Prop := x = Fin q /\ ~ (q == 0)%Q.

Definition no_options : Options := mkOptions Absent Absent Absent Absent.



(** An engine for which the string [abc] is no number. *)
Definition plain_engine : Engine :=
  mkEngine (fun _ => NaN) (fun name => String.eqb name "toString").

End Transform.

(** ** src/stores/aiStore.ts: polling and cancelling *)
Module AIPolling.
Import AIStore.

(** The row of the table after a [checkTransformationStatus] that read
    [row] and submitted [submitted]. *)
Definition row_after (row : option AITransformation) (submitted : option Updates)
  : option AITransformation :=
  match row, submitted with
  | Some r, Some u =>
      match db_update r u with
      | Some r' => Some r'
      | None => row
      end
  | _, _ => row
  end.

(** One tick of the interval set by [pollTransformation]: nothing once
    the interval is cleared, else a [checkTransformationStatus] at time
    [tick.1] that the proxy answers with [tick.2]. *)
Definition tick (transformationId : string)
           (acc : option AITransformation * AIState) (t : Z * StatusResponse)
  : option AITransformation * AIState :=
  let '(row, st) := acc in
  if polling st then
    let '(submitted, st') :=
      checkTransformationStatus t.1 st transformationId row t.2 in
    (row_after row submitted, st')
  else acc.

(** [pollTransformation], followed by the ticks of its interval: the
    first check happens at once. *)
Definition pollTransformation (transformationId : string)
           (row : option AITransformation) (st : AIState)
           (ticks : list (Z * StatusResponse))
  : option AITransformation * AIState :=
  fold_left (tick transformationId) ticks
            (row, mkAIState (transformations st) (currentTransformation st) true).

(** [{ ...t, status: 'cancelled', completed_at: now }] *)
Definition cancelled (now : Z) (t : AITransformation) : AITransformation :=
  mkTransformation (id t) "cancelled" (replicate_prediction_id t)
                   (output_audio_path t) (error_message t) (started_at t)
                   (Some now) (processing_time_seconds t).

(** [cancelTransformation]; [requestFails] says whether the update
    request errors. *)
Definition cancelTransformation (now : Z) (requestFails : bool) (st : AIState)
           (transformationId : string) : bool * AIState :=
  if requestFails then (false, st)
  else
    let ts :=
      map (fun t => if String.eqb (id t) transformationId then cancelled now t else t)
          (transformations st) in
    let current :=
      match currentTransformation st with
      | Some c => if String.eqb (id c) transformationId
                  then Some (cancelled now c) else Some c
      | None => None
      end in
    let stop :=
      match current with
      | Some c => String.eqb (id c) transformationId
      | None => false
      end in
    (true, mkAIState ts current (if stop then false else polling st)).

(** *** Vocabulary of the statements, and sample data *)

(** The proxy answers every tick, with the status [s]. *)
Definition all_answer (s : string) (ticks : list (Z * StatusResponse)) : Prop :=
  Forall (fun t => success t.2 = true /\ status t.2 = Some s) ticks.

Definition started_row : AITransformation :=
  mkTransformation "t1" "processing" (Some "p1") None None (Some 100) None None.

Definition idle : AIState := mkAIState [started_row] (Some started_row) false.

End AIPolling.

(** ** src/hooks/useAudioRecorder.ts: the clock, pausing, resetting and
       the level meter *)
Module RecorderLife.
Import JS Recorder.

(** The hook with its timer: [timerRef] says whether the ref holds an
    interval, [intervals] how many intervals are alive. *)
Record Hook := mkHook {
  refs : RecorderState;
  timerRef : bool;
  intervals : nat
}.

Definition initial_hook : Hook := mkHook initial false 0.

(** [startTimer]: the ref is overwritten, whatever it held. *)
Definition startTimer (h : Hook) : Hook :=
  mkHook (refs h) true (S (intervals h)).

(** [stopTimer] *)
Definition stopTimer (h : Hook) : Hook :=
  if timerRef h then mkHook (refs h) false (pred (intervals h)) else h.

Definition with_refs (h : Hook) (r : RecorderState) : Hook :=
  mkHook r (timerRef h) (intervals h).

(** [pauseRecording] *)
Definition pauseRecording (h : Hook) : Hook :=
  let r := refs h in
  if bool_decide (is_Some (mediaRecorderRef r)) && isRecording r then
    let h1 := stopTimer h in
    with_refs h1 (mkState (mediaRecorderRef r) (chunksRef r) (streamRef r)
                          (isRecording r) true (recordingTime r))
  else h.

(** [resumeRecording] *)
Definition resumeRecording (h : Hook) : Hook :=
  let r := refs h in
  if bool_decide (is_Some (mediaRecorderRef r)) && isPaused r then
    let h1 := startTimer h in
    with_refs h1 (mkState (mediaRecorderRef r) (chunksRef r) (streamRef r)
                          (isRecording r) false (recordingTime r))
  else h.

(** [stopRecording] with its [stopTimer]: the blob, and the hook. *)
Definition stopHook (h : Hook) : option Blob * Hook :=
  match stopRecording (refs h) with
  | (None, _) => (None, h)
  | (Some blob, r) => (Some blob, with_refs (stopTimer h) r)
  end.

(** [resetRecording] *)
Definition resetRecording (h : Hook) : Hook :=
  let h1 := if isRecording (refs h) then (stopHook h).2 else h in
  let r := refs h1 in
  with_refs h1 (mkState (mediaRecorderRef r) [] (streamRef r) false false 0).

(** The callback of an interval: [recordingTime + 1]. *)
Definition second (h : Hook) : Hook :=
  let r := refs h in
  with_refs h (mkState (mediaRecorderRef r) (chunksRef r) (streamRef r)
                       (isRecording r) (isPaused r)
                       (recordingTime r + Z.of_nat (intervals h))).

(** What happens to the hook: a recording is started (permission
    granted, stream at hand), a chunk arrives, a second goes by and every
    live interval fires, or one of the controls is called. *)
Inductive Event :=
| Start (isTypeSupported : string -> bool)
| Data (data : Blob)
| Second
| Pause
| Resume
| Stop
| Reset.

Definition step (h : Hook) (e : Event) : Hook :=
  match e with
  | Start isTypeSupported =>
      startTimer (with_refs h (startRecording isTypeSupported (refs h)))
  | Data data => with_refs h (ondataavailable (refs h) data)
  | Second => second h
  | Pause => pauseRecording h
  | Resume => resumeRecording h
  | Stop => (stopHook h).2
  | Reset => resetRecording h
  end.

Definition run (events : list Event) (h : Hook) : Hook := fold_left step events h.

(** *** updateAudioLevel *)

(** [dataArray.reduce((sum, value) => sum + value, 0) / dataArray.length]:
    0 / 0 is [NaN]. *)
Definition average (dataArray : list Z) : jsnum :=
  match dataArray with
  | [] => NaN
  | _ => Fin (inject_Z (fold_left Z.add dataArray 0)
              / inject_Z (Z.of_nat (length dataArray)))
  end.

(** [Math.min(average / 128, 1)] *)
Definition normalizedLevel (dataArray : list Z) : jsnum :=
  Math_min (times (average dataArray) (1 # 128)) (Fin 1).

(** *** Vocabulary of the statements, and sample data *)

(** The clock runs: a recording is on and not paused. *)
Definition running (h : Hook) : bool :=
  isRecording (refs h) && negb (isPaused (refs h)).

(** No recording is started while one is running. *)
Fixpoint starts_guarded (h : Hook) (events : list Event) : Prop :=
  match events with
  | [] => True
  | e :: rest =>
      match e with
      | Start _ => running h = false
      | _ => True
      end
      /\ starts_guarded (step h e) rest
  end.

(** Chunks, the clock, pausing and resuming: no start, stop or reset. *)
Definition during_a_take (e : Event) : bool :=
  match e with
  | Data _ | Second | Pause | Resume => true
  | _ => false
  end.

(** The chunks of the events that are not empty. *)
Definition chunks_of (events : list Event) : list Blob :=
  flat_map (fun e => match e with
                     | Data data => if 0 <? blob_size data then [data] else []
                     | _ => []
                     end)
           events.

(** The readings of a byte array. *)
Definition bytes (dataArray : list Z) : Prop :=
  Forall (fun value => 0 <= value <= 255) dataArray.

Definition chunk (n : Z) : Blob := mkBlob [n] "audio/webm".

End RecorderLife.

(** ** src/components/studio/MultiTrackPlayer.tsx: transport *)
Module PlayerControls.
Import JS TrackStore Player.

Definition on_elements (f : Audio -> Audio) (refs : AudioRefs) : AudioRefs :=
  map (fun entry => (entry.1, f entry.2)) refs.

(** [if (audio.paused) { audio.currentTime = currentTime; audio.play() }].
    [accepted] says whether the element takes the [play()]: the browser
    can refuse it, the promise then rejects into [console.error] and the
    element stays paused, at the time it was just given. *)
Definition play_at (time : Q) (accepted : bool) (audio : Audio) : Audio :=
  if paused audio
  then mkAudio (src audio) (a_volume audio) (muted audio) (negb accepted) time
  else audio.

(** [if (!audio.paused) audio.pause()] *)
Definition pause (audio : Audio) : Audio :=
  if paused audio then audio
  else mkAudio (src audio) (a_volume audio) (muted audio) true (a_currentTime audio).

(** What the effect does to the element stored under [key]. *)
Definition sync (st : PlayerState) (accepts : string -> bool) (key : string)
           (audio : Audio) : Audio :=
  if isPlaying st then play_at (currentTime st) (accepts key) audio else pause audio.

(** The effect on [isPlaying] and [currentTime]; [accepts] says for each
    element whether it takes a [play()]. *)
Definition syncEffect (accepts : string -> bool) (st : PlayerState) : PlayerState :=
  mkPlayer
    (map (fun entry => (entry.1, sync st accepts entry.1 entry.2)) (audioRefs st))
    (masterVolume st) (currentTime st) (isPlaying st) (duration st).

Definition handlePlayPause (st : PlayerState) : PlayerState :=
  mkPlayer (audioRefs st) (masterVolume st) (currentTime st) (negb (isPlaying st))
           (duration st).

(** [audio.currentTime = newTime] *)
Definition seek_to (newTime : Q) (audio : Audio) : Audio :=
  mkAudio (src audio) (a_volume audio) (muted audio) (paused audio) newTime.

Definition handleSeek (st : PlayerState) (newTime : Q) : PlayerState :=
  mkPlayer (on_elements (seek_to newTime) (audioRefs st))
           (masterVolume st) newTime (isPlaying st) (duration st).

Definition Qmin2 (a b : Q) : Q := if Qle_bool a b then a else b.

Definition handleSkipBack (st : PlayerState) : PlayerState :=
  handleSeek st (Qmax2 0 (currentTime st - 10)).

Definition handleSkipForward (st : PlayerState) : PlayerState :=
  handleSeek st (Qmin2 (duration st) (currentTime st + 10)).

Definition handleReset (st : PlayerState) : PlayerState :=
  handleSeek (mkPlayer (audioRefs st) (masterVolume st) (currentTime st) false
                       (duration st))
             0.

(** [getProgress] *)
Definition getProgress (st : PlayerState) : Q :=
  if Qeq_bool (duration st) 0 || Qle_bool (duration st) 0 then 0
  else Qmin2 (currentTime st / duration st * 100) 100.

(** *** Vocabulary of the statements, and sample data *)

(** Two elements are the same but for where they are and whether they
    play. *)
Definition same_settings (a b : Audio) : Prop :=
  src a = src b /\ a_volume a = a_volume b /\ muted a = muted b.

(** Some track with this id has a playable session. *)
Definition playable_id (tracks : list Track) (trackSessions : gmap string TrackSession)
           (key : string) : Prop :=
  exists t, In t tracks /\ id t = key /\ playable trackSessions t = true.

End PlayerControls.

(* ===================================================================== *)
(** * Part II: properties                                                 *)
(* ===================================================================== *)

Module DurationProps.
Import JS Duration.

Lemma finite_positive_truthy d q : finite_positive d = Some q -> truthy d = true.
Proof.
  destruct d as [x| | |]; simpl; try discriminate.
  unfold Qlt_bool. destruct (Qle_bool x 0) eqn:Hle; simpl; [discriminate|].
  intros _. apply negb_true_iff. apply not_true_is_false. intros Heq.
  apply Qeq_bool_iff in Heq. apply not_true_iff_false in Hle. apply Hle.
  apply Qle_bool_iff. rewrite Heq. apply Qle_refl.
Qed.

Lemma settle_settled p r : p <> Pending -> settle p r = p.
Proof. by destruct p. Qed.

Lemma tryEstimateFromSize_pending b :
  tryEstimateFromSize b Pending
  = match size_estimate b with
    | Some e => Resolved e
    | None => Rejected "Could not determine audio duration"
    end.
Proof.
  unfold tryEstimateFromSize, size_estimate.
  by destruct (Qlt_bool 0 _ && Qlt_bool _ _).
Qed.

Lemma tryWebAudioAPI_pending b : tryWebAudioAPI b Pending = fallback b.
Proof.
  unfold tryWebAudioAPI, fallback, decoded_duration.
  destruct (decoded b) as [d|]; [destruct (finite_positive d)|];
    simpl; auto using tryEstimateFromSize_pending.
Qed.

Lemma fallback_settled b : fallback b <> Pending.
Proof.
  unfold fallback. destruct (decoded_duration b); [done|].
  by destruct (size_estimate b).
Qed.

Lemma tryWebAudioAPI_settled b p : p <> Pending -> tryWebAudioAPI b p = p.
Proof.
  intros Hp. unfold tryWebAudioAPI, tryEstimateFromSize.
  destruct (decoded b) as [d|]; [destruct (finite_positive d)|];
    try destruct (Qlt_bool 0 _ && Qlt_bool _ _); by apply settle_settled.
Qed.

(** Once the promise is settled, no event changes it. *)
Lemma step_settled b st ev :
  promise st <> Pending -> promise (step b st ev) = promise st.
Proof.
  intros Hp.
  assert (Hfall : promise (fallThrough b st) = promise st).
  { unfold fallThrough, cleanup. destruct (resolved st); simpl; [done|].
    by apply tryWebAudioAPI_settled. }
  assert (Hdur : forall d, promise (onDuration b d st) = promise st).
  { intros d. unfold onDuration, resolveWithDuration, cleanup.
    destruct (truthy d && _); [|done].
    destruct (resolved st); [done|]. simpl.
    destruct (finite_positive d); simpl;
      [by apply settle_settled | by apply tryWebAudioAPI_settled]. }
  destruct ev; simpl; try destruct (listening st); auto.
Qed.

Lemma run_settled b evs st :
  promise st <> Pending ->
  promise (fold_left (step b) evs st) = promise st.
Proof.
  revert st. induction evs as [|ev evs IH]; intros st Hp; simpl; [done|].
  rewrite IH; rewrite step_settled; auto.
Qed.

Lemma step_waiting b st ev :
  waiting st ->
  match ev with
  | LoadedMetadata d | DurationChange d | CanPlayThrough d =>
      match finite_positive d with
      | Some q => promise (step b st ev) = Resolved q
      | None => waiting (step b st ev)
      end
  | ErrorEvent | Timeout => promise (step b st ev) = fallback b
  end.
Proof.
  intros (Hr & Hl & Hp).
  assert (Hdur : forall d,
             match finite_positive d with
             | Some q => promise (onDuration b d st) = Resolved q
             | None => waiting (onDuration b d st)
             end).
  { intros d. unfold onDuration.
    destruct (finite_positive d) as [q|] eqn:Hd.
    - rewrite (finite_positive_truthy d q Hd). simpl.
      unfold resolveWithDuration. rewrite Hr. simpl. by rewrite Hd, Hp.
    - rewrite andb_false_r. by repeat split. }
  assert (Hfall : promise (fallThrough b st) = fallback b).
  { unfold fallThrough, cleanup. rewrite Hr. simpl.
    rewrite Hp. apply tryWebAudioAPI_pending. }
  destruct ev as [d|d|d| |]; simpl; rewrite ?Hl;
    first [ exact (Hdur d) | exact Hfall ].
Qed.

(** The event machine computes the ordered chain: strategy 1, else
    strategy 2, else strategy 3. *)
Lemma run_chain b evs st :
  waiting st -> In Timeout evs ->
  promise (fold_left (step b) evs st)
  = match element_duration evs with
    | Some d => Resolved d
    | None => fallback b
    end.
Proof.
  revert st. induction evs as [|ev evs IH]; intros st Hw Hin; [by destruct Hin|].
  simpl fold_left. pose proof (step_waiting b st ev Hw) as Hstep.
  destruct ev as [d|d|d| |]; simpl element_duration;
    try (destruct (finite_positive d) as [q|];
         [ rewrite run_settled; rewrite Hstep; done
         | apply IH; [done | by destruct Hin] ]);
    rewrite run_settled; rewrite Hstep; auto using fallback_settled.
Qed.

(** C1. For every blob and every course of events in which the 5 s timer
    fires, the promise is settled by the first strategy that succeeds, in
    the order element, decode, size estimate; it is rejected exactly when
    all three fail; and when the element and the decode both fail it
    resolves with [size * 8 / 128000] exactly when that lies strictly
    between 0 and 3600. *)
Theorem getAudioDuration_strategy_chain :
  forall (audioBlob : AudioBlob) (before after : list Event),
    let events := before ++ Timeout :: after in
    let result := getAudioDuration audioBlob events in
    let estimate := (inject_Z (size audioBlob * 8) / inject_Z 128000)%Q in
    result
    = match element_duration events, decoded_duration audioBlob with
      | Some d, _ => Resolved d
      | None, Some d => Resolved d
      | None, None =>
          if Qlt_bool 0 estimate && Qlt_bool estimate (inject_Z 3600)
          then Resolved estimate
          else Rejected "Could not determine audio duration"
      end
    /\ ((exists message, result = Rejected message)
        <-> element_duration events = None
            /\ decoded_duration audioBlob = None
            /\ ~ (0 < estimate /\ estimate < inject_Z 3600)%Q).
Proof.
  intros b pre post events result estimate.
  assert (Hres : result
                 = match element_duration events with
                   | Some d => Resolved d
                   | None => fallback b
                   end).
  { apply run_chain; [by repeat split|]. apply in_or_app. right. by left. }
  assert (Hrange : Qlt_bool 0 estimate && Qlt_bool estimate (inject_Z 3600) = true
                   <-> (0 < estimate /\ estimate < inject_Z 3600)%Q).
  { unfold Qlt_bool. rewrite andb_true_iff, !negb_true_iff.
    rewrite <- !not_true_iff_false, !Qle_bool_iff.
    split; intros [H1 H2]; split;
      first [ by apply Qnot_le_lt | by apply Qlt_not_le ]. }
  split.
  - rewrite Hres. destruct (element_duration events); [done|].
    unfold fallback. destruct (decoded_duration b); [done|].
    unfold size_estimate. change (estimatedDuration b) with estimate. cbv zeta.
    by destruct (Qlt_bool 0 estimate && Qlt_bool estimate (inject_Z 3600)).
  - rewrite Hres. destruct (element_duration events) as [d|].
    { split; [intros [m Hm]; discriminate | intros (H & _); discriminate]. }
    unfold fallback. destruct (decoded_duration b) as [d|].
    { split; [intros [m Hm]; discriminate | intros (_ & H & _); discriminate]. }
    unfold size_estimate. change (estimatedDuration b) with estimate. cbv zeta.
    destruct (Qlt_bool 0 estimate && Qlt_bool estimate (inject_Z 3600)) eqn:Hb.
    + split; [intros [m Hm]; discriminate|].
      intros (_ & _ & Hn). exfalso. apply Hn. by apply Hrange.
    + split; [|by eexists]. intros _. repeat split.
      intros Hr. apply Hrange in Hr. congruence.
Qed.

End DurationProps.

Module WavProps.
Import JS Wav.

(** *** Bytes and fields *)

Lemma byte_range k v : 0 <= byte k v < 256.
Proof. unfold byte. apply Z.mod_pos_bound. lia. Qed.

Lemma bytes_u16 v : byte 0 v + 256 * byte 1 v = v mod 2 ^ 16.
Proof.
  unfold byte. change (2 ^ (8 * Z.of_nat 0)) with 1.
  change (2 ^ (8 * Z.of_nat 1)) with 256. change (2 ^ 16) with 65536.
  rewrite Z.div_1_r.
  pose proof (Z.div_mod v 256 ltac:(lia)) as H0.
  pose proof (Z.div_mod (v / 256) 256 ltac:(lia)) as H1.
  pose proof (Z.mod_pos_bound v 256 ltac:(lia)).
  pose proof (Z.mod_pos_bound (v / 256) 256 ltac:(lia)).
  apply Z.mod_unique_pos with (q := v / 256 / 256); lia.
Qed.

Lemma bytes_u32 v :
  byte 0 v + 256 * (byte 1 v + 256 * (byte 2 v + 256 * byte 3 v)) = v mod 2 ^ 32.
Proof.
  unfold byte. change (2 ^ (8 * Z.of_nat 0)) with 1.
  change (2 ^ (8 * Z.of_nat 1)) with 256.
  change (2 ^ (8 * Z.of_nat 2)) with (256 * 256).
  change (2 ^ (8 * Z.of_nat 3)) with (256 * (256 * 256)).
  change (2 ^ 32) with 4294967296.
  rewrite Z.div_1_r, <- !Z.div_div by lia.
  set (a := v / 256). set (b := a / 256). set (c := b / 256).
  pose proof (Z.div_mod v 256 ltac:(lia)) as H0. fold a in H0.
  pose proof (Z.div_mod a 256 ltac:(lia)) as H1. fold b in H1.
  pose proof (Z.div_mod b 256 ltac:(lia)) as H2. fold c in H2.
  pose proof (Z.div_mod c 256 ltac:(lia)) as H3.
  pose proof (Z.mod_pos_bound v 256 ltac:(lia)).
  pose proof (Z.mod_pos_bound a 256 ltac:(lia)).
  pose proof (Z.mod_pos_bound b 256 ltac:(lia)).
  pose proof (Z.mod_pos_bound c 256 ltac:(lia)).
  apply Z.mod_unique_pos with (q := c / 256); lia.
Qed.

(** *** The header *)

Lemma writeHeader_zeroed rest bufferSize channels rate byteRate blockAlign dataSize :
  writeHeader (replicate 44 0 ++ rest)
              bufferSize channels rate byteRate blockAlign dataSize
  = Some (header_bytes bufferSize channels rate byteRate blockAlign dataSize ++ rest).
Proof. reflexivity. Qed.

(** *** The sample loops *)

Lemma setUint16_at_end pre a b post v :
  setUint16 (pre ++ a :: b :: post) (length pre) v
  = Some (pre ++ byte 0 v :: byte 1 v :: post).
Proof.
  unfold setUint16.
  assert (Hfit : (length pre + 2 <=? length (pre ++ a :: b :: post))%nat = true).
  { apply Nat.leb_le. rewrite length_app. simpl. lia. }
  rewrite Hfit. f_equal.
  rewrite <- (Nat.add_0_r (length pre)) at 2.
  rewrite insert_app_r. simpl. by rewrite insert_app_r.
Qed.

Lemma writeSamples buffer i channels :
  forall pre mid post,
    length mid = (2 * length channels)%nat ->
    for_each channels (writeSample buffer i) (pre ++ mid ++ post, length pre)
    = Some (pre ++ flat_map (fun channel => sample_bytes (getChannelData buffer channel i))
                            channels ++ post,
            (length pre + 2 * length channels)%nat).
Proof.
  induction channels as [|ch channels IH]; intros pre mid post Hmid.
  - destruct mid; [|discriminate]. simpl. by rewrite Nat.add_0_r.
  - destruct mid as [|a [|b mid]]; try (simpl in Hmid; lia).
    simpl for_each. unfold writeSample at 1, setInt16.
    change ((a :: b :: mid) ++ post) with (a :: b :: mid ++ post).
    rewrite setUint16_at_end. cbn [mbind option_bind].
    replace (pre ++ _ :: _ :: mid ++ post)
      with ((pre ++ sample_bytes (getChannelData buffer ch i)) ++ mid ++ post)
      by (by rewrite <- app_assoc).
    replace (length pre + 2)%nat
      with (length (pre ++ sample_bytes (getChannelData buffer ch i)))
      by (rewrite length_app; reflexivity).
    rewrite IH by (simpl in Hmid; lia).
    f_equal. f_equal.
    + simpl flat_map. by rewrite <- !app_assoc.
    + rewrite length_app. simpl. lia.
Qed.

Lemma frame_bytes_length buffer i :
  length (frame_bytes buffer i) = (2 * numberOfChannels buffer)%nat.
Proof.
  unfold frame_bytes.
  assert (H : forall c a,
             length (flat_map (fun channel => sample_bytes (getChannelData buffer channel i))
                              (seq a c)) = (2 * c)%nat).
  { induction c as [|c IH]; intros a; simpl; [done|]. rewrite IH. lia. }
  apply H.
Qed.

Lemma writeFrame_at_end buffer i pre mid post :
  length mid = (2 * numberOfChannels buffer)%nat ->
  writeFrame buffer i (pre ++ mid ++ post, length pre)
  = Some (pre ++ frame_bytes buffer i ++ post,
          (length pre + 2 * numberOfChannels buffer)%nat).
Proof.
  intros Hmid. unfold writeFrame.
  rewrite writeSamples by (by rewrite length_seq).
  by rewrite length_seq.
Qed.

Lemma writeFrames buffer frames :
  forall pre mid post,
    length mid = (length frames * (2 * numberOfChannels buffer))%nat ->
    for_each frames (writeFrame buffer) (pre ++ mid ++ post, length pre)
    = Some (pre ++ flat_map (frame_bytes buffer) frames ++ post,
            (length pre + length frames * (2 * numberOfChannels buffer))%nat).
Proof.
  set (k := (2 * numberOfChannels buffer)%nat).
  induction frames as [|i frames IH]; intros pre mid post Hmid.
  - destruct mid; [|discriminate]. simpl. by rewrite Nat.add_0_r.
  - simpl for_each.
    rewrite <- (take_drop k mid), <- app_assoc.
    assert (Htake : length (take k mid) = k).
    { rewrite length_take. simpl in Hmid. lia. }
    rewrite writeFrame_at_end by exact Htake.
    cbn [mbind option_bind]. fold k.
    replace (length pre + k)%nat with (length (pre ++ frame_bytes buffer i))
      by (rewrite length_app, frame_bytes_length; reflexivity).
    rewrite (app_assoc pre (frame_bytes buffer i)).
    rewrite IH by (rewrite length_drop; simpl in Hmid; lia).
    f_equal. f_equal.
    + simpl flat_map. by rewrite <- !app_assoc.
    + rewrite length_app, frame_bytes_length. fold k. simpl. lia.
Qed.

(** The encoder never raises, and its output is the header followed by
    the interleaved samples. *)
Lemma audioBufferToWav_bytes buffer :
  let c := numberOfChannels buffer in
  let n := buffer_length buffer in
  let s := sampleRate buffer in
  audioBufferToWav buffer
  = Some (mkBlob
            (header_bytes (Z.of_nat (44 + n * (c * 2))) (Z.of_nat c) s
                          (s * Z.of_nat (c * 2)) (Z.of_nat (c * 2))
                          (Z.of_nat (n * (c * 2)))
             ++ data_bytes buffer)
            "audio/wav").
Proof.
  intros c n s. unfold audioBufferToWav. fold c n s.
  cbv zeta. rewrite replicate_add, writeHeader_zeroed. cbn [mbind option_bind].
  set (hdr := header_bytes _ _ _ _ _ _).
  rewrite <- (app_nil_r (replicate (n * (c * 2)) 0)).
  change 44%nat with (length hdr).
  rewrite writeFrames
    by (rewrite length_replicate, length_seq; unfold c; lia).
  simpl. by rewrite app_nil_r.
Qed.

(** *** Reading the output back *)

Lemma lookup_flat_map_uniform {A} (f : nat -> list A) (k : nat) :
  (forall j, length (f j) = k) ->
  forall n a j r,
    (j < n)%nat -> (r < k)%nat ->
    flat_map f (seq a n) !! (j * k + r)%nat = f (a + j)%nat !! r.
Proof.
  intros Hk. induction n as [|n IH]; intros a j r Hj Hr; [lia|].
  simpl. destruct j as [|j].
  - rewrite Nat.add_0_r. simpl. apply lookup_app_l. by rewrite Hk.
  - rewrite lookup_app_r by (rewrite Hk; simpl; lia).
    rewrite Hk. replace (S j * k + r - k)%nat with (j * k + r)%nat by (simpl; lia).
    rewrite IH by lia. f_equal. f_equal. lia.
Qed.

Lemma sample_bytes_length x : length (sample_bytes x) = 2%nat.
Proof. reflexivity. Qed.

(** Byte [r] of sample ([i], [channel]) sits at [2 * (i * c + channel) + r]
    of the data chunk. *)
Lemma data_bytes_lookup buffer i channel r :
  (i < buffer_length buffer)%nat ->
  (channel < numberOfChannels buffer)%nat ->
  (r < 2)%nat ->
  data_bytes buffer !! (2 * (i * numberOfChannels buffer + channel) + r)%nat
  = sample_bytes (getChannelData buffer channel i) !! r.
Proof.
  intros Hi Hch Hr. unfold data_bytes.
  replace (2 * (i * numberOfChannels buffer + channel) + r)%nat
    with (i * (2 * numberOfChannels buffer) + (channel * 2 + r))%nat by lia.
  rewrite (lookup_flat_map_uniform (frame_bytes buffer) (2 * numberOfChannels buffer))
    by (auto using frame_bytes_length || lia).
  unfold frame_bytes.
  by rewrite (lookup_flat_map_uniform _ 2) by (auto using sample_bytes_length || lia).
Qed.

Lemma int16_decode v :
  -32768 <= v < 32768 ->
  (let u := byte 0 v + 256 * byte 1 v in
   if u <? 32768 then u else u - 65536) = v.
Proof.
  intros Hv. cbv zeta. rewrite bytes_u16. change (2 ^ 16) with 65536.
  destruct (Z.ltb_spec (v mod 65536) 32768) as [Hlt|Hge].
  - destruct (Z.le_gt_cases 0 v) as [Hpos|Hneg].
    + apply Z.mod_small. lia.
    + exfalso. assert (v mod 65536 = v + 65536); [|lia].
      symmetry. apply Z.mod_unique_pos with (q := -1); lia.
  - destruct (Z.le_gt_cases 0 v) as [Hpos|Hneg].
    + rewrite Z.mod_small in Hge by lia. lia.
    + assert (v mod 65536 = v + 65536); [|lia].
      symmetry. apply Z.mod_unique_pos with (q := -1); lia.
Qed.

(** *** Clamping and quantisation *)

(** The clamp, for a sample that is a number: [-1] below the range, [1]
    above it, the sample itself inside. *)
Lemma clamp_number x :
  x <> NaN ->
  exists q, clamp x = Fin q /\ (-1 <= q <= 1)%Q
            /\ match x with
               | Fin v => ((-1 <= v <= 1)%Q -> q == v)
                          /\ ((v < -1)%Q -> q == -1) /\ ((1 < v)%Q -> q == 1)
               | PosInf => q == 1
               | NegInf => q == -1
               | NaN => False
               end.
Proof.
  intros Hx. destruct x as [v| | |]; [| | |done].
  - unfold clamp, Math_min, Math_max.
    destruct (Qle_bool 1 v) eqn:H1.
    + apply Qle_bool_iff in H1. exists 1%Q. simpl. repeat split; try lra.
    + assert (v < 1)%Q.
      { apply Qnot_le_lt. intros H. apply Qle_bool_iff in H. congruence. }
      destruct (Qle_bool (-1) v) eqn:H2.
      * apply Qle_bool_iff in H2. exists v. repeat split; try lra.
      * assert (v < -1)%Q.
        { apply Qnot_le_lt. intros H'. apply Qle_bool_iff in H'. congruence. }
        exists (-1)%Q. repeat split; try lra.
  - exists 1%Q. repeat split; try lra.
  - exists (-1)%Q. repeat split; try lra.
Qed.

Lemma clamp_NaN : clamp NaN = NaN.
Proof. reflexivity. Qed.

Lemma pcm16_Fin x q :
  clamp x = Fin q -> pcm16 x = Qfloor (q * 32767 + (1 # 2)).
Proof.
  intros Hq. unfold pcm16, intSample. rewrite Hq. simpl.
  unfold maxValue. destruct (Qle_bool 0 _); [apply Qfloor_Z | apply Qceiling_Z].
Qed.

(** The quantised sample always fits sixteen bits, with room to spare. *)
Lemma pcm16_range x : -32767 <= pcm16 x <= 32767.
Proof.
  assert (Hcase : x = NaN \/ x <> NaN) by (destruct x; auto; by right).
  destruct Hcase as [->|Hx]; [by compute|].
  destruct (clamp_number x Hx) as (q & Hq & [Hlo Hhi] & _).
  rewrite (pcm16_Fin x q Hq). split.
  - change (-32767) with (Qfloor (-1 * 32767 + (1 # 2))).
    apply Qfloor_resp_le. lra.
  - change 32767 with (Qfloor (1 * 32767 + (1 # 2))) at 2.
    apply Qfloor_resp_le. lra.
Qed.

(** The clamp is the identity on [-1, 1] and sticks to the nearer end
    outside; [NaN] goes through it. *)
Lemma clamp_cases x :
  match x with
  | Fin v => exists q, clamp x = Fin q
                       /\ ((-1 <= v <= 1)%Q -> q == v)
                       /\ ((v < -1)%Q -> q == -1)
                       /\ ((1 < v)%Q -> q == 1)
  | PosInf => clamp x = Fin 1
  | NegInf => clamp x = Fin (-1)
  | NaN => clamp x = NaN
  end.
Proof.
  destruct x as [v| | |]; try reflexivity.
  destruct (clamp_number (Fin v)) as (q & Hq & _ & Hin & Hlow & Hhigh); [done|].
  exists q. by repeat split.
Qed.

(** The integer that is stored, read off the sample. *)
Lemma pcm16_value x :
  pcm16 x
  = match x with
    | Fin v => if Qlt_bool v (-1) then -32767
               else if Qlt_bool 1 v then 32767
                    else Qfloor (v * 32767 + (1 # 2))
    | PosInf => 32767
    | NegInf => -32767
    | NaN => 0
    end.
Proof.
  destruct x as [v| | |]; try reflexivity.
  destruct (clamp_number (Fin v)) as (q & Hq & _ & Hin & Hlow & Hhigh); [done|].
  rewrite (pcm16_Fin _ _ Hq). unfold Qlt_bool.
  destruct (Qle_bool (-1) v) eqn:H1; cbn [negb].
  - apply Qle_bool_iff in H1. destruct (Qle_bool v 1) eqn:H2; cbn [negb].
    + apply Qle_bool_iff in H2. apply Qfloor_comp. rewrite Hin; [reflexivity|by split].
    + assert (Hv : (1 < v)%Q).
      { apply Qnot_le_lt. intros H. apply Qle_bool_iff in H. congruence. }
      assert (Heq : (q * 32767 + (1 # 2) == 1 * 32767 + (1 # 2))%Q)
        by (rewrite (Hhigh Hv); reflexivity).
      by rewrite (Qfloor_comp _ _ Heq).
  - assert (Hv : (v < -1)%Q).
    { apply Qnot_le_lt. intros H. apply Qle_bool_iff in H. congruence. }
    assert (Heq : (q * 32767 + (1 # 2) == -1 * 32767 + (1 # 2))%Q)
      by (rewrite (Hlow Hv); reflexivity).
    by rewrite (Qfloor_comp _ _ Heq).
Qed.

(** *** The container *)

Lemma header_fields bufferSize channels rate byteRate blockAlign dataSize rest :
  let bytes := header_bytes bufferSize channels rate byteRate blockAlign dataSize
               ++ rest in
  getUint32 bytes 28 = Some (byteRate mod 2 ^ 32)
  /\ getUint16 bytes 32 = Some (blockAlign mod 2 ^ 16)
  /\ getUint32 bytes 40 = Some (dataSize mod 2 ^ 32).
Proof.
  cbv zeta. unfold getUint32, getUint16, header_bytes. simpl.
  by rewrite !bytes_u32, bytes_u16.
Qed.

(** Header fields as stored, for any buffer: the 32- and 16-bit fields
    hold their values modulo the field width. *)
Lemma audioBufferToWav_header buffer bytes :
  audioBufferToWav buffer = Some (mkBlob bytes "audio/wav") ->
  let s := sampleRate buffer in
  let c := Z.of_nat (numberOfChannels buffer) in
  let n := Z.of_nat (buffer_length buffer) in
  getUint32 bytes 28 = Some ((s * c * 2) mod 2 ^ 32)
  /\ getUint16 bytes 32 = Some ((c * 2) mod 2 ^ 16)
  /\ getUint32 bytes 40 = Some ((n * c * 2) mod 2 ^ 32).
Proof.
  rewrite audioBufferToWav_bytes. cbv zeta.
  set (hdr := header_bytes _ _ _ _ _ _). intros Hsome.
  assert (Hb : bytes = hdr ++ data_bytes buffer) by congruence.
  subst bytes hdr. clear Hsome.
  destruct (header_fields
              (Z.of_nat (44 + buffer_length buffer * (numberOfChannels buffer * 2)))
              (Z.of_nat (numberOfChannels buffer)) (sampleRate buffer)
              (sampleRate buffer * Z.of_nat (numberOfChannels buffer * 2))
              (Z.of_nat (numberOfChannels buffer * 2))
              (Z.of_nat (buffer_length buffer * (numberOfChannels buffer * 2)))
              (data_bytes buffer)) as (H28 & H32 & H40).
  rewrite H28, H32, H40. repeat split; do 2 f_equal; lia.
Qed.

(** C2. For a buffer with sample rate [s], [c] channels and [n] frames
    whose sizes fit the container's fields, the encoder returns a blob of
    [44 + n*c*2] bytes; its header stores byte rate [s*c*2] at offset 28,
    block align [c*2] at offset 32 and data size [n*c*2] at offset 40; and
    sample [i] of channel [ch] is stored at [44 + 2*(i*c + ch)] as the
    little-endian 16-bit integer [Math.round(clamp(x) * 32767)].  The
    clamp leaves a sample inside [-1, 1] as it is and puts one outside on
    the nearer end, so what is stored is [Math.round(x * 32767)] inside
    the range, 32767 above it and -32767 below it; a [NaN] sample passes
    the clamp and is stored as 0. *)
Theorem audioBufferToWav_layout (buffer : AudioBuffer) :
  let s := sampleRate buffer in
  let c := Z.of_nat (numberOfChannels buffer) in
  let n := Z.of_nat (buffer_length buffer) in
  0 <= s -> s * c * 2 < 2 ^ 32 -> c * 2 < 2 ^ 16 -> n * c * 2 < 2 ^ 32 ->
  exists bytes,
    audioBufferToWav buffer = Some (mkBlob bytes "audio/wav")
    /\ Z.of_nat (length bytes) = 44 + n * c * 2
    /\ getUint32 bytes 28 = Some (s * c * 2)
    /\ getUint16 bytes 32 = Some (c * 2)
    /\ getUint32 bytes 40 = Some (n * c * 2)
    /\ forall i channel,
        (i < buffer_length buffer)%nat ->
        (channel < numberOfChannels buffer)%nat ->
        let x := getChannelData buffer channel i in
        getInt16 bytes (44 + 2 * (i * numberOfChannels buffer + channel))
        = Some (ToInteger (Math_round (times (clamp x) maxValue)))
        /\ -32768 < ToInteger (Math_round (times (clamp x) maxValue)) < 32768
        /\ (x <> NaN -> exists q, clamp x = Fin q /\ (-1 <= q <= 1)%Q)
        /\ match x with
           | Fin v => exists q, clamp x = Fin q
                                /\ ((-1 <= v <= 1)%Q -> q == v)
                                /\ ((v < -1)%Q -> q == -1)
                                /\ ((1 < v)%Q -> q == 1)
           | PosInf => clamp x = Fin 1
           | NegInf => clamp x = Fin (-1)
           | NaN => clamp x = NaN
           end
        /\ getInt16 bytes (44 + 2 * (i * numberOfChannels buffer + channel))
           = Some match x with
                  | Fin v => if Qlt_bool v (-1) then -32767
                             else if Qlt_bool 1 v then 32767
                                  else Qfloor (v * 32767 + (1 # 2))
                  | PosInf => 32767
                  | NegInf => -32767
                  | NaN => 0
                  end.
Proof.
  intros s c n Hs Hrate Halign Hdata.
  pose proof (audioBufferToWav_bytes buffer) as Hbytes. cbv zeta in Hbytes.
  set (hdr := header_bytes _ _ _ _ _ _) in Hbytes.
  exists (hdr ++ data_bytes buffer). split; [exact Hbytes|].
  destruct (audioBufferToWav_header buffer _ Hbytes) as (H28 & H32 & H40).
  fold s c n in H28, H32, H40.
  assert (Hlen : length (data_bytes buffer)
                 = (buffer_length buffer * (2 * numberOfChannels buffer))%nat).
  { unfold data_bytes.
    assert (H : forall m a, length (flat_map (frame_bytes buffer) (seq a m))
                            = (m * (2 * numberOfChannels buffer))%nat).
    { induction m as [|m IH]; intros a; simpl; [done|].
      by rewrite length_app, frame_bytes_length, IH. }
    apply H. }
  split; [|split; [|split; [|split]]].
  - rewrite length_app, Hlen. change (length hdr) with 44%nat. unfold n, c. lia.
  - rewrite H28. f_equal. apply Z.mod_small. unfold c in *. lia.
  - rewrite H32. f_equal. apply Z.mod_small. unfold c in *. lia.
  - rewrite H40. f_equal. apply Z.mod_small. unfold n, c in *. lia.
  - intros i channel Hi Hch x.
    fold (intSample x). fold (pcm16 x).
    pose proof (pcm16_range x) as Hrange.
    assert (Hstored :
              getInt16 (hdr ++ data_bytes buffer)
                       (44 + 2 * (i * numberOfChannels buffer + channel))
              = Some (pcm16 x)).
    { unfold getInt16, getUint16.
      change 44%nat with (length hdr).
      rewrite !lookup_app_r by lia.
      replace (length hdr + 2 * (i * numberOfChannels buffer + channel) - length hdr)%nat
        with (2 * (i * numberOfChannels buffer + channel) + 0)%nat by lia.
      replace (length hdr + 2 * (i * numberOfChannels buffer + channel) + 1 - length hdr)%nat
        with (2 * (i * numberOfChannels buffer + channel) + 1)%nat by lia.
      rewrite !data_bytes_lookup by (auto || lia).
      cbn [sample_bytes lookup list_lookup mbind option_bind]. fold x.
      f_equal. apply int16_decode. lia. }
    split; [exact Hstored|]. split; [lia|]. split; [|split].
    + intros Hx. destruct (clamp_number x Hx) as (q & Hq & Hr & _). eauto.
    + apply clamp_cases.
    + rewrite Hstored. f_equal. apply pcm16_value.
Qed.

Lemma audioBufferToWav_layout_witness :
  exists bytes,
    audioBufferToWav sample_buffer = Some (mkBlob bytes "audio/wav")
    /\ Z.of_nat (length bytes) = 56
    /\ getUint32 bytes 28 = Some 176400
    /\ getUint16 bytes 32 = Some 4
    /\ getUint32 bytes 40 = Some 12
    /\ getInt16 bytes 44 = Some 16384
    /\ getInt16 bytes 48 = Some (-32767)
    /\ getInt16 bytes 52 = Some 32767
    /\ getInt16 bytes 46 = Some 0.
Proof.
  destruct (audioBufferToWav_layout sample_buffer)
    as (bytes & H & Hl & H1 & H2 & H3 & Hsamples);
    simpl; try lia.
  exists bytes.
  split; [exact H|]. split; [exact Hl|]. split; [exact H1|].
  split; [exact H2|]. split; [exact H3|].
  split; [|split; [|split]].
  - destruct (Hsamples 0%nat 0%nat) as (_ & _ & _ & _ & Hv); [simpl; lia|simpl; lia|].
    exact Hv.
  - destruct (Hsamples 1%nat 0%nat) as (_ & _ & _ & _ & Hv); [simpl; lia|simpl; lia|].
    exact Hv.
  - destruct (Hsamples 2%nat 0%nat) as (_ & _ & _ & _ & Hv); [simpl; lia|simpl; lia|].
    exact Hv.
  - destruct (Hsamples 0%nat 1%nat) as (_ & _ & _ & _ & Hv); [simpl; lia|simpl; lia|].
    exact Hv.
Defined.

End WavProps.

Module EffectsProps.
Import JS Effects.

Lemma includes_In l s : includes l s = true <-> In s l.
Proof.
  unfold includes. rewrite existsb_exists. split.
  - intros (x & Hin & Heq). apply String.eqb_eq in Heq. by subst.
  - intros Hin. exists s. split; [done|]. apply String.eqb_refl.
Qed.

Lemma toggleEffect_activates prev effectName :
  includes prev effectName = false ->
  toggleEffect prev effectName = prev ++ [effectName].
Proof. intros H. unfold toggleEffect. by rewrite H. Qed.

Lemma toggleEffect_deactivates prev effectName :
  includes prev effectName = true ->
  toggleEffect prev effectName
  = List.filter (fun name => negb (String.eqb name effectName)) prev.
Proof. intros H. unfold toggleEffect. by rewrite H. Qed.

(** Activating effects one after the other lists them in that order. *)
Lemma activation_sequence effects :
  forall prev,
    List.NoDup (prev ++ effects) ->
    fold_left toggleEffect effects prev = prev ++ effects.
Proof.
  induction effects as [|e effects IH]; intros prev Hnd; simpl.
  - by rewrite app_nil_r.
  - rewrite toggleEffect_activates.
    + rewrite IH; rewrite <- app_assoc; [done|exact Hnd].
    + apply not_true_is_false. rewrite includes_In. intros Hin.
      apply List.NoDup_remove_2 in Hnd. apply Hnd.
      apply in_or_app. by left.
Qed.

(** Each iteration chains exactly one topology after the current node, or
    none for a name the [switch] does not know. *)
Lemma applyEffect_chain sampleRate parameters st effectType :
  effectChain (currentNode (applyEffect sampleRate parameters st effectType))
  = effectChain (currentNode st)
    ++ (if includes effectNames effectType then [effectType] else []).
Proof.
  unfold applyEffect, includes, effectNames. cbn [existsb].
  destruct (String.eqb effectType "equalizer") eqn:H1;
    [apply String.eqb_eq in H1; by subst|].
  destruct (String.eqb effectType "compressor") eqn:H2;
    [apply String.eqb_eq in H2; by subst|].
  destruct (String.eqb effectType "reverb") eqn:H3;
    [apply String.eqb_eq in H3; by subst|].
  destruct (String.eqb effectType "delay") eqn:H4;
    [apply String.eqb_eq in H4; by subst|].
  destruct (String.eqb effectType "chorus") eqn:H5;
    [apply String.eqb_eq in H5; by subst|].
  simpl. by rewrite app_nil_r.
Qed.

Lemma fold_applyEffect_chain sampleRate parameters activeEffects :
  forall st,
    effectChain
      (currentNode (fold_left (applyEffect sampleRate parameters) activeEffects st))
    = effectChain (currentNode st) ++ List.filter (includes effectNames) activeEffects.
Proof.
  induction activeEffects as [|e rest IH]; intros st;
    cbn [fold_left List.filter].
  - by rewrite app_nil_r.
  - rewrite IH, applyEffect_chain, <- app_assoc.
    by destruct (includes effectNames e).
Qed.

Lemma render_equalizer_then_compressor {Signal} (P : Platform Signal)
      sampleRate parameters source :
  render P source (buildGraph sampleRate parameters ["equalizer"; "compressor"])
  = compressorStage P parameters (equalizerStage P parameters source).
Proof. reflexivity. Qed.

Lemma render_compressor_then_equalizer {Signal} (P : Platform Signal)
      sampleRate parameters source :
  render P source (buildGraph sampleRate parameters ["compressor"; "equalizer"])
  = equalizerStage P parameters (compressorStage P parameters source).
Proof. reflexivity. Qed.

(** The order of the chain, which is the part of the effects claim (C3)
    that the code decides. [toggleEffect] appends a newly activated
    effect, so activating effects one by one lists them in activation
    order; the graph chains one topology per listed effect in list
    order; the graphs for [equalizer, compressor] and
    [compressor, equalizer] differ for every parameter setting, and on
    every platform the first renders as the compressor applied to the
    equalised signal and the second as the equaliser applied to the
    compressed one. Whether those two signals differ is decided by the
    platform's filter and compressor, which are not code of the
    repository. *)
Theorem effects_chained_in_activation_order :
  (forall prev effectName,
      includes prev effectName = false ->
      toggleEffect prev effectName = prev ++ [effectName])
  /\ (forall effects,
         List.NoDup effects -> fold_left toggleEffect effects [] = effects)
  /\ (forall sampleRate parameters activeEffects,
         effectChain (buildGraph sampleRate parameters activeEffects)
         = List.filter (includes effectNames) activeEffects)
  /\ (forall sampleRate parameters,
         buildGraph sampleRate parameters ["equalizer"; "compressor"]
         <> buildGraph sampleRate parameters ["compressor"; "equalizer"])
  /\ (forall (Signal : Type) (P : Platform Signal) sampleRate parameters source,
         processAudioWithEffects P sampleRate (Some source) parameters
                                 ["equalizer"; "compressor"]
         = Some (compressorStage P parameters (equalizerStage P parameters source))
         /\ processAudioWithEffects P sampleRate (Some source) parameters
                                    ["compressor"; "equalizer"]
            = Some (equalizerStage P parameters (compressorStage P parameters source))).
Proof.
  split; [exact toggleEffect_activates|].
  split; [intros effects Hnd; by apply (activation_sequence effects [])|].
  split; [intros sr p l; unfold buildGraph; by rewrite fold_applyEffect_chain|].
  split; [intros sr p; discriminate|].
  by intros Signal P sr p src.
Qed.

Lemma effects_chained_in_activation_order_witness :
  toggleEffect ["equalizer"] "compressor" = ["equalizer"; "compressor"]
  /\ fold_left toggleEffect ["compressor"; "equalizer"] [] = ["compressor"; "equalizer"].
Proof.
  destruct effects_chained_in_activation_order as (Htoggle & Hseq & _).
  split.
  - apply (Htoggle ["equalizer"] "compressor"). reflexivity.
  - apply (Hseq ["compressor"; "equalizer"]).
    repeat constructor; simpl; intuition discriminate.
Defined.

End EffectsProps.

Module TrackStoreProps.
Import JS TrackStore.

(** *** [Math.max(0, ...)] *)

Lemma fold_Zmax values :
  forall a,
    let m := fold_left Z.max values a in
    a <= m /\ (forall x, In x values -> x <= m) /\ (m = a \/ In m values).
Proof.
  induction values as [|v values IH]; intros a; simpl.
  - split; [lia|]. split; [by intros x []|by left].
  - destruct (IH (Z.max a v)) as (Hge & Hall & Hmem).
    split; [lia|]. split.
    + intros x [<-|Hx]; [lia|by apply Hall].
    + destruct Hmem as [Hm|Hm]; [|by right; right].
      rewrite Hm. destruct (Z.max_spec a v) as [[_ ->]|[_ ->]];
        [right; by left|by left].
Qed.

(** *** createTrack *)

Lemma createTrack_at_limit userId events events' url url' answer flag
      w projectId trackName blob description :
  (10 <= length (existingTracks w projectId))%nat ->
  createTrack (Some userId) events events' url url' answer flag
              w projectId trackName blob description
  = Returned (None,
              mkWorld (mkState (tracks (state w)) (currentTrack (state w))
                               (trackSessions (state w)) false
                               (Some "Maximum of 10 tracks per project allowed"))
                      (table w)).
Proof.
  intros Hlimit. unfold createTrack. cbn [with_status tracks].
  fold (existingTracks w projectId).
  apply Nat.leb_le in Hlimit. by rewrite Hlimit.
Qed.

Lemma createTrack_created userId events events' url url' answer flag
      w projectId trackName blob description track w' :
  createTrack (Some userId) events events' url url' answer flag
              w projectId trackName blob description
  = Returned (Some track, w') ->
  (length (existingTracks w projectId) < 10)%nat
  /\ track_order track = next_order w projectId
  /\ project_id track = projectId
  /\ tracks (state w') = tracks (state w) ++ [track]
  /\ exists row, table w' = table w ++ [row] /\ id row = id track
                 /\ track_order row = next_order w projectId.
Proof.
  unfold createTrack. cbn [with_status tracks].
  fold (existingTracks w projectId).
  destruct (10 <=? length (existingTracks w projectId))%nat eqn:Hlimit; [done|].
  apply Nat.leb_gt in Hlimit.
  destruct (Duration.getAudioDuration blob events) as [|d|m]; try done.
  unfold db_insert. destruct answer as [newId|message]; [|done].
  destruct (check_track_limit _ _); [done|].
  unfold createTrackSession.
  destruct (Duration.getAudioDuration blob events') as [|d'|m'];
    [done| |]; intros [= <- <-]; cbn;
    (split; [lia|]); repeat split; eauto.
Qed.

(** C6, for a signed-in user. With 10 or more tracks of the project in the
    store the call returns null, sets the limit error and inserts nothing,
    neither in the store nor in the table; below the limit a track that is
    created gets order [Math.max(0, ...existing orders) + 1], which is 1
    for the first track and one past the greatest existing order otherwise,
    and it is created whenever the duration resolves and the insert is
    accepted. *)
Theorem createTrack_limit_and_order
        (userId : string) (events events' : list Duration.Event)
        (audioUrl audioUrl' : string) (answer : InsertAnswer) (errorIsError : bool)
        (w : World) (projectId trackName : string) (audioBlob : Duration.AudioBlob)
        (description : option string) :
  let result := createTrack (Some userId) events events' audioUrl audioUrl' answer
                            errorIsError w projectId trackName audioBlob description in
  let existing := existingTracks w projectId in
  ((10 <= length existing)%nat ->
   exists w', result = Returned (None, w')
              /\ error (state w') = Some "Maximum of 10 tracks per project allowed"
              /\ tracks (state w') = tracks (state w)
              /\ table w' = table w)
  /\ ((length existing < 10)%nat ->
      (forall track w',
          result = Returned (Some track, w') ->
          track_order track = Math_max0 (map track_order existing) + 1
          /\ tracks (state w') = tracks (state w) ++ [track])
      /\ (forall newId seconds,
             answer = Accepted newId ->
             Duration.getAudioDuration audioBlob events = Duration.Resolved seconds ->
             Duration.getAudioDuration audioBlob events' <> Duration.Pending ->
             check_track_limit (table w)
               (mkTrack "" projectId userId trackName (default "" description) None
                        seconds 44100 1 0 false false
                        (Math_max0 (map track_order existing) + 1)) = false ->
             exists track w', result = Returned (Some track, w')
                              /\ id track = newId)
      /\ (existing = [] -> Math_max0 (map track_order existing) = 0)
      /\ (forall t, In t existing ->
                    track_order t <= Math_max0 (map track_order existing))
      /\ (Math_max0 (map track_order existing) = 0
          \/ exists t, In t existing
                       /\ Math_max0 (map track_order existing) = track_order t)).
Proof.
  intros result existing. split.
  - intros Hlimit. subst result.
    rewrite createTrack_at_limit by exact Hlimit. eexists. by repeat split.
  - intros Hbelow.
    destruct (fold_Zmax (map track_order existing) 0) as (H0 & Hall & Hmem).
    cbv zeta in H0, Hall, Hmem. fold (Math_max0 (map track_order existing)) in *.
    split; [|split; [|split; [|split]]].
    + intros track w' Hret. subst result.
      apply createTrack_created in Hret as (_ & Ho & _ & Ht & _). by split.
    + intros newId seconds -> Hd Hd' Hcheck. subst result.
      unfold createTrack. cbn [with_status tracks].
      fold (existingTracks w projectId). fold existing.
      apply Nat.leb_gt in Hbelow. rewrite Hbelow, Hd.
      unfold db_insert. rewrite Hcheck. unfold createTrackSession.
      destruct (Duration.getAudioDuration audioBlob events') as [|d'|m'];
        [done| |]; eexists _, _; by split.
    + by intros ->.
    + intros t Hin. apply Hall. by apply in_map.
    + destruct Hmem as [Hm|Hm]; [by left|right].
      apply in_map_iff in Hm as (t & Ht & Hin). eauto.
Qed.

Lemma createTrack_limit_and_order_witness :
  (exists w',
      createTrack (Some "user") metadata_then_timer metadata_then_timer
                  "blob:1" "blob:2" (Accepted "t11") false
                  full_world "project" "take" a_blob None
      = Returned (None, w')
      /\ error (state w') = Some "Maximum of 10 tracks per project allowed"
      /\ tracks (state w') = tracks (state full_world)
      /\ table w' = table full_world)
  /\ (exists track w',
         createTrack (Some "user") metadata_then_timer metadata_then_timer
                     "blob:1" "blob:2" (Accepted "t3") false
                     small_world "project" "take" a_blob None
         = Returned (Some track, w')
         /\ track_order track = 3
         /\ tracks (state w') = tracks (state small_world) ++ [track]).
Proof.
  split.
  - apply (createTrack_limit_and_order
             "user" metadata_then_timer metadata_then_timer "blob:1" "blob:2"
             (Accepted "t11") false full_world "project" "take" a_blob None).
    simpl. lia.
  - destruct (createTrack_limit_and_order
                "user" metadata_then_timer metadata_then_timer "blob:1" "blob:2"
                (Accepted "t3") false small_world "project" "take" a_blob None)
      as (_ & Hbelow).
    destruct Hbelow as (Horder & Hcreated & _); [simpl; lia|].
    destruct (Hcreated "t3" 2%Q) as (track & w' & Hret & _);
      [reflexivity|reflexivity|discriminate|reflexivity|].
    exists track, w'. split; [exact Hret|].
    destruct (Horder track w' Hret) as [Ho Ht]. split; [exact Ho|exact Ht].
Defined.

(** Without a signed-in user the call returns null before the limit is
    looked at: ten tracks in the store, and no limit error. *)
Lemma createTrack_signed_out_no_limit_error :
  (10 <= length (existingTracks full_world "project"))%nat
  /\ createTrack None metadata_then_timer metadata_then_timer
                 "blob:1" "blob:2" (Accepted "t11") false
                 full_world "project" "take" a_blob None
     = Returned (None, full_world)
  /\ error (state full_world) = None.
Proof. split; [simpl; lia|]. by split. Qed.

(** *** updateTrack and soloTrack *)

Lemma find_has_id key rows row :
  List.find (has_id key) rows = Some row -> id row = key.
Proof.
  intros H. apply List.find_some in H as [_ H]. by apply String.eqb_eq in H.
Qed.

Lemma find_map_keeping_id (g : Track -> Track) key rows :
  (forall r, id (g r) = id r) ->
  List.find (has_id key) (map g rows) = g <$> List.find (has_id key) rows.
Proof.
  intros Hg. induction rows as [|r rows IH]; simpl; [done|].
  unfold has_id at 1. rewrite Hg. fold (has_id key r).
  by destruct (has_id key r).
Qed.

Lemma updateTrack_succeeds w key u row :
  List.find (has_id key) (table w) = Some row ->
  updateTrack false w key u = (true, updated w key u row).
Proof.
  intros Hfind. unfold updateTrack, db_update.
  change (fun r : Track => String.eqb (id r) key) with (has_id key).
  by rewrite Hfind.
Qed.

Lemma updateTrack_fails w key u :
  (updateTrack true w key u).2
  = mkWorld (mkState (tracks (state w)) (currentTrack (state w))
                     (trackSessions (state w)) false
                     (Some "Failed to update track"))
            (table w).
Proof. reflexivity. Qed.

Lemma updated_ids w key u row :
  id row = key ->
  map id (tracks (state (updated w key u row))) = map id (tracks (state w)).
Proof.
  intros Hrow. cbn [updated state tracks]. rewrite map_map. apply map_ext_in.
  intros t _. destruct (String.eqb (id t) key) eqn:Hk; [|done].
  apply String.eqb_eq in Hk. simpl. congruence.
Qed.

Lemma updated_persisted w key u row :
  id row = key -> persisted w -> persisted (updated w key u row).
Proof.
  intros Hrow Hp t Hin.
  assert (Hid : In (id t) (map id (tracks (state w)))).
  { rewrite <- (updated_ids w key u row Hrow). by apply in_map. }
  apply in_map_iff in Hid as (t0 & Hid & Hin0).
  destruct (Hp t0 Hin0) as [r Hr]. rewrite Hid in Hr.
  cbn [updated table]. rewrite find_map_keeping_id.
  - rewrite Hr. eauto.
  - intros r'. by destruct (String.eqb (id r') key).
Qed.

Lemma soloStep_succeeds trackId w outcomes track :
  persisted w ->
  In (id track) (map id (tracks (state w))) ->
  all_go_through outcomes ->
  let next := soloStep trackId (w, outcomes) track in
  persisted next.1
  /\ all_go_through next.2
  /\ map id (tracks (state next.1)) = map id (tracks (state w))
  /\ (forall t, In t (tracks (state next.1)) ->
                (id t = id track -> solo_settled trackId t)
                /\ (id t <> id track -> In t (tracks (state w)))).
Proof.
  intros Hp Hin Hout next.
  apply in_map_iff in Hin as (t0 & Hid & Hin0).
  destruct (Hp t0 Hin0) as [row Hrow]. rewrite Hid in Hrow.
  pose proof (find_has_id _ _ _ Hrow) as Hrowid.
  assert (Hfirst : default false (head outcomes) = false).
  { destruct outcomes as [|b rest]; [done|]. simpl. apply Hout. by left. }
  subst next. unfold soloStep. rewrite Hfirst.
  set (u := if String.eqb (id track) trackId then _ else _).
  rewrite (updateTrack_succeeds w (id track) u row Hrow). cbn [fst snd].
  split; [by apply updated_persisted|].
  split; [intros b Hb; apply Hout; destruct outcomes; [done|by right]|].
  split; [by apply updated_ids|].
  intros t Ht. cbn [updated state tracks] in Ht.
  apply in_map_iff in Ht as (t1 & Ht1 & Hin1).
  destruct (String.eqb (id t1) (id track)) eqn:Hk.
  - subst t. split; [|simpl; congruence].
    intros _. unfold solo_settled. simpl. rewrite Hrowid. subst u.
    destruct (String.eqb (id track) trackId) eqn:Hchosen; simpl; [done|].
    split; [done|]. intros Heq. apply String.eqb_neq in Hchosen. done.
  - subst t. apply String.eqb_neq in Hk. split; [done|]. by intros _.
Qed.

Lemma soloTrack_loop trackId snapshot :
  forall w outcomes settled,
    persisted w ->
    (forall x, In x snapshot -> In (id x) (map id (tracks (state w)))) ->
    all_go_through outcomes ->
    (forall t, In t (tracks (state w)) -> In (id t) settled -> solo_settled trackId t) ->
    let w' := (fold_left (soloStep trackId) snapshot (w, outcomes)).1 in
    map id (tracks (state w')) = map id (tracks (state w))
    /\ (forall t, In t (tracks (state w')) ->
                  In (id t) (settled ++ map id snapshot) -> solo_settled trackId t).
Proof.
  induction snapshot as [|x snapshot IH]; intros w outcomes settled Hp Hids Hout Hinv.
  - simpl. split; [done|]. intros t Ht Hin. rewrite app_nil_r in Hin. auto.
  - cbn [fold_left].
    destruct (soloStep_succeeds trackId w outcomes x Hp)
      as (Hp1 & Hout1 & Hids1 & Hstep); [apply Hids; by left|exact Hout|].
    destruct (soloStep trackId (w, outcomes) x) as [w1 outcomes1] eqn:Hs.
    cbn [fst snd] in Hp1, Hout1, Hids1, Hstep.
    destruct (IH w1 outcomes1 (settled ++ [id x])) as [Hids' Hinv'].
    + exact Hp1.
    + intros y Hy. rewrite Hids1. apply Hids. by right.
    + exact Hout1.
    + intros t Ht Hin. destruct (Hstep t Ht) as [Hsame Hother].
      destruct (String.eqb (id t) (id x)) eqn:Hk.
      * apply String.eqb_eq in Hk. auto.
      * apply String.eqb_neq in Hk. apply Hinv; [auto|].
        apply in_app_or in Hin as [Hin|[Hin|[]]]; [done|congruence].
    + split; [congruence|]. intros t Ht Hin. apply Hinv'; [done|].
      cbn [map] in Hin. rewrite <- app_assoc. exact Hin.
Qed.

Lemma others_untouched_map trackId (f : Track -> Track) (ts : list Track) :
  Forall2 (fun t t' => id t <> trackId -> t' = t) ts
          (map (fun t => if String.eqb (id t) trackId then f t else t) ts).
Proof.
  induction ts as [|t ts IH]; simpl; constructor; [|exact IH].
  intros Hne. apply String.eqb_neq in Hne. by rewrite Hne.
Qed.

Lemma others_untouched_same trackId (ts : list Track) :
  Forall2 (fun t t' => id t <> trackId -> t' = t) ts ts.
Proof. induction ts; constructor; auto. Qed.

Lemma unsolo_others_untouched b w trackId :
  Forall2 (fun t t' => id t <> trackId -> t' = t)
          (tracks (state w))
          (tracks (state (soloTrack [b] w trackId false))).
Proof.
  unfold soloTrack. cbn [head default].
  destruct b.
  - rewrite updateTrack_fails. apply others_untouched_same.
  - unfold updateTrack, db_update.
    destruct (List.find _ (table w)) as [row|]; cbn [snd state tracks].
    + apply others_untouched_map.
    + apply others_untouched_same.
Qed.

(** C9, when every request goes through. After [soloTrack(trackId, true)]
    on a store whose tracks are all persisted, a track is solo exactly when
    it is the chosen one, and the chosen one is not muted.
    [soloTrack(trackId, false)] leaves every other track as it was, whether
    or not the request goes through, and clears the solo flag of the chosen
    track when it does. *)
Theorem soloTrack_exclusive (w : World) (trackId : string) :
  (forall outcomes,
      persisted w ->
      all_go_through outcomes ->
      let w' := soloTrack outcomes w trackId true in
      map id (tracks (state w')) = map id (tracks (state w))
      /\ forall t, In t (tracks (state w')) ->
                   is_solo t = String.eqb (id t) trackId
                   /\ (id t = trackId -> is_muted t = false))
  /\ (forall requestFails,
         let w' := soloTrack [requestFails] w trackId false in
         Forall2 (fun t t' => id t <> trackId -> t' = t)
                 (tracks (state w)) (tracks (state w'))
         /\ (requestFails = false -> persisted w ->
             forall t, In t (tracks (state w')) -> id t = trackId ->
                       is_solo t = false)).
Proof.
  split.
  - intros outcomes Hp Hout w'. subst w'. unfold soloTrack.
    destruct (soloTrack_loop trackId (tracks (state w)) w outcomes [])
      as [Hids Hinv]; try done.
    + intros x Hx. by apply in_map.
    + split; [exact Hids|]. intros t Ht. apply Hinv; [exact Ht|].
      simpl. rewrite <- Hids. by apply in_map.
  - intros b w'. subst w'. split; [apply unsolo_others_untouched|].
    intros -> Hp t Ht Hid. unfold soloTrack in Ht. cbn [head default] in Ht.
    assert (Hin : In trackId (map id (tracks (state w)))).
    { unfold updateTrack, db_update in Ht.
      destruct (List.find _ (table w)) as [row|];
        cbn [snd state tracks] in Ht.
      - apply in_map_iff in Ht as (t1 & Ht1 & Hin1).
        destruct (String.eqb (id t1) trackId) eqn:Hk.
        + apply String.eqb_eq in Hk. rewrite <- Hk. by apply in_map.
        + subst t1. rewrite <- Hid. by apply in_map.
      - rewrite <- Hid. by apply in_map. }
    apply in_map_iff in Hin as (t0 & Hid0 & Hin0).
    destruct (Hp t0 Hin0) as [row Hrow]. rewrite Hid0 in Hrow.
    rewrite (updateTrack_succeeds w trackId _ row Hrow) in Ht.
    cbn [snd updated state tracks] in Ht.
    apply in_map_iff in Ht as (t1 & Ht1 & Hin1).
    destruct (String.eqb (id t1) trackId) eqn:Hk.
    + by subst t.
    + subst t1. apply String.eqb_neq in Hk. done.
Qed.

Lemma soloTrack_exclusive_witness :
  let w' := soloTrack [] solo_world "B" true in
  (forall t, In t (tracks (state w')) ->
             is_solo t = String.eqb (id t) "B"
             /\ (id t = "B" -> is_muted t = false))
  /\ (forall t, In t (tracks (state (soloTrack [false] solo_world "A" false))) ->
                id t = "A" -> is_solo t = false).
Proof.
  destruct (soloTrack_exclusive solo_world "B") as [Hon _].
  destruct (soloTrack_exclusive solo_world "A") as [_ Hoff].
  split.
  - apply (Hon []); [|by intros b []].
    intros t [<-|[<-|[]]]; eexists; reflexivity.
  - destruct (Hoff false) as [_ H]. apply H; [reflexivity|].
    intros t [<-|[<-|[]]]; eexists; reflexivity.
Defined.

(** When the request that should clear A's solo flag fails, soloing B
    leaves two solo tracks in the store. *)
Lemma soloTrack_failed_request_leaves_two_solo :
  let w' := soloTrack [true; false] solo_world "B" true in
  map (fun t => (id t, is_solo t)) (tracks (state w')) = [("A", true); ("B", true)].
Proof. reflexivity. Qed.

End TrackStoreProps.

Module PlayerProps.
Import JS TrackStore Player.

(** *** The element map *)

Lemma refs_get_set_eq refs key audio :
  refs_get (refs_set refs key audio) key = Some audio.
Proof.
  induction refs as [|[k a] refs IH]; simpl.
  - by rewrite String.eqb_refl.
  - destruct (String.eqb k key) eqn:Hk; simpl; by rewrite Hk.
Qed.

Lemma refs_get_set_ne refs key key' audio :
  key <> key' ->
  refs_get (refs_set refs key audio) key' = refs_get refs key'.
Proof.
  intros Hne. induction refs as [|[k a] refs IH]; simpl.
  - apply String.eqb_neq in Hne. by rewrite Hne.
  - destruct (String.eqb k key) eqn:Hk; simpl.
    + apply String.eqb_eq in Hk. subst k.
      apply String.eqb_neq in Hne. by rewrite Hne.
    + by rewrite IH.
Qed.

Lemma refs_get_filter (keep : string -> bool) refs key :
  keep key = true ->
  refs_get (List.filter (fun entry => keep entry.1) refs) key = refs_get refs key.
Proof.
  intros Hkeep. induction refs as [|[k a] refs IH]; simpl; [done|].
  destruct (String.eqb k key) eqn:Hk.
  - apply String.eqb_eq in Hk. subst k. rewrite Hkeep. simpl.
    by rewrite String.eqb_refl.
  - destruct (keep k); simpl; by rewrite ?Hk.
Qed.

(** *** The track-settings effect *)

Lemma setUpTrack_other tracks sessions masterVolume refs track key :
  id track <> key ->
  refs_get (setUpTrack tracks sessions masterVolume refs track) key
  = refs_get refs key.
Proof.
  intros Hne. unfold setUpTrack.
  destruct (sessions !! id track) as [session|]; [|done].
  destruct (audioUrl session) as [url|]; [|done].
  destruct (String.eqb url ""); [done|].
  by apply refs_get_set_ne.
Qed.

Lemma setUpTrack_self tracks sessions masterVolume refs track session url :
  sessions !! id track = Some session ->
  audioUrl session = Some url ->
  url <> "" ->
  exists audio,
    refs_get (setUpTrack tracks sessions masterVolume refs track) (id track)
    = Some audio
    /\ settings_of tracks masterVolume track audio.
Proof.
  intros Hs Hu Hne. unfold setUpTrack. rewrite Hs, Hu.
  apply String.eqb_neq in Hne. rewrite Hne.
  rewrite refs_get_set_eq. eexists. split; [reflexivity|]. by split.
Qed.

Lemma setUp_others all sessions masterVolume rest :
  forall refs key,
    ~ In key (map id rest) ->
    refs_get (fold_left (setUpTrack all sessions masterVolume) rest refs) key
    = refs_get refs key.
Proof.
  induction rest as [|t rest IH]; intros refs key Hnin; simpl; [done|].
  rewrite IH by (intros H; apply Hnin; by right).
  apply setUpTrack_other. intros H. apply Hnin. by left.
Qed.

(** After the effect, the element of a track that has a playable session
    carries that track's settings. *)
Lemma trackSettingsEffect_element tracks sessions st track session url :
  In track tracks ->
  List.NoDup (map id tracks) ->
  sessions !! id track = Some session ->
  audioUrl session = Some url ->
  url <> "" ->
  exists audio,
    refs_get (audioRefs (trackSettingsEffect tracks sessions st)) (id track)
    = Some audio
    /\ settings_of tracks (masterVolume st) track audio.
Proof.
  intros Hin Hnd Hs Hu Hne. unfold trackSettingsEffect. cbn [audioRefs].
  rewrite (refs_get_filter
             (fun key => existsb (fun t => String.eqb (id t) key) tracks)).
  2:{ apply existsb_exists. exists track. split; [done|]. apply String.eqb_refl. }
  destruct (in_split _ _ Hin) as (before & after & Heq).
  set (f := setUpTrack tracks sessions (masterVolume st)).
  replace (fold_left f tracks (audioRefs st))
    with (fold_left f (before ++ track :: after) (audioRefs st))
    by (clearbody f; by rewrite <- Heq).
  rewrite fold_left_app. cbn [fold_left]. subst f.
  rewrite setUp_others.
  - by eapply setUpTrack_self.
  - rewrite Heq, map_app in Hnd. cbn [map] in Hnd.
    by apply List.NoDup_remove_2 in Hnd; intros H; apply Hnd, in_or_app; right.
Qed.

Lemma some_solo_iff tracks :
  existsb is_solo tracks = false <-> (forall t, In t tracks -> is_solo t = false).
Proof.
  split.
  - intros H t Hin. destruct (is_solo t) eqn:Ht; [|done].
    assert (existsb is_solo tracks = true); [|congruence].
    apply existsb_exists. eauto.
  - intros H. apply not_true_is_false. intros Hex.
    apply existsb_exists in Hex as (t & Hin & Ht). rewrite (H t Hin) in Ht. done.
Qed.

(** C4. For every track with a playable session, the effect leaves its
    element with volume [volume * masterVolume * (is_muted ? 0 : 1)] and
    with [muted] set to [is_muted || (some track is solo && !is_solo)];
    the element is audible exactly when the track is not muted and either
    no track is solo or the track is. *)
Theorem track_settings_applied
        (tracks : list Track) (trackSessions : gmap string TrackSession)
        (st : PlayerState) (track : Track) (session : TrackSession) (url : string) :
  In track tracks ->
  List.NoDup (map id tracks) ->
  trackSessions !! id track = Some session ->
  audioUrl session = Some url ->
  url <> "" ->
  exists audio,
    refs_get (audioRefs (trackSettingsEffect tracks trackSessions st)) (id track)
    = Some audio
    /\ a_volume audio
       = (volume track * masterVolume st * (if is_muted track then 0 else 1))%Q
    /\ muted audio
       = (is_muted track || (existsb is_solo tracks && negb (is_solo track)))
    /\ (audible audio = true
        <-> is_muted track = false
            /\ ((forall t, In t tracks -> is_solo t = false) \/ is_solo track = true)).
Proof.
  intros Hin Hnd Hs Hu Hne.
  destruct (trackSettingsEffect_element tracks trackSessions st track session url)
    as (audio & Hget & Hvol & Hmuted); try done.
  exists audio. split; [exact Hget|]. split; [exact Hvol|]. split; [exact Hmuted|].
  unfold audible. rewrite Hmuted, negb_true_iff, orb_false_iff, andb_false_iff.
  rewrite some_solo_iff, negb_false_iff. reflexivity.
Qed.

Lemma track_settings_applied_witness :
  let tracks := [ example_track "A" 3 false true;
                  example_track "B" 5 false false;
                  example_track "C" 2 true false ] in
  exists audio,
    refs_get (audioRefs (trackSettingsEffect tracks example_sessions example_player)) "B"
    = Some audio
    /\ a_volume audio = ((4 # 5) * 1 * 1)%Q
    /\ muted audio = true.
Proof.
  intros tracks.
  destruct (track_settings_applied tracks example_sessions example_player
              (example_track "B" 5 false false)
              (mkSession "B" (Some "blob:b") false 0 5) "blob:b")
    as (audio & Hget & Hvol & Hmuted & _).
  - simpl. auto.
  - repeat constructor; simpl; intuition discriminate.
  - reflexivity.
  - reflexivity.
  - discriminate.
  - exists audio. split; [exact Hget|]. split; [exact Hvol|exact Hmuted].
Defined.

(** *** The master duration and the end of playback *)

Lemma Qmax2_ge a b : (a <= Qmax2 a b /\ b <= Qmax2 a b)%Q.
Proof.
  unfold Qmax2. destruct (Qle_bool a b) eqn:H.
  - apply Qle_bool_iff in H. split; [exact H | apply Qle_refl].
  - split; [apply Qle_refl|]. apply Qlt_le_weak, Qnot_le_lt.
    intros Hle. apply Qle_bool_iff in Hle. congruence.
Qed.

Lemma fold_Qmax2 values :
  forall a,
    let m := fold_left Qmax2 values a in
    (a <= m)%Q
    /\ (forall x, In x values -> (x <= m)%Q)
    /\ (m = a \/ In m values).
Proof.
  induction values as [|v values IH]; intros a; simpl.
  - split; [apply Qle_refl|]. split; [by intros x []|by left].
  - destruct (IH (Qmax2 a v)) as (Hge & Hall & Hmem).
    destruct (Qmax2_ge a v) as [Ha Hv].
    split; [by eapply Qle_trans|]. split.
    + intros x [<-|Hx]; [by eapply Qle_trans|by apply Hall].
    + destruct Hmem as [Hm|Hm]; [|by right; right].
      rewrite Hm. unfold Qmax2. destruct (Qle_bool a v); [right; by left|by left].
Qed.

Lemma refs_get_rewound refs key :
  refs_get (map (fun entry => (entry.1, rewind entry.2)) refs) key
  = rewind <$> refs_get refs key.
Proof.
  induction refs as [|[k a] refs IH]; simpl; [done|].
  by destruct (String.eqb k key).
Qed.

(** C5. The master duration is the greatest of 0 and the tracks'
    [duration_seconds]: 0 without tracks, never below a track's duration,
    and either 0 or the duration of some track.  When a run of [updateTime]
    finds the playing element at or past the master duration, the playing
    flag and the playhead are reset and every element is paused at time 0. *)
Theorem master_duration_and_rewind :
  (forall tracks st,
      let D := duration (durationEffect tracks st) in
      (tracks = [] -> D = 0%Q)
      /\ (0 <= D)%Q
      /\ (forall t, In t tracks -> (duration_seconds t <= D)%Q)
      /\ (D = 0%Q \/ exists t, In t tracks /\ D = duration_seconds t))
  /\ (forall st playingAudio,
         isPlaying st = true ->
         List.find (fun audio => negb (paused audio)) (values (audioRefs st))
         = Some playingAudio ->
         (duration st <= a_currentTime playingAudio)%Q ->
         let st' := updateTime st in
         isPlaying st' = false
         /\ currentTime st' = 0%Q
         /\ map fst (audioRefs st') = map fst (audioRefs st)
         /\ forall key audio,
             refs_get (audioRefs st') key = Some audio ->
             paused audio = true /\ a_currentTime audio = 0%Q).
Proof.
  split.
  - intros tracks st D. subst D. unfold durationEffect, Math_max0. cbn [duration].
    destruct (fold_Qmax2 (map duration_seconds tracks) 0%Q) as (H0 & Hall & Hmem).
    cbv zeta in H0, Hall, Hmem.
    split; [by intros ->|]. split; [exact H0|]. split.
    + intros t Hin. apply Hall. by apply in_map.
    + destruct Hmem as [Hm|Hm]; [by left|right].
      apply in_map_iff in Hm as (t & Ht & Hin). eauto.
  - intros st playing Hplay Hfind Hend st'. subst st'. unfold updateTime.
    rewrite Hplay, Hfind. apply Qle_bool_iff in Hend. rewrite Hend.
    cbn [isPlaying currentTime audioRefs].
    split; [done|]. split; [done|]. split.
    + rewrite map_map. by apply map_ext.
    + intros key audio. rewrite refs_get_rewound.
      destruct (refs_get (audioRefs st) key); [|done].
      by intros [= <-].
Qed.

Lemma master_duration_and_rewind_witness :
  duration (durationEffect [ example_track "A" 3 false false;
                             example_track "B" 5 false false;
                             example_track "C" 2 false false ] example_player)
  = 5%Q
  /\ isPlaying (updateTime example_playing) = false
  /\ currentTime (updateTime example_playing) = 0%Q
  /\ (forall key audio,
         refs_get (audioRefs (updateTime example_playing)) key = Some audio ->
         paused audio = true /\ a_currentTime audio = 0%Q).
Proof.
  destruct master_duration_and_rewind as [_ Hrewind].
  split; [reflexivity|].
  destruct (Hrewind example_playing (mkAudio "blob:b" 1 false false 5))
    as (Hp & Ht & _ & Hall).
  - reflexivity.
  - reflexivity.
  - apply Qle_refl.
  - split; [exact Hp|]. split; [exact Ht|exact Hall].
Defined.

(** *** Solo and mute together *)

Lemma playable_element tracks sessions st track :
  In track tracks ->
  List.NoDup (map id tracks) ->
  playable sessions track = true ->
  exists audio,
    refs_get (audioRefs (trackSettingsEffect tracks sessions st)) (id track)
    = Some audio
    /\ settings_of tracks (masterVolume st) track audio.
Proof.
  intros Hin Hnd Hp. unfold playable in Hp.
  destruct (sessions !! id track) as [session|] eqn:Hs; [|done].
  destruct (audioUrl session) as [url|] eqn:Hu; [|done].
  apply negb_true_iff, String.eqb_neq in Hp.
  by eapply trackSettingsEffect_element.
Qed.

(** C8, as the player has it. With A solo and B, C not solo, B and C are
    silent whatever their mute flags, and A is audible exactly when A is not
    muted: the solo flag does not override the track's own mute flag. *)
Theorem solo_silences_others_but_keeps_own_mute
        (A B C : Track) (trackSessions : gmap string TrackSession) (st : PlayerState) :
  List.NoDup [id A; id B; id C] ->
  is_solo A = true -> is_solo B = false -> is_solo C = false ->
  playable trackSessions A = true ->
  playable trackSessions B = true ->
  playable trackSessions C = true ->
  let refs := audioRefs (trackSettingsEffect [A; B; C] trackSessions st) in
  exists a b c,
    refs_get refs (id A) = Some a
    /\ refs_get refs (id B) = Some b
    /\ refs_get refs (id C) = Some c
    /\ audible a = negb (is_muted A)
    /\ audible b = false
    /\ audible c = false.
Proof.
  intros Hnd HA HB HC HpA HpB HpC refs. subst refs.
  destruct (playable_element [A; B; C] trackSessions st A)
    as (a & Ha & _ & Hma); [simpl; auto|exact Hnd|exact HpA|].
  destruct (playable_element [A; B; C] trackSessions st B)
    as (b & Hb & _ & Hmb); [simpl; auto|exact Hnd|exact HpB|].
  destruct (playable_element [A; B; C] trackSessions st C)
    as (c & Hc & _ & Hmc); [simpl; auto|exact Hnd|exact HpC|].
  exists a, b, c. unfold audible.
  rewrite Ha, Hb, Hc, Hma, Hmb, Hmc. cbn [existsb]. rewrite HA, HB, HC.
  repeat split; simpl; by rewrite ?orb_true_r, ?orb_false_r.
Qed.

Lemma solo_silences_others_but_keeps_own_mute_witness :
  let refs := audioRefs (trackSettingsEffect solo_example example_sessions
                                             example_player) in
  exists a b c,
    refs_get refs "A" = Some a /\ refs_get refs "B" = Some b
    /\ refs_get refs "C" = Some c
    /\ audible a = false /\ audible b = false /\ audible c = false.
Proof.
  apply (solo_silences_others_but_keeps_own_mute
           (example_track "A" 3 true true) (example_track "B" 5 false false)
           (example_track "C" 2 false false) example_sessions example_player);
    try reflexivity.
  repeat constructor; simpl; intuition discriminate.
Defined.

(** A soloed track that is also muted is not audible: its element is
    muted and its volume is 0.  Being solo does not make a track audible
    regardless of its own mute flag. *)
Lemma soloed_muted_track_is_silent :
  let A := example_track "A" 3 true true in
  let refs := audioRefs (trackSettingsEffect solo_example example_sessions
                                             example_player) in
  is_solo A = true /\ is_muted A = true
  /\ In A solo_example
  /\ (audible <$> refs_get refs "A") = Some false
  /\ (a_volume <$> refs_get refs "A") = Some ((4 # 5) * 1 * 0)%Q.
Proof. repeat split; simpl; auto. Qed.

(** The same through the store: solo A, then mute A. Both flags are then
    set on A, and the player leaves A silent. *)
Lemma solo_then_mute_silences_the_soloed_track :
  let w := muteTrack false (soloTrack [] studio_world "A" true) "A" true in
  let refs := audioRefs (trackSettingsEffect (tracks (state w)) example_sessions
                                             example_player) in
  map (fun t => (id t, is_solo t, is_muted t)) (tracks (state w))
  = [("A", true, true); ("B", false, false); ("C", false, false)]
  /\ (audible <$> refs_get refs "A") = Some false
  /\ (audible <$> refs_get refs "B") = Some false
  /\ (audible <$> refs_get refs "C") = Some false.
Proof. repeat split. Qed.

End PlayerProps.

Module RecorderProps.
Import JS Recorder.

Lemma ondataavailable_keeps_recorder st data :
  mediaRecorderRef (ondataavailable st data) = mediaRecorderRef st.
Proof. unfold ondataavailable. by destruct (0 <? blob_size data). Qed.

Lemma chunks_keep_recorder evs st :
  mediaRecorderRef (fold_left ondataavailable evs st) = mediaRecorderRef st.
Proof.
  revert st. induction evs as [|e evs IH]; intros st; simpl; [done|].
  by rewrite IH, ondataavailable_keeps_recorder.
Qed.

(** C10. Whatever container [startRecording] committed to, and whatever
    chunks arrived, [stopRecording] resolves with a blob typed
    ['audio/webm']; on a platform that records MP4 the recorder's type and
    the blob's type differ. *)
Theorem stopRecording_blob_type_fixed :
  (forall (isTypeSupported : string -> bool) (st0 : RecorderState) (evs : list Blob),
      let st := fold_left ondataavailable evs (startRecording isTypeSupported st0) in
      mimeType <$> mediaRecorderRef st
        = Some (selectMimeType isTypeSupported supportedTypes)
      /\ exists blob, (stopRecording st).1 = Some blob
                      /\ blob_type blob = "audio/webm"
                      /\ blob_data blob = concat (map blob_data (chunksRef st)))
  /\ selectMimeType mp4_only supportedTypes = "audio/mp4"
  /\ (exists blob,
         (stopRecording (startRecording mp4_only initial)).1 = Some blob
         /\ blob_type blob <> selectMimeType mp4_only supportedTypes).
Proof.
  split; [|split].
  - intros sup st0 evs st. subst st.
    split.
    + by rewrite chunks_keep_recorder.
    + unfold stopRecording. rewrite chunks_keep_recorder. simpl.
      eexists. split; [reflexivity|]. by split.
  - reflexivity.
  - eexists. split; [reflexivity|]. simpl. discriminate.
Qed.

End RecorderProps.

Module AIStoreProps.
Import AIStore.

(** Whatever the proxy answers, other than ['succeeded'], is what the
    update carries as its status. *)
Lemma build_updates_status now row response s :
  status response = Some s ->
  u_status (build_updates now row response)
  = Some (if String.eqb s "succeeded" then "completed" else s).
Proof.
  intros Hs. unfold build_updates, status_is. rewrite Hs.
  destruct (String.eqb s "succeeded") eqn:Hok;
    destruct (String.eqb s "processing" && _);
    by destruct (String.eqb s "failed").
Qed.

(** The only statuses the table accepts after translation are the persisted
    words themselves and ['succeeded']. *)
Lemma db_update_accepts row now response s updated :
  status response = Some s ->
  db_update row (build_updates now row response) = Some updated ->
  s = "succeeded" \/ includes persisted_statuses s = true.
Proof.
  intros Hs. unfold db_update, apply_updates. cbn [t_status].
  rewrite (build_updates_status now row response s Hs). cbn [default].
  destruct (String.eqb s "succeeded") eqn:Hok.
  - intros _. apply String.eqb_eq in Hok. by left.
  - unfold Datatypes.id. destruct (includes persisted_statuses s); [by right|done].
Qed.

(** C7, the code at the two inference words that have no persisted
    spelling. For ['starting'] and ['canceled'] the update that is submitted
    carries the inference word itself, which is outside the persisted
    vocabulary, so the row and the store stay as they were; only
    ['succeeded'] is translated. *)
Theorem checkTransformationStatus_passes_status_verbatim :
  (forall now row,
      u_status (build_updates now row (answer "starting")) = Some "starting")
  /\ (forall now row,
         u_status (build_updates now row (answer "canceled")) = Some "canceled")
  /\ (forall now row,
         u_status (build_updates now row (answer "succeeded")) = Some "completed")
  /\ includes persisted_statuses "starting" = false
  /\ includes persisted_statuses "canceled" = false
  /\ (forall now st,
         checkTransformationStatus now st "t1" (Some pending_row) (answer "starting")
         = (Some (mkUpdates (Some "starting") None None None None None), st))
  /\ (forall now st,
         checkTransformationStatus now st "t1" (Some pending_row) (answer "canceled")
         = (Some (mkUpdates (Some "canceled") None None None None None), st)).
Proof.
  repeat split.
Qed.

End AIStoreProps.

Module ResolverProps.
Import JS Duration ProjectStore.

(** *** What the resolver resolves with *)

Lemma finite_positive_pos x q : finite_positive x = Some q -> (0 < q)%Q.
Proof.
  destruct x as [v| | |]; simpl; try discriminate.
  unfold Qlt_bool. destruct (Qle_bool v 0) eqn:Hle; simpl; [discriminate|].
  intros [= <-]. apply Qnot_le_lt. intros H. apply Qle_bool_iff in H. congruence.
Qed.

Lemma settle_positive p d :
  positive_if_resolved p -> (0 < d)%Q -> positive_if_resolved (settle p (Resolved d)).
Proof. intros Hp Hd. destruct p; simpl; auto. by intros d' [= <-]. Qed.

Lemma settle_rejected_positive p m :
  positive_if_resolved p -> positive_if_resolved (settle p (Rejected m)).
Proof. intros Hp. destruct p; simpl; auto. by intros d'. Qed.

Lemma tryEstimateFromSize_positive b p :
  positive_if_resolved p -> positive_if_resolved (tryEstimateFromSize b p).
Proof.
  intros Hp. unfold tryEstimateFromSize.
  destruct (Qlt_bool 0 _ && Qlt_bool _ _) eqn:Hr.
  - apply settle_positive; [done|].
    apply andb_true_iff in Hr as [H0 _]. unfold Qlt_bool in H0.
    apply negb_true_iff in H0. apply Qnot_le_lt. intros H.
    apply Qle_bool_iff in H. congruence.
  - by apply settle_rejected_positive.
Qed.

Lemma tryWebAudioAPI_positive b p :
  positive_if_resolved p -> positive_if_resolved (tryWebAudioAPI b p).
Proof.
  intros Hp. unfold tryWebAudioAPI.
  destruct (decoded b) as [x|]; [|by apply tryEstimateFromSize_positive].
  destruct (finite_positive x) as [q|] eqn:Hq;
    [|by apply tryEstimateFromSize_positive].
  apply settle_positive; [done|]. by eapply finite_positive_pos.
Qed.

Lemma step_positive b st ev :
  positive_if_resolved (promise st) -> positive_if_resolved (promise (step b st ev)).
Proof.
  intros Hp.
  assert (Hfall : positive_if_resolved (promise (fallThrough b st))).
  { unfold fallThrough, cleanup. destruct (resolved st); simpl; [done|].
    by apply tryWebAudioAPI_positive. }
  assert (Hdur : forall x, positive_if_resolved (promise (onDuration b x st))).
  { intros x. unfold onDuration, resolveWithDuration, cleanup.
    destruct (truthy x && _); [|done]. destruct (resolved st); [done|]. simpl.
    destruct (finite_positive x) as [q|] eqn:Hq; simpl.
    - apply settle_positive; [done|]. by eapply finite_positive_pos.
    - by apply tryWebAudioAPI_positive. }
  destruct ev; simpl; try destruct (listening st); auto.
Qed.

Lemma run_positive audioBlob evs :
  forall st,
    positive_if_resolved (promise st) ->
    positive_if_resolved (promise (fold_left (step audioBlob) evs st)).
Proof.
  induction evs as [|ev evs IH]; intros st Hp; simpl; [done|].
  apply IH. by apply step_positive.
Qed.

(** X1. Whatever the element, the timer and the decoder do, a duration the
    resolver resolves with is positive; it never hands out 0, a negative
    number, NaN or Infinity. *)
Theorem getAudioDuration_resolves_positive
        (audioBlob : AudioBlob) (events : list Event) (seconds : Q) :
  getAudioDuration audioBlob events = Resolved seconds -> (0 < seconds)%Q.
Proof.
  unfold getAudioDuration.
  intros Hres. apply (run_positive audioBlob events initial); [|exact Hres].
  by intros d.
Qed.

Lemma getAudioDuration_resolves_positive_witness :
  getAudioDuration short_blob error_then_timer = Resolved 2 /\ (0 < 2)%Q.
Proof.
  split; [reflexivity|].
  apply (getAudioDuration_resolves_positive short_blob error_then_timer 2).
  reflexivity.
Defined.

(** X2. Once the promise is settled, nothing that happens later changes what
    it settled with: a late event, a second run of the decoder started by
    the timer, or a late error. *)
Theorem getAudioDuration_settles_once
        (audioBlob : AudioBlob) (before after : list Event) :
  getAudioDuration audioBlob before <> Pending ->
  getAudioDuration audioBlob (before ++ after) = getAudioDuration audioBlob before.
Proof.
  unfold getAudioDuration. intros Hsettled. rewrite fold_left_app.
  by apply DurationProps.run_settled.
Qed.

Lemma getAudioDuration_settles_once_witness :
  getAudioDuration short_blob
                   ([LoadedMetadata (Fin 5)] ++ [ErrorEvent; Timeout; DurationChange (Fin 7)])
  = Resolved 5.
Proof.
  rewrite (getAudioDuration_settles_once short_blob [LoadedMetadata (Fin 5)]
             [ErrorEvent; Timeout; DurationChange (Fin 7)]).
  - reflexivity.
  - discriminate.
Defined.

(** *** The probe's object URL *)

Lemma step_kept b st ev : kept st -> kept (step b st ev).
Proof.
  intros (Hr & Hl & Hu).
  assert (Hfall : fallThrough b st = st) by (unfold fallThrough; by rewrite Hr).
  assert (Hdur : forall x, onDuration b x st = st).
  { intros x. unfold onDuration, resolveWithDuration. rewrite Hr.
    by destruct (truthy x && _). }
  destruct ev; simpl; rewrite ?Hl, ?Hfall, ?Hdur; by repeat split.
Qed.

Lemma step_released b st ev : released st -> released (step b st ev).
Proof.
  intros (Hr & Hl & Hu).
  destruct ev; simpl; rewrite ?Hl; try by repeat split.
  unfold fallThrough, cleanup. rewrite Hr. simpl. by repeat split.
Qed.

Lemma step_untouched b st ev :
  untouched st ->
  match ev with
  | LoadedMetadata x | DurationChange x | CanPlayThrough x =>
      match finite_positive x with
      | Some _ => kept (step b st ev)
      | None => untouched (step b st ev)
      end
  | ErrorEvent | Timeout => released (step b st ev)
  end.
Proof.
  intros (Hr & Hl & Hu).
  assert (Hfall : released (fallThrough b st)).
  { unfold fallThrough, cleanup. rewrite Hr. simpl. by repeat split. }
  assert (Hdur : forall x,
             match finite_positive x with
             | Some _ => kept (onDuration b x st)
             | None => untouched (onDuration b x st)
             end).
  { intros x. unfold onDuration.
    destruct (finite_positive x) as [q|] eqn:Hx.
    - rewrite (DurationProps.finite_positive_truthy x q Hx). simpl.
      unfold resolveWithDuration, cleanup. rewrite Hr, Hx. simpl. by repeat split.
    - rewrite andb_false_r. by repeat split. }
  destruct ev as [x|x|x| |]; simpl; rewrite ?Hl;
    first [ exact (Hdur x) | exact Hfall ].
Qed.

Lemma run_kept b evs : forall st, kept st -> kept (fold_left (step b) evs st).
Proof.
  induction evs as [|ev evs IH]; intros st H; simpl; [done|].
  apply IH. by apply step_kept.
Qed.

Lemma run_released b evs :
  forall st, released st -> released (fold_left (step b) evs st).
Proof.
  induction evs as [|ev evs IH]; intros st H; simpl; [done|].
  apply IH. by apply step_released.
Qed.

Lemma run_untouched b evs :
  forall st,
    untouched st -> In Timeout evs ->
    match element_duration evs with
    | Some _ => kept (fold_left (step b) evs st)
    | None => released (fold_left (step b) evs st)
    end.
Proof.
  induction evs as [|ev evs IH]; intros st Hst Hin; [by destruct Hin|].
  pose proof (step_untouched b st ev Hst) as Hstep.
  simpl fold_left.
  destruct ev as [x|x|x| |]; simpl element_duration;
    try (destruct (finite_positive x) as [q|];
         [ by apply run_kept
         | apply IH; [done | by destruct Hin] ]);
    by apply run_released.
Qed.

(** X3. The object URL that [tryAudioElement] creates for the probe is revoked,
    and the listeners removed, exactly when the element fails and the
    resolver falls through; when the element gives the duration, [cleanup]
    runs after [resolved] is set and releases nothing. *)
Theorem probe_url_revoked_only_on_fall_through
        (audioBlob : AudioBlob) (before after : list Event) :
  let events := before ++ Timeout :: after in
  (urlRevoked (probe audioBlob events) = true <-> element_duration events = None)
  /\ (listening (probe audioBlob events) = false <-> element_duration events = None).
Proof.
  intros events. unfold probe.
  pose proof (run_untouched audioBlob events initial) as Hrun.
  assert (Hin : In Timeout events) by (apply in_or_app; right; by left).
  specialize (Hrun ltac:(by repeat split) Hin).
  destruct (element_duration events) as [d|].
  - destruct Hrun as (_ & Hl & Hu). rewrite Hl, Hu. by split; split.
  - destruct Hrun as (_ & Hl & Hu). rewrite Hl, Hu. by split; split.
Qed.

(** *** createSession *)

Lemma Math_max1_ge x : (1 <= Math_max1 x)%Q.
Proof.
  unfold Math_max1. destruct (Qle_bool 1 x) eqn:H; [|apply Qle_refl].
  by apply Qle_bool_iff.
Qed.

(** X4. Whatever the blob, once the 5 s timer has fired [createSession] leaves
    a paused session at time 0 whose duration is positive: the resolver's
    duration, else 1 second for a blob whose estimate is not positive, else
    the estimate itself, which is then an hour or more. *)
Theorem createSession_always_leaves_a_session
        (sessionId probeUrl url : string) (before after : list Event)
        (st : SessionStore) (project : string) (audioBlob : AudioBlob) :
  let events := before ++ Timeout :: after in
  let estimate := (inject_Z (size audioBlob * 8) / inject_Z 128000)%Q in
  exists session,
    createSession sessionId probeUrl url events st project audioBlob
    = TrackStore.Returned
        (mkStore (Some session)
                 (revoked st ++ probe_revocations audioBlob probeUrl initial events))
    /\ audioUrl session = Some url
    /\ isPlaying session = false
    /\ currentTime session = 0%Q
    /\ (0 < duration session)%Q
    /\ match getAudioDuration audioBlob events with
       | Resolved seconds => duration session = seconds
       | _ => (estimate <= 0 /\ duration session = 1)%Q
              \/ (inject_Z 3600 <= estimate /\ duration session = estimate)%Q
       end.
Proof.
  intros events estimate.
  assert (Hres : getAudioDuration audioBlob events
                 = match element_duration events with
                   | Some d => Resolved d
                   | None => fallback audioBlob
                   end).
  { apply DurationProps.run_chain; [by repeat split|].
    apply in_or_app. right. by left. }
  unfold createSession.
  destruct (getAudioDuration audioBlob events) as [|d|m] eqn:Hg.
  - exfalso. destruct (element_duration events); [done|].
    by apply (DurationProps.fallback_settled audioBlob).
  - eexists. repeat split.
    apply (run_positive audioBlob events initial); [by intros ?|exact Hg].
  - assert (Hout : Qlt_bool 0 estimate && Qlt_bool estimate (inject_Z 3600) = false).
    { destruct (element_duration events); [done|].
      unfold fallback, size_estimate in Hres.
      destruct (decoded_duration audioBlob); [done|].
      change (estimatedDuration audioBlob) with estimate in Hres. cbv zeta in Hres.
      by destruct (Qlt_bool 0 estimate && Qlt_bool estimate (inject_Z 3600)). }
    eexists. split; [reflexivity|]. cbn [audioUrl isPlaying currentTime duration].
    change (inject_Z (size audioBlob * 8) / inject_Z (128 * 1000))%Q with estimate.
    split; [done|]. split; [done|]. split; [done|]. split.
    + eapply Qlt_le_trans; [|apply Math_max1_ge]. reflexivity.
    + unfold Math_max1. unfold Qlt_bool in Hout.
      destruct (Qle_bool 1 estimate) eqn:H1.
      * right. split; [|done]. apply Qle_bool_iff in H1.
        destruct (Qle_bool (inject_Z 3600) estimate) eqn:H2;
          [by apply Qle_bool_iff|].
        exfalso. rewrite andb_false_iff, !negb_false_iff in Hout.
        destruct Hout as [H|H]; [|congruence].
        apply Qle_bool_iff in H. apply (Qlt_irrefl 0).
        eapply Qlt_le_trans; [|exact H]. eapply Qlt_le_trans; [|exact H1]. reflexivity.
      * left. split; [|done].
        destruct (Qle_bool estimate 0) eqn:H0; [by apply Qle_bool_iff|].
        exfalso. rewrite andb_false_iff, !negb_false_iff in Hout.
        destruct Hout as [H|H]; [congruence|].
        apply Qle_bool_iff in H.
        assert (H1' : (1 <= estimate)%Q).
        { eapply Qle_trans; [|exact H]. discriminate. }
        apply Qle_bool_iff in H1'. congruence.
Qed.

End ResolverProps.

Module SessionProps.
Import JS Duration ProjectStore.

Lemma probe_revocations_own audioBlob probeUrl events :
  forall st url,
    In url (probe_revocations audioBlob probeUrl st events) -> url = probeUrl.
Proof.
  induction events as [|ev events IH]; intros st url; cbn [probe_revocations];
    [done|].
  intros [Hin|Hin]%in_app_or; [|by eapply IH].
  destruct (cleanup_revokes st ev); [|done]. by destruct Hin as [<-|[]].
Qed.

Lemma createSession_revokes_probe sessionId probeUrl url events st project blob st' :
  createSession sessionId probeUrl url events st project blob
  = TrackStore.Returned st' ->
  revoked st' = revoked st ++ probe_revocations blob probeUrl initial events
  /\ exists session, currentSession st' = Some session /\ audioUrl session = Some url.
Proof.
  unfold createSession.
  destruct (getAudioDuration blob events); [done| |];
    intros [= <-]; (split; [done|]); eexists; by split.
Qed.

Lemma createSessions_revoke_probes takes :
  forall st st',
    createSessions takes st = TrackStore.Returned st' ->
    revoked st' = revoked st ++ probes_revoked takes.
Proof.
  induction takes as [|take takes IH]; intros st st'; cbn [createSessions].
  - intros [= <-]. unfold probes_revoked. cbn. by rewrite app_nil_r.
  - destruct (createSession _ _ _ _ st _ _) as [st1|] eqn:Hc; [|done].
    intros Hrest. apply IH in Hrest. rewrite Hrest.
    apply createSession_revokes_probe in Hc as [-> _].
    unfold probes_revoked. cbn [flat_map]. by rewrite app_assoc.
Qed.

Lemma createSessions_snoc takes take :
  forall st st',
    createSessions (takes ++ [take]) st = TrackStore.Returned st' ->
    exists st1,
      createSessions takes st = TrackStore.Returned st1
      /\ createSession (take_id take) (take_probe_url take) (take_url take)
                       (take_events take) st1 (take_project take) (take_blob take)
         = TrackStore.Returned st'.
Proof.
  induction takes as [|t takes IH]; intros st st'; simpl.
  - destruct (createSession _ _ _ _ st _ _) as [st1|] eqn:Hc; [|done].
    intros [= <-]. exists st. by split.
  - destruct (createSession _ _ _ _ st _ _) as [st1|]; [|done]. apply IH.
Qed.

Lemma probes_revoked_own takes url :
  In url (probes_revoked takes) ->
  exists take, In take takes /\ url = take_probe_url take.
Proof.
  unfold probes_revoked. intros (take & Hin & Hurl)%in_flat_map.
  exists take. split; [done|]. by eapply probe_revocations_own.
Qed.

(** X5. Recording again replaces the session without revoking the object URL
    of the session it replaces. After any number of takes and a
    [clearSession], what was handed to [URL.revokeObjectURL] is what the
    probes of the duration resolver released, each its own URL, on an
    error and again when the timer fired, and then the session URL of
    the last take; the session URL of an earlier take is not among them,
    so it stays allocated. Object URLs are fresh: the earlier session
    URL is none of the probes' URLs, not the last session URL and not
    revoked before. *)
Theorem only_the_last_session_url_is_revoked
        (takes : list Take) (take : Take) (st st' : SessionStore) :
  createSessions (takes ++ [take]) st = TrackStore.Returned st' ->
  take_url take <> "" ->
  currentSession (clearSession st') = None
  /\ revoked (clearSession st')
     = revoked st ++ probes_revoked (takes ++ [take]) ++ [take_url take]
  /\ forall earlier,
       In earlier takes ->
       take_url earlier <> take_url take ->
       ~ In (take_url earlier) (revoked st) ->
       (forall t, In t (takes ++ [take]) -> take_probe_url t <> take_url earlier) ->
       ~ In (take_url earlier) (revoked (clearSession st')).
Proof.
  intros Hrun Hurl.
  assert (Hrevoked : revoked (clearSession st')
                     = revoked st ++ probes_revoked (takes ++ [take])
                       ++ [take_url take]).
  { pose proof (createSessions_revoke_probes _ _ _ Hrun) as Hall.
    apply createSessions_snoc in Hrun as (st1 & _ & Hlast).
    apply createSession_revokes_probe in Hlast as (_ & session & Hcur & Hsu).
    unfold clearSession. cbn [revoked]. rewrite Hcur, Hsu.
    apply String.eqb_neq in Hurl. rewrite Hurl, Hall. by rewrite <- app_assoc. }
  split; [done|]. split; [exact Hrevoked|].
  intros earlier Hin Hlast Hbefore Hfresh. rewrite Hrevoked.
  intros [H|[H|H]%in_app_or]%in_app_or.
  - by apply Hbefore.
  - apply probes_revoked_own in H as (t & Ht & Heq). by apply (Hfresh t).
  - destruct H as [H|[]]. by apply Hlast.
Qed.

Lemma only_the_last_session_url_is_revoked_witness :
  exists st',
    createSessions
      ([mkTake "session-1" "blob:1" "blob:2" error_then_timer "p" short_blob]
       ++ [mkTake "session-2" "blob:3" "blob:4" infinite_then_timer "p" stripped_blob])
      empty_store
    = TrackStore.Returned st'
    /\ revoked (clearSession st') = ["blob:1"; "blob:1"; "blob:3"; "blob:4"]
    /\ ~ In "blob:2" (revoked (clearSession st')).
Proof.
  eexists. split; [reflexivity|].
  destruct (only_the_last_session_url_is_revoked
              [mkTake "session-1" "blob:1" "blob:2" error_then_timer "p" short_blob]
              (mkTake "session-2" "blob:3" "blob:4" infinite_then_timer "p"
                      stripped_blob)
              empty_store _ eq_refl) as (_ & Hrevoked & Hkept); [discriminate|].
  split; [exact Hrevoked|].
  apply (Hkept (mkTake "session-1" "blob:1" "blob:2" error_then_timer "p" short_blob)).
  - by left.
  - discriminate.
  - by intros [].
  - intros t [<-|[<-|[]]]; discriminate.
Defined.

End SessionProps.

Module TrackOpsProps.
Import JS TrackStore TrackOps.

(** *** updateTrack *)

(** X6. Whether or not the request goes through, [updateTrack] neither adds,
    removes nor reorders tracks, leaves every track with another id as it
    was and ends with [loading] off. It reports failure exactly when the
    request fails or the table has no such row, and then store tracks and
    table are untouched and the error is set. *)
Theorem updateTrack_keeps_the_track_list
        (requestFails : bool) (w : World) (trackId : string) (updates : Updates) :
  let result := updateTrack requestFails w trackId updates in
  let w' := result.2 in
  map id (tracks (state w')) = map id (tracks (state w))
  /\ Forall2 (fun t t' => id t <> trackId -> t' = t)
             (tracks (state w)) (tracks (state w'))
  /\ loading (state w') = false
  /\ result.1
     = negb requestFails
       && bool_decide (is_Some (List.find (has_id trackId) (table w)))
  /\ if result.1
     then error (state w') = None
     else tracks (state w') = tracks (state w)
          /\ table w' = table w
          /\ error (state w') = Some "Failed to update track".
Proof.
  intros result w'. subst result w'.
  destruct requestFails.
  - cbn [updateTrack db_update fst snd negb andb state tracks table loading error
         with_status].
    split; [done|]. split; [apply TrackStoreProps.others_untouched_same|]. by repeat split.
  - destruct (List.find (has_id trackId) (table w)) as [row|] eqn:Hfind.
    + rewrite (TrackStoreProps.updateTrack_succeeds w trackId updates row Hfind).
      cbn [fst snd negb andb].
      split; [apply TrackStoreProps.updated_ids; by eapply TrackStoreProps.find_has_id|].
      split; [apply TrackStoreProps.others_untouched_map|]. by repeat split.
    + unfold updateTrack, db_update.
      change (fun r : Track => String.eqb (id r) trackId) with (has_id trackId).
      rewrite Hfind. cbn.
      split; [done|]. split; [apply TrackStoreProps.others_untouched_same|].
      by repeat split.
Qed.

Lemma updateTrack_keeps_the_track_list_witness :
  let w' := (updateTrack false solo_world "zz" no_updates).2 in
  (updateTrack false solo_world "zz" no_updates).1 = false
  /\ tracks (state w') = tracks (state solo_world)
  /\ error (state w') = Some "Failed to update track".
Proof.
  pose proof (updateTrack_keeps_the_track_list false solo_world "zz" no_updates)
    as (_ & _ & _ & Hres & Hcase).
  cbv zeta in Hres, Hcase.
  assert (Hfalse : (updateTrack false solo_world "zz" no_updates).1 = false)
    by (rewrite Hres; reflexivity).
  rewrite Hfalse in Hcase. destruct Hcase as (Ht & _ & He).
  split; [exact Hfalse|]. split; [exact Ht|exact He].
Defined.

(** *** createTrack and the limits *)

Lemma createTrack_not_created user events events' url url' answer flag
      w projectId trackName blob description w' :
  createTrack user events events' url url' answer flag
              w projectId trackName blob description
  = Returned (None, w') ->
  tracks (state w') = tracks (state w) /\ table w' = table w.
Proof.
  unfold createTrack. destruct user as [userId|]; [|by intros [= <-]].
  cbn [with_status tracks].
  destruct (10 <=? _)%nat; [by intros [= <-]|].
  destruct (Duration.getAudioDuration blob events) as [|d|m];
    [done| |by intros [= <-]].
  unfold db_insert. destruct answer as [newId|message]; [|by intros [= <-]].
  destruct (check_track_limit _ _); [by intros [= <-]|].
  unfold createTrackSession.
  by destruct (Duration.getAudioDuration blob events').
Qed.

Lemma existingTracks_app w ts projectId :
  List.filter (fun t => String.eqb (project_id t) projectId) (tracks (state w) ++ ts)
  = existingTracks w projectId
    ++ List.filter (fun t => String.eqb (project_id t) projectId) ts.
Proof. unfold existingTracks. apply List.filter_app. Qed.

(** X7. Whatever happens to a [createTrack] call, the store never comes to hold
    more than 10 tracks of a project through it: a project that had at most
    10 still has at most 10, and no project other than the one named gains a
    track. *)
Theorem createTrack_keeps_store_within_limit
        (user : option string) (events events' : list Duration.Event)
        (audioUrl audioUrl' : string) (answer : InsertAnswer) (errorIsError : bool)
        (w : World) (projectId trackName : string) (audioBlob : Duration.AudioBlob)
        (description : option string) (result : option Track) (w' : World)
        (other : string) :
  createTrack user events events' audioUrl audioUrl' answer errorIsError
              w projectId trackName audioBlob description
  = Returned (result, w') ->
  ((project_count w other <= 10)%nat -> (project_count w' other <= 10)%nat)
  /\ (other <> projectId -> project_count w' other = project_count w other).
Proof.
  intros Hret. destruct result as [track|].
  - destruct user as [userId|]; [|done].
    apply TrackStoreProps.createTrack_created in Hret
      as (Hbelow & _ & Hproject & Htracks & _).
    unfold project_count, existingTracks in *. rewrite Htracks, List.filter_app.
    rewrite length_app. cbn [List.filter]. rewrite Hproject.
    destruct (String.eqb projectId other) eqn:Hsame.
    + apply String.eqb_eq in Hsame. subst other. split; [simpl; lia|done].
    + simpl. split; [lia|]. intros _. lia.
  - apply createTrack_not_created in Hret as [Htracks _].
    unfold project_count, existingTracks. rewrite Htracks. by split.
Qed.

Lemma createTrack_keeps_store_within_limit_witness :
  exists result w',
    createTrack (Some "user") metadata_then_timer metadata_then_timer
                "blob:1" "blob:2" (Accepted "t11") false
                full_world "project" "take" a_blob None
    = Returned (result, w')
    /\ (project_count w' "project" <= 10)%nat.
Proof.
  eexists _, _. split; [reflexivity|].
  apply (proj1 (createTrack_keeps_store_within_limit
                  (Some "user") metadata_then_timer metadata_then_timer
                  "blob:1" "blob:2" (Accepted "t11") false
                  full_world "project" "take" a_blob None _ _ "project" eq_refl)).
  vm_compute. lia.
Defined.

(** X8. A created track is ordered after every track the project had: its
    order is at least 1 and above all existing orders, so orders that were
    distinct stay distinct. *)
Theorem createTrack_order_is_fresh
        (userId : string) (events events' : list Duration.Event)
        (audioUrl audioUrl' : string) (answer : InsertAnswer) (errorIsError : bool)
        (w : World) (projectId trackName : string) (audioBlob : Duration.AudioBlob)
        (description : option string) (track : Track) (w' : World) :
  createTrack (Some userId) events events' audioUrl audioUrl' answer errorIsError
              w projectId trackName audioBlob description
  = Returned (Some track, w') ->
  1 <= track_order track
  /\ (forall t, In t (existingTracks w projectId) -> track_order t < track_order track)
  /\ (NoDup (map track_order (existingTracks w projectId)) ->
      NoDup (map track_order (existingTracks w' projectId))).
Proof.
  intros Hret.
  apply TrackStoreProps.createTrack_created in Hret
    as (_ & Horder & Hproject & Htracks & _).
  unfold next_order, Math_max0 in Horder.
  destruct (TrackStoreProps.fold_Zmax (map track_order (existingTracks w projectId)) 0)
    as (H0 & Hall & _).
  cbv zeta in H0, Hall.
  assert (Hfresh : forall t, In t (existingTracks w projectId) ->
                             track_order t < track_order track).
  { intros t Hin. rewrite Horder.
    assert (track_order t <= fold_left Z.max (map track_order (existingTracks w projectId)) 0)
      by (apply Hall; by apply in_map).
    lia. }
  split; [lia|]. split; [exact Hfresh|].
  intros Hnd. unfold existingTracks at 1. rewrite Htracks, existingTracks_app.
  cbn [List.filter]. rewrite Hproject, String.eqb_refl, map_app. cbn [map].
  apply NoDup_app. split; [exact Hnd|]. split.
  - intros o Hin%list_elem_of_In ->%list_elem_of_singleton.
    apply in_map_iff in Hin as (t & Ho & Hin). apply Hfresh in Hin. lia.
  - apply NoDup_singleton.
Qed.

Lemma createTrack_order_is_fresh_witness :
  exists track w',
    createTrack (Some "user") metadata_then_timer metadata_then_timer
                "blob:1" "blob:2" (Accepted "t3") false
                small_world "project" "take" a_blob None
    = Returned (Some track, w')
    /\ (forall t, In t (existingTracks small_world "project") ->
                  track_order t < track_order track).
Proof.
  eexists _, _. split; [reflexivity|].
  apply (createTrack_order_is_fresh
           "user" metadata_then_timer metadata_then_timer "blob:1" "blob:2"
           (Accepted "t3") false small_world "project" "take" a_blob None
           _ _ eq_refl).
Defined.

(** *** The table's limit *)

Lemma pair_count_app table rows projectId userId :
  pair_count (table ++ rows) projectId userId
  = (pair_count table projectId userId + pair_count rows projectId userId)%nat.
Proof. unfold pair_count. by rewrite List.filter_app, length_app. Qed.

Lemma pair_count_map (g : Track -> Track) table projectId userId :
  (forall r, project_id (g r) = project_id r /\ user_id (g r) = user_id r) ->
  pair_count (map g table) projectId userId = pair_count table projectId userId.
Proof.
  intros Hg. unfold pair_count. induction table as [|r table IH]; [done|].
  cbn [map List.filter]. destruct (Hg r) as [-> ->].
  destruct (_ && _); simpl; congruence.
Qed.

Lemma pair_count_filter (keep : Track -> bool) table projectId userId :
  (pair_count (List.filter keep table) projectId userId
   <= pair_count table projectId userId)%nat.
Proof.
  unfold pair_count. induction table as [|r table IH]; [done|].
  cbn [List.filter]. destruct (keep r); cbn [List.filter];
    destruct (_ && _); simpl; lia.
Qed.

Lemma db_insert_within_limit answer table newTrack :
  within_limit table -> within_limit (db_insert answer table newTrack).2.
Proof.
  intros Hlimit. unfold db_insert. destruct answer as [newId|message]; [|done].
  destruct (check_track_limit table newTrack) eqn:Hcheck; [done|].
  cbn [snd]. intros projectId userId. rewrite pair_count_app.
  unfold pair_count at 2. cbn [List.filter project_id user_id].
  destruct (String.eqb (project_id newTrack) projectId
            && String.eqb (user_id newTrack) userId) eqn:Hsame.
  - apply andb_prop in Hsame as [Hp%String.eqb_eq Hu%String.eqb_eq].
    subst projectId userId.
    unfold check_track_limit in Hcheck. apply Nat.leb_gt in Hcheck.
    unfold pair_count. simpl. lia.
  - specialize (Hlimit projectId userId). simpl. lia.
Qed.

Lemma createTrack_table user events events' url url' answer flag
      w projectId trackName blob description result w' :
  createTrack user events events' url url' answer flag
              w projectId trackName blob description
  = Returned (result, w') ->
  table w' = table w
  \/ exists newTrack,
       table w' = (db_insert answer (table w) newTrack).2
       /\ project_id newTrack = projectId /\ user = Some (user_id newTrack).
Proof.
  unfold createTrack. destruct user as [userId|]; [|intros [= _ <-]; by left].
  cbn [with_status tracks].
  destruct (10 <=? _)%nat; [intros [= _ <-]; by left|].
  destruct (Duration.getAudioDuration blob events) as [|d|m];
    [done| |intros [= _ <-]; by left].
  set (newTrack := mkTrack _ _ _ _ _ _ _ _ _ _ _ _ _).
  destruct (db_insert answer (table w) newTrack) as [[message|data] table'] eqn:Hins.
  - intros [= _ <-]. right. exists newTrack. by rewrite Hins.
  - destruct (createTrackSession _ _ _ _); [|done].
    intros [= _ <-]. right. exists newTrack. by rewrite Hins.
Qed.

Lemma updateTrack_within_limit requestFails w trackId updates :
  within_limit (table w) ->
  within_limit (table (updateTrack requestFails w trackId updates).2).
Proof.
  intros Hlimit. unfold updateTrack, db_update.
  destruct requestFails; [done|].
  destruct (List.find _ (table w)) as [row|]; [|done].
  cbn [snd table]. intros projectId userId.
  rewrite pair_count_map; [apply Hlimit|]. intros r.
  by destruct (String.eqb (id r) trackId).
Qed.

Lemma createTrack_within_limit user events events' url url' answer flag
      w projectId trackName blob description result w' :
  within_limit (table w) ->
  createTrack user events events' url url' answer flag
              w projectId trackName blob description
  = Returned (result, w') ->
  within_limit (table w').
Proof.
  intros Hlimit Hret.
  apply createTrack_table in Hret as [->|(newTrack & -> & _)]; [done|].
  by apply db_insert_within_limit.
Qed.

Lemma deleteTrack_within_limit requestFails w trackId :
  within_limit (table w) ->
  within_limit (table (deleteTrack requestFails w trackId).1.2).
Proof.
  intros Hlimit. unfold deleteTrack, db_delete.
  destruct requestFails; [done|]. cbn [fst snd table].
  intros projectId userId.
  etransitivity; [apply pair_count_filter|apply Hlimit].
Qed.



(** *** deleteTrack and the sessions *)

Lemma filter_other_In trackId (ts : list Track) t :
  In t (List.filter (fun t => negb (String.eqb (id t) trackId)) ts)
  <-> In t ts /\ id t <> trackId.
Proof.
  rewrite List.filter_In, negb_true_iff. by rewrite String.eqb_neq.
Qed.

(** X11. [deleteTrack] succeeds exactly when the request does. Then the track
    is gone from the store and the row from the table, the others stay;
    the track's session is gone, its object URL is revoked and no other
    session is touched; [currentTrack] is cleared only if it was that
    track. When the request fails, tracks, sessions and table are as
    before, nothing is revoked and the error is set. *)
Theorem deleteTrack_removes_track_row_and_session
        (requestFails : bool) (w : World) (trackId : string) :
  let result := deleteTrack requestFails w trackId in
  let w' := result.1.2 in
  result.1.1 = negb requestFails
  /\ loading (state w') = false
  /\ if result.1.1
     then (forall t, In t (tracks (state w'))
                     <-> In t (tracks (state w)) /\ id t <> trackId)
          /\ (forall r, In r (table w') <-> In r (table w) /\ id r <> trackId)
          /\ trackSessions (state w') !! trackId = None
          /\ (forall other, other <> trackId ->
                trackSessions (state w') !! other = trackSessions (state w) !! other)
          /\ result.2 = url_of (state w) trackId
          /\ currentTrack (state w')
             = (current ← currentTrack (state w);
                if String.eqb (id current) trackId then None else Some current)
          /\ error (state w') = None
     else tracks (state w') = tracks (state w)
          /\ table w' = table w
          /\ trackSessions (state w') = trackSessions (state w)
          /\ currentTrack (state w') = currentTrack (state w)
          /\ result.2 = []
          /\ error (state w') = Some "Failed to delete track".
Proof.
  intros result w'. subst result w'. unfold deleteTrack, db_delete.
  destruct requestFails; [by cbn|].
  cbn [clearTrackSession fst snd negb state tracks table trackSessions currentTrack
       loading error with_status].
  split; [done|]. split; [done|].
  split; [intros t; apply filter_other_In|].
  split; [intros r; apply filter_other_In|].
  split; [apply lookup_delete_eq|].
  split; [intros other Hne; by apply lookup_delete_ne|].
  split; [unfold url_of; by destruct (trackSessions (state w) !! trackId)|].
  split; [by destruct (currentTrack (state w))|done].
Qed.

Lemma deleteTrack_removes_track_row_and_session_witness :
  let result := deleteTrack false session_world "t1" in
  map id (tracks (state result.1.2)) = ["t2"]
  /\ trackSessions (state result.1.2) !! "t2"
     = trackSessions (state session_world) !! "t2"
  /\ result.2 = ["blob:t1"].
Proof.
  pose proof (deleteTrack_removes_track_row_and_session false session_world "t1")
    as (_ & _ & Hcase).
  cbv zeta in Hcase.
  change ((deleteTrack false session_world "t1").1.1) with true in Hcase.
  destruct Hcase as (_ & _ & _ & Hother & Hurls & _).
  split; [reflexivity|]. split; [apply Hother; discriminate|].
  rewrite Hurls. reflexivity.
Defined.

(** X12. [clearAllSessions] leaves no session, keeps the tracks, and revokes
    exactly the object URLs that sessions held: every non-empty URL of a
    session, and nothing else. *)
Theorem clearAllSessions_revokes_every_session_url (st : TrackState) :
  let result := clearAllSessions st in
  trackSessions result.1 = ∅
  /\ tracks result.1 = tracks st
  /\ forall url,
       In url result.2
       <-> exists key session,
            trackSessions st !! key = Some session
            /\ audioUrl session = Some url /\ url <> "".
Proof.
  intros result. subst result. cbn [clearAllSessions fst snd trackSessions tracks].
  split; [done|]. split; [done|]. intros url. rewrite in_flat_map. split.
  - intros ([key session] & Hin & Hurl).
    apply list_elem_of_In, elem_of_map_to_list in Hin.
    exists key, session. split; [exact Hin|].
    cbn [snd] in Hurl. unfold session_url in Hurl.
    destruct (audioUrl session) as [u|]; [|done].
    destruct (String.eqb u "") eqn:Hempty; [done|].
    destruct Hurl as [->|[]]. split; [done|]. by apply String.eqb_neq.
  - intros (key & session & Hin & Hurl & Hne).
    exists (key, session). split.
    + by apply list_elem_of_In, elem_of_map_to_list.
    + cbn [snd]. unfold session_url. rewrite Hurl.
      apply String.eqb_neq in Hne. rewrite Hne. by left.
Qed.

Lemma clearAllSessions_revokes_every_session_url_witness :
  In "blob:t2" (clearAllSessions (state session_world)).2.
Proof.
  apply (clearAllSessions_revokes_every_session_url (state session_world)).
  exists "t2", (mkSession "t2" (Some "blob:t2") true 1 2).
  split; [reflexivity|]. split; [reflexivity|discriminate].
Defined.

Lemma updateTrackSession_keyed st key u :
  su_trackId u = None -> keyed st -> keyed (updateTrackSession st key u).
Proof.
  intros Hid Hkeyed. unfold updateTrackSession.
  destruct (trackSessions st !! key) as [current|] eqn:Hcur; [|done].
  intros k session. cbn [trackSessions].
  destruct (decide (k = key)) as [->|Hne].
  - rewrite lookup_insert_eq. intros [= <-].
    unfold apply_session_updates. rewrite Hid. cbn. by apply Hkeyed.
  - rewrite lookup_insert_ne by done. apply Hkeyed.
Qed.

(** X13. [updateTrackSession] creates no session and removes none, touches no
    session but the named track's and leaves the tracks alone; and
    [playTrack], [pauseTrack] and [seekTrack], which go through it, keep
    every session stored under its own track's id. *)
Theorem updateTrackSession_is_local
        (st : TrackState) (key : string) (updates : SessionUpdates) (time : Q) :
  let st' := updateTrackSession st key updates in
  tracks st' = tracks st
  /\ (forall k, is_Some (trackSessions st' !! k) <-> is_Some (trackSessions st !! k))
  /\ (forall other, other <> key ->
        trackSessions st' !! other = trackSessions st !! other)
  /\ (keyed st ->
      keyed (playTrack st key) /\ keyed (pauseTrack st key)
      /\ keyed (seekTrack st key time)).
Proof.
  intros st'. subst st'. split; [|split; [|split]].
  - unfold updateTrackSession. by destruct (trackSessions st !! key).
  - intros k. unfold updateTrackSession.
    destruct (trackSessions st !! key) as [current|] eqn:Hcur; [|done].
    cbn [trackSessions]. destruct (decide (k = key)) as [->|Hne].
    + rewrite lookup_insert_eq, Hcur. split; eauto.
    + by rewrite lookup_insert_ne.
  - intros other Hne. unfold updateTrackSession.
    destruct (trackSessions st !! key); [|done].
    cbn [trackSessions]. by rewrite lookup_insert_ne.
  - intros Hkeyed. unfold playTrack, pauseTrack, seekTrack.
    split; [|split]; by apply updateTrackSession_keyed.
Qed.

Lemma updateTrackSession_is_local_witness :
  keyed (seekTrack (state session_world) "t1" 1)
  /\ trackSessions (seekTrack (state session_world) "t1" 1) !! "t2"
     = trackSessions (state session_world) !! "t2".
Proof.
  pose proof (updateTrackSession_is_local
                (state session_world) "t1"
                (mkSessionUpdates None None None (Some 1%Q) None) 1)
    as (_ & _ & Hother & Hkeyed).
  split.
  - apply Hkeyed. intros k session.
    destruct (decide (k = "t1")) as [->|H1]; [by intros [= <-]|].
    destruct (decide (k = "t2")) as [->|H2]; [by intros [= <-]|].
    cbn [session_world state trackSessions].
    by rewrite !lookup_insert_ne, lookup_empty.
  - apply Hother. discriminate.
Defined.

End TrackOpsProps.

Module TrackOrderProps.
Import JS TrackStore TrackOrder.

Lemma updateTrack_table w key u :
  table (updateTrack false w key u).2
  = map (fun r => if String.eqb (id r) key then set_columns r u else r) (table w).
Proof.
  unfold updateTrack, db_update.
  destruct (List.find _ (table w)) as [row|] eqn:Hfind; [done|].
  cbn [snd table]. symmetry. erewrite map_ext_in; [apply map_id|].
  intros r Hin. by rewrite (List.find_none _ _ Hfind r Hin).
Qed.

Lemma all_go_through_head outcomes :
  all_go_through outcomes ->
  default false (head outcomes) = false /\ all_go_through (tail outcomes).
Proof.
  intros Hall. destruct outcomes as [|b outcomes]; [done|]. split.
  - apply Hall. by left.
  - intros b' Hin. apply Hall. by right.
Qed.

(** What the loop of [reorderTracks] does to the table when every request
    goes through. *)
Lemma reorder_loop updates :
  NoDup (map fst updates) ->
  forall w outcomes,
    all_go_through outcomes ->
    exists g,
      table (fold_left reorderStep updates (w, outcomes)).1 = map g (table w)
      /\ (forall r, id (g r) = id r /\ project_id (g r) = project_id r
                    /\ user_id (g r) = user_id r)
      /\ (forall r, id r ∉ map fst updates -> g r = r)
      /\ (forall key order r,
             (key, order) ∈ updates -> id r = key -> track_order (g r) = order).
Proof.
  induction updates as [|[key order] updates IH]; intros Hnd w outcomes Hall.
  - exists (fun r => r). cbn. rewrite map_id. split; [done|]. split; [done|].
    split; [done|]. intros key order r Hin. by apply elem_of_nil in Hin.
  - cbn [map fst] in Hnd. apply NoDup_cons in Hnd as [Hfresh Hnd].
    destruct (all_go_through_head outcomes Hall) as [Hhead Htail].
    cbn [fold_left reorderStep fst snd]. rewrite Hhead.
    set (u := mkUpdates None None None None (Some order)).
    destruct (IH Hnd (updateTrack false w key u).2 (tail outcomes) Htail)
      as (g & Htable & Hkeep & Hothers & Horders).
    set (upd := fun r => if String.eqb (id r) key then set_columns r u else r).
    assert (Hupd : forall r, id (upd r) = id r /\ project_id (upd r) = project_id r
                             /\ user_id (upd r) = user_id r)
      by (intros r; unfold upd; by destruct (String.eqb (id r) key)).
    exists (fun r => g (upd r)).
    split; [by rewrite Htable, updateTrack_table, map_map|].
    split; [|split].
    + intros r. destruct (Hkeep (upd r)) as (-> & -> & ->). apply Hupd.
    + intros r Hout. cbn [map fst] in Hout. apply not_elem_of_cons in Hout as [Hne Hout].
      assert (upd r = r) as -> by (unfold upd; apply String.eqb_neq in Hne; by rewrite Hne).
      by apply Hothers.
    + intros key' order' r Hin Hid. apply elem_of_cons in Hin as [[= -> ->]|Hin].
      * rewrite Hothers; [|by destruct (Hupd r) as (-> & _); rewrite Hid].
        unfold upd. apply String.eqb_eq in Hid. by rewrite Hid.
      * apply Horders with key'; [done|]. by destruct (Hupd r) as (-> & _).
Qed.

Lemma rows_of_map (g : Track -> Track) table projectId userId :
  (forall r, id (g r) = id r /\ project_id (g r) = project_id r
             /\ user_id (g r) = user_id r) ->
  rows_of (map g table) projectId userId = map g (rows_of table projectId userId).
Proof.
  intros Hg. unfold rows_of. induction table as [|r table IH]; [done|].
  cbn [map List.filter]. destruct (Hg r) as (_ & -> & ->).
  destruct (_ && _); cbn [map]; congruence.
Qed.

Lemma NoDup_filter_ids (keep : Track -> bool) (table : list Track) :
  NoDup (map id table) -> NoDup (map id (List.filter keep table)).
Proof.
  induction table as [|r table IH]; [done|]. cbn [map List.filter].
  intros [Hfresh Hnd]%NoDup_cons. destruct (keep r); [|by apply IH].
  cbn [map]. apply NoDup_cons. split; [|by apply IH].
  intros Hin. apply Hfresh. apply list_elem_of_In, in_map_iff in Hin as (x & Hx & Hin).
  apply List.filter_In in Hin as [Hin _].
  apply list_elem_of_In, in_map_iff. by exists x.
Qed.

Lemma imap_positions (trackIds : list string) key order :
  (key, order) ∈ imap (fun index trackId => (trackId, Z.of_nat index + 1)) trackIds
  <-> exists index : nat, trackIds !! index = Some key /\ order = Z.of_nat index + 1.
Proof.
  rewrite list_elem_of_lookup. split.
  - intros (index & Hlook). rewrite list_lookup_imap in Hlook.
    destruct (trackIds !! index) as [k|] eqn:Hk; [|done].
    injection Hlook as <- <-. by exists index.
  - intros (index & Hlook & ->). exists index. by rewrite list_lookup_imap, Hlook.
Qed.

Lemma imap_keys (trackIds : list string) :
  map fst (imap (fun index trackId => (trackId, Z.of_nat index + 1)) trackIds)
  = trackIds.
Proof.
  apply list_eq. intros index. change (map fst ?l) with (fst <$> l).
  rewrite list_lookup_fmap, list_lookup_imap. by destruct (trackIds !! index).
Qed.

(** Rows whose orders are their positions plus one are sorted, and no
    two of them share an order. *)
Lemma positions_sorted (rows : list Track) :
  forall start : Z,
    (forall (index : nat) r, rows !! index = Some r ->
                             track_order r = start + Z.of_nat index) ->
    StronglySorted by_order rows
    /\ forall a b, a ∈ rows -> b ∈ rows -> by_order a b -> by_order b a -> a = b.
Proof.
  intros start Hpos. split.
  - revert start Hpos. induction rows as [|r rows IH]; intros start Hpos;
      constructor.
    + apply (IH (start + 1)). intros index r' Hr'.
      rewrite (Hpos (S index) r' Hr'). lia.
    + apply Forall_forall. intros r' Hin.
      apply list_elem_of_lookup in Hin as (index & Hr').
      unfold by_order. rewrite (Hpos 0%nat r eq_refl), (Hpos (S index) r' Hr'). lia.
  - intros a b (i & Ha)%list_elem_of_lookup (j & Hb)%list_elem_of_lookup.
    unfold by_order. rewrite (Hpos i a Ha), (Hpos j b Hb). intros Hab Hba.
    assert (i = j) as -> by lia. congruence.
Qed.

#[local] Instance by_order_trans : Transitive by_order.
Proof. intros a b c. unfold by_order. lia. Qed.

#[local] Instance by_order_total : Total by_order.
Proof. intros a b. unfold by_order. lia. Qed.

(** X14. When the user is signed in, the table's ids are unique, [trackIds]
    names each of the project's rows once and every request goes
    through, [reorderTracks] leaves the store with the project's tracks
    in the order of [trackIds], numbered 1, 2, 3, ... in [track_order],
    with no error and [loading] off. *)
Theorem reorderTracks_puts_tracks_in_requested_order
        (userId : string) (outcomes : list bool) (w : World)
        (projectId : string) (trackIds : list string) :
  NoDup (map id (table w)) ->
  names_the_rows (table w) projectId userId trackIds ->
  all_go_through outcomes ->
  let w' := reorderTracks (Some userId) outcomes false w projectId trackIds in
  map id (tracks (state w')) = trackIds
  /\ map track_order (tracks (state w'))
     = imap (fun index _ => Z.of_nat index + 1) trackIds
  /\ map id (rows_of (table w') projectId userId)
     = map id (rows_of (table w) projectId userId)
  /\ loading (state w') = false
  /\ error (state w') = None.
Proof.
  intros Hids [Hnd Hnames] Hall w'. subst w'.
  unfold reorderTracks, loadTracks, db_select.
  cbn [state tracks table loading error with_status].
  set (updates := imap _ trackIds).
  destruct (reorder_loop updates) with (w := w) (outcomes := outcomes)
    as (g & Htable & Hkeep & _ & Horders); [by unfold updates; rewrite imap_keys|done|].
  rewrite Htable. fold (rows_of (map g (table w)) projectId userId).
  rewrite (rows_of_map g _ _ _ Hkeep).
  set (rows := rows_of (table w) projectId userId) in *.
  assert (Hrows_ids : map id (map g rows) = map id rows).
  { rewrite map_map. apply map_ext. intros r. by destruct (Hkeep r) as (-> & _). }
  (* the rows of the project, arranged as [trackIds] names them *)
  assert (Hperm : trackIds ≡ₚ map id (map g rows)).
  { rewrite Hrows_ids. apply NoDup_Permutation; [done| |done].
    by apply NoDup_filter_ids. }
  apply Permutation_map_inv in Hperm as (arranged & Harranged & Hperm).
  assert (Hpos : forall (index : nat) r,
             arranged !! index = Some r -> track_order r = 1 + Z.of_nat index).
  { intros index r Hr.
    assert (Hin : r ∈ map g rows).
    { rewrite Hperm. by eapply list_elem_of_lookup_2. }
    apply list_elem_of_In, in_map_iff in Hin as (r0 & <- & _).
    rewrite (Horders (id r0) (Z.of_nat index + 1) r0); [lia| |done].
    apply imap_positions. exists index. split; [|done].
    rewrite Harranged. change (map id arranged) with (id <$> arranged).
    rewrite list_lookup_fmap, Hr. cbn. by destruct (Hkeep r0) as (-> & _). }
  destruct (positions_sorted arranged 1 Hpos) as [Hsorted Hinj].
  assert (Hsame : arranged = merge_sort by_order (map g rows)).
  { apply (StronglySorted_unique_strong by_order); [|done| |].
    - intros a b Ha Hb. apply Hinj; [done|].
      by rewrite merge_sort_Permutation, Hperm in Hb.
    - apply StronglySorted_merge_sort; apply _.
    - by rewrite merge_sort_Permutation, Hperm. }
  rewrite <- Hsame.
  split; [done|]. split; [|split; [|done]].
  - apply list_eq. intros index.
    change (map track_order arranged) with (track_order <$> arranged).
    rewrite list_lookup_fmap, list_lookup_imap, Harranged.
    change (map id arranged) with (id <$> arranged). rewrite list_lookup_fmap.
    destruct (arranged !! index) as [r|] eqn:Hr; [|done].
    cbn. rewrite (Hpos index r Hr). f_equal. lia.
  - exact Hrows_ids.
Qed.

Lemma reorderTracks_puts_tracks_in_requested_order_witness :
  map id (tracks (state (reorderTracks (Some "user") [] false three_tracks
                                       "project" ["c"; "a"; "b"])))
  = ["c"; "a"; "b"].
Proof.
  apply (reorderTracks_puts_tracks_in_requested_order
           "user" [] three_tracks "project" ["c"; "a"; "b"]).
  - by apply (bool_decide_unpack _).
  - split; [by apply (bool_decide_unpack _)|].
    intros key. cbn. rewrite !elem_of_cons, !elem_of_nil. tauto.
  - by intros b [].
Defined.

End TrackOrderProps.

Module TableLimitProps.
Import JS TrackStore TrackOps TrackOrder.

Lemma solo_loop_within_limit trackId ts :
  forall w outcomes,
    within_limit (table w) ->
    within_limit (table (fold_left (soloStep trackId) ts (w, outcomes)).1).
Proof.
  induction ts as [|t ts IH]; intros w outcomes Hlimit; cbn [fold_left]; [done|].
  unfold soloStep at 2. apply IH. by apply TrackOpsProps.updateTrack_within_limit.
Qed.

Lemma reorder_loop_within_limit updates :
  forall w outcomes,
    within_limit (table w) ->
    within_limit (table (fold_left reorderStep updates (w, outcomes)).1).
Proof.
  induction updates as [|u updates IH]; intros w outcomes Hlimit; cbn [fold_left];
    [done|].
  unfold reorderStep at 2. apply IH. by apply TrackOpsProps.updateTrack_within_limit.
Qed.

Lemma loadTracks_table user requestFails w projectId :
  table (loadTracks user requestFails w projectId) = table w.
Proof.
  unfold loadTracks. destruct user as [userId|]; [|done].
  by destruct (db_select requestFails (table w) projectId userId).
Qed.

(** X9. No action of the store brings the table above 10 rows for one
    project and user: a table within the limit is still within it after
    [createTrack], after [deleteTrack] and after each of the actions that
    go through [updateTrack], which are [setTrackVolume], [setTrackPan],
    [muteTrack], [soloTrack] and [reorderTracks], whatever the store
    holds and however the requests end. The updates of these actions
    carry a volume, a pan, a mute or solo flag or an order; the trigger
    fires on inserts only, and an update that moved a row to another
    project or user is not among them. *)
Theorem table_stays_within_limit (w : World) :
  within_limit (table w) ->
  (forall user events events' audioUrl audioUrl' answer errorIsError
          projectId trackName audioBlob description result w',
      createTrack user events events' audioUrl audioUrl' answer errorIsError
                  w projectId trackName audioBlob description
      = Returned (result, w') ->
      within_limit (table w'))
  /\ (forall requestFails trackId,
        within_limit (table (deleteTrack requestFails w trackId).1.2))
  /\ (forall requestFails trackId volume,
        within_limit (table (setTrackVolume requestFails w trackId volume)))
  /\ (forall requestFails trackId pan,
        within_limit (table (setTrackPan requestFails w trackId pan)))
  /\ (forall requestFails trackId muted,
        within_limit (table (muteTrack requestFails w trackId muted)))
  /\ (forall outcomes trackId solo,
        within_limit (table (soloTrack outcomes w trackId solo)))
  /\ (forall user outcomes loadFails projectId trackIds,
        within_limit
          (table (reorderTracks user outcomes loadFails w projectId trackIds))).
Proof.
  intros Hlimit.
  split; [intros; by eapply TrackOpsProps.createTrack_within_limit|].
  split; [intros; by apply TrackOpsProps.deleteTrack_within_limit|].
  split; [intros; by apply TrackOpsProps.updateTrack_within_limit|].
  split; [intros; by apply TrackOpsProps.updateTrack_within_limit|].
  split; [intros; by apply TrackOpsProps.updateTrack_within_limit|].
  split.
  - intros outcomes trackId solo. unfold soloTrack. destruct solo.
    + by apply solo_loop_within_limit.
    + by apply TrackOpsProps.updateTrack_within_limit.
  - intros user outcomes loadFails projectId trackIds. unfold reorderTracks.
    rewrite loadTracks_table. by apply reorder_loop_within_limit.
Qed.

Lemma table_stays_within_limit_witness :
  within_limit (table (deleteTrack false full_world "t3").1.2)
  /\ within_limit (table (soloTrack [] full_world "t3" true)).
Proof.
  assert (Hfull : within_limit (table full_world)).
  { intros projectId userId. unfold pair_count.
    etransitivity; [apply List.filter_length_le|]. simpl. lia. }
  split; by apply (table_stays_within_limit full_world).
Defined.

End TableLimitProps.

Module TransformProps.
Import JS Transform.

Lemma Math_min_Fin a b : Math_min (Fin a) (Fin b) = Fin (Qmin2 a b).
Proof. unfold Math_min, Qmin2. by destruct (Qle_bool a b). Qed.

Lemma Math_max_Fin a b : Math_max (Fin a) (Fin b) = Fin (Qmax2 a b).
Proof. unfold Math_max, Qmax2. by destruct (Qle_bool a b). Qed.






(** The first prompt of a style on the client is the prompt the function
    holds for it. *)
Lemma prompts_agree engine style :
  stylePrompt engine (style_name style) = JStr (default "" (head (prompts style))).
Proof. by destruct style. Qed.

Lemma first_prompt_not_empty style :
  String.eqb (default "" (head (prompts style))) "" = false.
Proof. by destruct style. Qed.

Lemma or_json_string s b :
  or_json (JStr s) b = if String.eqb s "" then b else JStr s.
Proof. unfold or_json. cbn [truthy_json]. by destruct (String.eqb s ""). Qed.

Lemma sent_prompt engine style options :
  i_prompt (sent engine style options) = JStr (chosen_prompt style options).
Proof.
  unfold sent, model_input, json, request_parameters, chosen_prompt.
  cbn [i_prompt w_prompt prompt]. rewrite prompts_agree.
  pose proof (first_prompt_not_empty style) as Hne.
  set (first := default "" (head (prompts style))) in *.
  destruct (o_prompt options) as [| |p]; cbn [spread read or_string json_string].
  - by rewrite or_json_string, Hne, or_json_string, Hne.
  - change (or_json JAbsent (JStr first)) with (JStr first).
    by rewrite or_json_string, Hne.
  - rewrite (or_json_string p). destruct (String.eqb p "") eqn:Hp.
    + by rewrite or_json_string, Hne.
    + by rewrite or_json_string, Hp.
Qed.



(** X16. What [createTransformation] has the model given. The prompt is the
    one it chose, [options.prompt] or the style's first prompt, also when
    the spread of the options overwrites it with [undefined]. A duration
    or temperature that the options carry replaces the clamped one, so
    the bounds 8 and 30 of the store do not act on it: a usable duration
    reaches the model cut at 30 only, and without the property the
    model gets 15. Continuation is on only if the options say [true]. *)
Theorem createTransformation_parameters_sent
        (engine : Engine) (style : Style) (options : Options) :
  let input := sent engine style options in
  i_prompt input = JStr (chosen_prompt style options)
  /\ chosen_prompt style options <> ""
  /\ (o_duration options = Absent -> i_duration input = Fin 15)
  /\ (forall d, usable (default NaN (read (o_duration options))) d ->
                i_duration input = Fin (Qmin2 d 30))
  /\ (o_temperature options = Absent -> i_temperature input = Fin 1)
  /\ (forall t, usable (default NaN (read (o_temperature options))) t ->
                i_temperature input = Fin (Qmin2 (Qmax2 t lit_0_1) 2))
  /\ (i_continuation input = true <-> o_continuation options = Value true).
Proof.
  intros input. subst input. rewrite sent_prompt.
  split; [done|]. split.
  { unfold chosen_prompt, or_string.
    pose proof (first_prompt_not_empty style) as Hne.
    destruct (read (o_prompt options)) as [p|].
    - destruct (String.eqb p "") eqn:Hp; by apply String.eqb_neq.
    - by apply String.eqb_neq. }
  unfold sent, model_input, json, request_parameters.
  cbn [i_duration i_temperature i_continuation w_duration w_temperature
       w_continuation duration temperature continuation].
  split; [by intros ->|]. split.
  { intros d [Hd Hnz]. destruct (o_duration options) as [| |x]; try done.
    cbn in Hd. subst x. cbn [spread json_number]. unfold or_json. cbn [truthy_json].
    destruct (Qeq_bool d 0) eqn:Hz; [by apply Qeq_bool_iff in Hz|].
    cbn [negb ToNumber]. apply Math_min_Fin. }
  split; [by intros ->|]. split.
  { intros t [Ht Hnz]. destruct (o_temperature options) as [| |x]; try done.
    cbn in Ht. subst x. cbn [spread json_number]. unfold or_json. cbn [truthy_json].
    destruct (Qeq_bool t 0) eqn:Hz; [by apply Qeq_bool_iff in Hz|].
    cbn [negb ToNumber]. by rewrite Math_max_Fin, Math_min_Fin. }
  destruct (o_continuation options) as [| |[|]]; cbn; split; congruence.
Qed.

Lemma createTransformation_parameters_sent_witness :
  i_duration (sent plain_engine jazz
                   (mkOptions Undefined (Value (Fin 3)) Absent (Value false)))
  = Fin (Qmin2 3 30)
  /\ i_duration (sent plain_engine jazz no_options) = Fin 15.
Proof.
  split.
  - apply (createTransformation_parameters_sent
             plain_engine jazz (mkOptions Undefined (Value (Fin 3)) Absent (Value false))).
    split; [reflexivity|discriminate].
  - by apply (createTransformation_parameters_sent plain_engine jazz no_options).
Defined.

(** X17. [handleTransform] lets a request through only for a session whose
    duration is a finite number between 0.5 and the double 10.1; the
    options then always carry all four properties, with continuation
    off, so the model is given the panel's custom prompt, or the style's
    first prompt when there is none, and never a continuation. *)
Theorem handleTransform_gates_the_request
        (hasProject hasAudioBlob : bool) (apiConnectionStatus : ConnectionStatus)
        (audioDuration duration temperature : jsnum) (customPrompt : string)
        (engine : Engine) (style : Style) (options : Options) :
  handleTransform hasProject hasAudioBlob apiConnectionStatus audioDuration
                  duration temperature customPrompt
  = Some options ->
  (exists seconds, audioDuration = Fin seconds
                   /\ (1 # 2 <= seconds <= lit_10_1)%Q)
  /\ hasProject = true /\ hasAudioBlob = true
  /\ apiConnectionStatus <> disconnected
  /\ o_duration options = Value duration
  /\ o_temperature options = Value temperature
  /\ i_continuation (sent engine style options) = false
  /\ i_prompt (sent engine style options)
     = JStr (or_string (Some customPrompt) (default "" (head (prompts style)))).
Proof.
  unfold handleTransform.
  destruct hasProject, hasAudioBlob; try done. cbn [negb orb].
  destruct apiConnectionStatus; try done;
    (destruct (negb (truthy audioDuration) || js_le audioDuration (Fin 0)) eqn:Hpos;
     [done|];
     destruct (js_lt (Fin lit_10_1) audioDuration) eqn:Hlong; [done|];
     destruct (js_lt audioDuration (Fin (1 # 2))) eqn:Hshort; [done|];
     intros [= <-];
     (split;
      [destruct audioDuration as [q| | |]; try done;
       exists q; split; [done|]; cbn in Hlong, Hshort; unfold Qlt_bool in *;
       apply negb_false_iff in Hlong, Hshort; apply Qle_bool_iff in Hlong, Hshort;
       by split
      |]);
     split; [done|]; split; [done|]; split; [done|]; split; [done|];
     split; [done|]; split; [done|];
     rewrite sent_prompt; unfold chosen_prompt; cbn [o_prompt];
     by destruct (String.eqb customPrompt "") eqn:Hc; cbn; rewrite ?Hc).
Qed.

Lemma handleTransform_gates_the_request_witness :
  exists options,
    handleTransform true true connected (Fin 4) (Fin 15) (Fin 1) "" = Some options
    /\ i_prompt (sent plain_engine rock options)
       = JStr "rock band with electric guitars and drums".
Proof.
  eexists. split; [reflexivity|].
  apply (handleTransform_gates_the_request
           true true connected (Fin 4) (Fin 15) (Fin 1) "" plain_engine rock _ eq_refl).
Defined.

End TransformProps.

Module AIPollingProps.
Import AIStore AIPolling.

Lemma check_keeps_polling now st tid row response s :
  status response = Some s ->
  s <> "completed" -> s <> "failed" -> s <> "cancelled" ->
  polling (checkTransformationStatus now st tid row response).2 = polling st.
Proof.
  intros Hs H1 H2 H3. unfold checkTransformationStatus.
  destruct row as [t|]; [|done].
  destruct (replicate_prediction_id t); [|done].
  destruct (success response); [|done]. cbn [negb].
  destruct (db_update t _); [|done]. cbn [snd polling].
  rewrite Hs. cbn [default includes existsb]. unfold Datatypes.id.
  apply String.eqb_neq in H1, H2, H3. by rewrite H1, H2, H3.
Qed.

(** X18. Of the statuses the inference service uses, only ['failed'] ever
    stops the polling: when a check turns the polling off, the answer was
    ['failed'] (or one of the persisted words ['completed'] and
    ['cancelled'], which the service does not use); after ['succeeded']
    the row is completed and the interval keeps running. *)
Theorem polling_stops_only_on_failed
        (now : Z) (st : AIState) (transformationId : string)
        (row : option AITransformation) (response : StatusResponse) (s : string) :
  status response = Some s ->
  polling st = true ->
  let st' := (checkTransformationStatus now st transformationId row response).2 in
  (polling st' = false -> s = "completed" \/ s = "failed" \/ s = "cancelled")
  /\ (In s inference_statuses -> polling st' = false -> s = "failed")
  /\ (s = "succeeded" -> polling st' = true).
Proof.
  intros Hs Hpoll st'. subst st'.
  assert (Hstop : polling (checkTransformationStatus now st transformationId row
                                                     response).2 = false ->
                  s = "completed" \/ s = "failed" \/ s = "cancelled").
  { intros Hoff.
    destruct (decide (s = "completed")) as [|H1]; [by left|].
    destruct (decide (s = "failed")) as [|H2]; [by right; left|].
    destruct (decide (s = "cancelled")) as [|H3]; [by right; right|].
    rewrite (check_keeps_polling now st transformationId row response s) in Hoff;
      congruence. }
  split; [exact Hstop|]. split.
  - intros Hin Hoff. destruct (Hstop Hoff) as [-> | [-> | ->]]; [|done|];
      cbn in Hin; intuition discriminate.
  - intros ->. by rewrite (check_keeps_polling now st transformationId row response
                                               "succeeded").
Qed.

Lemma polling_stops_only_on_failed_witness :
  polling (checkTransformationStatus 160 (mkAIState [started_row] None true) "t1"
                                     (Some started_row) (answer "succeeded")).2
  = true.
Proof.
  by apply (polling_stops_only_on_failed
              160 (mkAIState [started_row] None true) "t1" (Some started_row)
              (answer "succeeded") "succeeded").
Defined.

Lemma succeeded_tick tid row st now response :
  polling st = true ->
  replicate_prediction_id row = Some tid ->
  success response = true -> status response = Some "succeeded" ->
  exists row' st',
    tick (id row) (Some row, st) (now, response) = (Some row', st')
    /\ polling st' = true
    /\ id row' = id row
    /\ replicate_prediction_id row' = Some tid
    /\ started_at row' = started_at row
    /\ t_status row' = "completed"
    /\ completed_at row' = Some now
    /\ processing_time_seconds row'
       = match started_at row with
         | Some t0 => Some (now - t0)
         | None => processing_time_seconds row
         end.
Proof.
  intros Hpoll Hpred Hok Hs. unfold tick. rewrite Hpoll.
  unfold checkTransformationStatus. cbn [fst snd]. rewrite Hpred, Hok. cbn [negb].
  assert (Hu : build_updates now row response
               = mkUpdates (Some "completed") None (Some now) (head (output response))
                           None
                           (match started_at row with
                            | Some t0 => Some (now - t0)
                            | None => None
                            end)).
  { unfold build_updates, status_is. rewrite Hs. cbn. by destruct (started_at row). }
  rewrite Hu. unfold db_update, apply_updates. rewrite Hs. cbn.
  eexists _, _. split; [reflexivity|]. cbn.
  split; [done|]. split; [done|]. split; [done|]. split; [done|].
  split; [done|]. split; [done|]. by destruct (started_at row).
Qed.

(** X19. A transformation that has succeeded is polled on: while the proxy
    keeps answering ['succeeded'], every tick of the interval rewrites
    the row, so after any sequence of such ticks the interval is still
    running and the row's [completed_at] is the time of the last tick,
    not of the first, with the processing time counted up to it. *)
Theorem completion_time_follows_the_last_poll
        (row : AITransformation) (prediction : string) (st : AIState)
        (ticks : list (Z * StatusResponse)) (last : Z * StatusResponse) :
  replicate_prediction_id row = Some prediction ->
  all_answer "succeeded" (ticks ++ [last]) ->
  exists row' st',
    pollTransformation (id row) (Some row) st (ticks ++ [last]) = (Some row', st')
    /\ polling st' = true
    /\ t_status row' = "completed"
    /\ completed_at row' = Some last.1
    /\ forall t0, started_at row = Some t0 ->
                  processing_time_seconds row' = Some (last.1 - t0).
Proof.
  intros Hpred Hall. unfold pollTransformation.
  set (st0 := mkAIState _ _ true).
  assert (Hpoll0 : polling st0 = true) by done. clearbody st0.
  apply Forall_app in Hall as [Hticks Hlast].
  apply Forall_singleton in Hlast as [Hok Hs].
  rewrite fold_left_app. cbn [fold_left].
  assert (Hrun : exists row1 st1,
             fold_left (tick (id row)) ticks (Some row, st0) = (Some row1, st1)
             /\ polling st1 = true /\ id row1 = id row
             /\ replicate_prediction_id row1 = Some prediction
             /\ started_at row1 = started_at row).
  { clear Hok Hs last. revert row st0 Hpred Hpoll0.
    induction Hticks as [|[now response] ticks [Hok Hs] _ IH]; intros row st0 Hpred Hpoll0.
    - by exists row, st0.
    - cbn [fold_left].
      destruct (succeeded_tick prediction row st0 now response Hpoll0 Hpred Hok Hs)
        as (row1 & st1 & -> & Hpoll1 & Hid & Hpred1 & Hstart & _).
      destruct (IH row1 st1 Hpred1 Hpoll1)
        as (row2 & st2 & Hfold & Hpoll2 & Hid2 & Hpred2 & Hstart2).
      rewrite <- Hid, Hfold. exists row2, st2.
      split; [done|]. split; [done|]. split; [congruence|]. split; [done|congruence]. }
  destruct Hrun as (row1 & st1 & -> & Hpoll1 & Hid & Hpred1 & Hstart).
  destruct last as [now response]. cbn [fst snd] in *.
  destruct (succeeded_tick prediction row1 st1 now response Hpoll1 Hpred1 Hok Hs)
    as (row2 & st2 & Htick & Hpoll2 & _ & _ & _ & Hstatus & Hdone & Htime).
  rewrite <- Hid, Htick. exists row2, st2.
  split; [done|]. split; [done|]. split; [done|]. split; [done|].
  intros t0 Ht0. rewrite Htime, Hstart, Ht0. done.
Qed.

Lemma completion_time_follows_the_last_poll_witness :
  exists row' st',
    pollTransformation "t1" (Some started_row) idle
                       [(160, answer "succeeded"); (165, answer "succeeded")]
    = (Some row', st')
    /\ polling st' = true
    /\ completed_at row' = Some 165.
Proof.
  destruct (completion_time_follows_the_last_poll
              started_row "p1" idle [(160, answer "succeeded")]
              (165, answer "succeeded") eq_refl)
    as (row' & st' & Hrun & Hpoll & _ & Hdone & _).
  - repeat constructor.
  - exists row', st'. split; [exact Hrun|]. split; [exact Hpoll|exact Hdone].
Defined.

(** X20. [cancelTransformation] answers whether the request went through.
    When it fails the store is untouched. When it goes through, the list
    keeps its ids and order, every entry with another id is as before, the
    named ones are ['cancelled'] with the time of the call, and the
    interval is stopped exactly when the current transformation is the
    one cancelled; a transformation that is not the current one goes on
    being polled. *)
Theorem cancelTransformation_marks_and_stops
        (now : Z) (requestFails : bool) (st : AIState) (transformationId : string) :
  let result := cancelTransformation now requestFails st transformationId in
  let st' := result.2 in
  result.1 = negb requestFails
  /\ if requestFails then st' = st
     else map id (transformations st') = map id (transformations st)
          /\ Forall2 (fun t t' =>
                        if String.eqb (id t) transformationId
                        then t_status t' = "cancelled" /\ completed_at t' = Some now
                        else t' = t)
                     (transformations st) (transformations st')
          /\ polling st'
             = polling st
               && negb (bool_decide (id <$> currentTransformation st
                                     = Some transformationId)).
Proof.
  intros result st'. subst result st'. unfold cancelTransformation.
  destruct requestFails; [done|]. cbn [fst snd negb transformations polling].
  split; [done|]. split; [|split].
  - rewrite map_map. apply map_ext. intros t.
    by destruct (String.eqb (id t) transformationId).
  - induction (transformations st) as [|t ts IH]; cbn [map]; constructor; [|done].
    by destruct (String.eqb (id t) transformationId).
  - destruct (currentTransformation st) as [c|]; cbn [fmap option_fmap option_map].
    + destruct (String.eqb (id c) transformationId) eqn:Hc.
      * apply String.eqb_eq in Hc. cbn [cancelled id]. rewrite Hc, String.eqb_refl.
        rewrite bool_decide_eq_true_2 by done. by rewrite andb_false_r.
      * rewrite Hc. apply String.eqb_neq in Hc.
        rewrite bool_decide_eq_false_2 by congruence. by rewrite andb_true_r.
    + rewrite bool_decide_eq_false_2 by done. by rewrite andb_true_r.
Qed.

End AIPollingProps.

Module RecorderLifeProps.
Import JS Recorder RecorderLife.

Lemma take_step h e :
  during_a_take e = true ->
  mediaRecorderRef (refs (step h e)) = mediaRecorderRef (refs h)
  /\ chunksRef (refs (step h e)) = chunksRef (refs h) ++ chunks_of [e].
Proof.
  destruct e; try done; intros _; cbn [step chunks_of flat_map].
  - unfold ondataavailable. cbn [with_refs refs].
    destruct (0 <? blob_size data); cbn; by rewrite ?app_nil_r.
  - by rewrite app_nil_r.
  - unfold pauseRecording. rewrite app_nil_r.
    by destruct (bool_decide _ && isRecording (refs h)).
  - unfold resumeRecording. rewrite app_nil_r.
    by destruct (bool_decide _ && isPaused (refs h)).
Qed.

Lemma chunks_of_app es1 es2 : chunks_of (es1 ++ es2) = chunks_of es1 ++ chunks_of es2.
Proof. unfold chunks_of. apply flat_map_app. Qed.

Lemma take_run events :
  forallb during_a_take events = true ->
  forall h,
    mediaRecorderRef (refs (run events h)) = mediaRecorderRef (refs h)
    /\ chunksRef (refs (run events h)) = chunksRef (refs h) ++ chunks_of events.
Proof.
  induction events as [|e events IH]; intros Hall h.
  - by rewrite app_nil_r.
  - cbn [forallb] in Hall. apply andb_prop in Hall as [He Hall].
    destruct (take_step h e He) as [Hrec Hchunks].
    destruct (IH Hall (step h e)) as [Hrec' Hchunks'].
    unfold run in *. cbn [fold_left]. rewrite Hrec', Hchunks', Hrec, Hchunks.
    split; [done|]. change (e :: events) with ([e] ++ events).
    by rewrite chunks_of_app, app_assoc.
Qed.

(** X21. Pausing, resuming and the clock lose no audio: when a recording is
    started and then chunks arrive, seconds go by and the recording is
    paused and resumed any number of times, [stopRecording] resolves with
    a blob that holds every chunk that was not empty, in the order of
    arrival, and nothing from before the start. *)
Theorem pause_and_resume_keep_every_chunk
        (isTypeSupported : string -> bool) (h : Hook) (events : list Event) :
  forallb during_a_take events = true ->
  exists blob,
    (stopHook (run events (step h (Start isTypeSupported)))).1 = Some blob
    /\ blob_data blob = concat (map blob_data (chunks_of events))
    /\ Forall (fun data => 0 < blob_size data) (chunks_of events).
Proof.
  intros Hall.
  destruct (take_run events Hall (step h (Start isTypeSupported))) as [Hrec Hchunks].
  unfold stopHook, stopRecording. rewrite Hrec, Hchunks. cbn.
  eexists. split; [reflexivity|]. split; [done|].
  apply Forall_forall. intros data Hin%list_elem_of_In.
  apply in_flat_map in Hin as (e & _ & Hin).
  destruct e; try done. destruct (0 <? blob_size data0) eqn:Hsize; [|done].
  destruct Hin as [<-|[]]. by apply Z.ltb_lt.
Qed.

Lemma pause_and_resume_keep_every_chunk_witness :
  exists blob,
    (stopHook (run [Data (chunk 1); Pause; Second; Resume; Data (chunk 2)]
                   (step initial_hook (Start mp4_only)))).1 = Some blob
    /\ blob_data blob = [1; 2].
Proof.
  destruct (pause_and_resume_keep_every_chunk
              mp4_only initial_hook
              [Data (chunk 1); Pause; Second; Resume; Data (chunk 2)] eq_refl)
    as (blob & Hstop & Hdata & _).
  exists blob. split; [exact Hstop|exact Hdata].
Defined.

(** The invariant of the clock. *)
Lemma clock_step h e :
  timerRef h = running h ->
  (isPaused (refs h) = true -> isRecording (refs h) = true) ->
  (isRecording (refs h) = true -> is_Some (mediaRecorderRef (refs h))) ->
  0 <= recordingTime (refs h) ->
  timerRef (step h e) = running (step h e)
  /\ (isPaused (refs (step h e)) = true -> isRecording (refs (step h e)) = true)
  /\ (isRecording (refs (step h e)) = true ->
      is_Some (mediaRecorderRef (refs (step h e))))
  /\ 0 <= recordingTime (refs (step h e))
  /\ (match e with Start _ => running h = false | _ => True end ->
      intervals h = (if running h then 1 else 0)%nat ->
      intervals (step h e) = (if running (step h e) then 1 else 0)%nat).
Proof.
  unfold running. destruct h as [[rec chunks stream recording paused time] timer n].
  cbn [refs timerRef intervals isRecording isPaused recordingTime mediaRecorderRef].
  intros -> Hp Hr Ht.
  destruct e; cbn [step]; unfold with_refs, startTimer, stopTimer, second,
    pauseRecording, resumeRecording, resetRecording, stopHook, stopRecording,
    startRecording, ondataavailable;
    cbn [refs timerRef intervals isRecording isPaused recordingTime
         mediaRecorderRef chunksRef streamRef];
    try match goal with
        | |- context [0 <? blob_size ?d] => destruct (0 <? blob_size d)
        end;
    destruct rec as [r|], recording, paused; cbn in *;
    try (specialize (Hp eq_refl); discriminate);
    try (destruct (Hr eq_refl) as [? [=]]);
    (split; [reflexivity|]); (split; [done|]); (split; [by eauto|]);
    (split; [lia|]); try (intros _ ->; reflexivity); try (intros _ _; reflexivity);
    try (intros [=]).
Qed.

(** X22. The ref holds an interval exactly while a recording is on and not
    paused, a paused hook is a recording one and the time never goes
    below zero, whatever is called in whatever order. If no recording is
    started while one is running, at most one interval is alive, and one
    is alive exactly while the recording runs: the clock counts the
    seconds of recording and stands still otherwise. *)
Theorem clock_runs_while_recording (events : list Event) :
  let h := run events initial_hook in
  timerRef h = running h
  /\ (isPaused (refs h) = true -> isRecording (refs h) = true)
  /\ 0 <= recordingTime (refs h)
  /\ (starts_guarded initial_hook events ->
      intervals h = (if running h then 1 else 0)%nat
      /\ recordingTime (refs (step h Second))
         = recordingTime (refs h) + (if running h then 1 else 0)).
Proof.
  intros h. subst h.
  assert (Hinv : forall h0,
             timerRef h0 = running h0 ->
             (isPaused (refs h0) = true -> isRecording (refs h0) = true) ->
             (isRecording (refs h0) = true -> is_Some (mediaRecorderRef (refs h0))) ->
             0 <= recordingTime (refs h0) ->
             let h := run events h0 in
             timerRef h = running h
             /\ (isPaused (refs h) = true -> isRecording (refs h) = true)
             /\ 0 <= recordingTime (refs h)
             /\ (starts_guarded h0 events ->
                 intervals h0 = (if running h0 then 1 else 0)%nat ->
                 intervals h = (if running h then 1 else 0)%nat)).
  { induction events as [|e events IH]; intros h0 H1 H2 Hr H3; cbn zeta.
    - split; [done|]. split; [done|]. split; [done|]. by intros _.
    - destruct (clock_step h0 e H1 H2 Hr H3) as (H1' & H2' & Hr' & H3' & H4').
      destruct (IH (step h0 e) H1' H2' Hr' H3') as (G1 & G2 & G3 & G4).
      unfold run in *. cbn [fold_left].
      split; [done|]. split; [done|]. split; [done|].
      intros [Hguard Hrest] Hn. apply G4; [done|]. by apply H4'. }
  destruct (Hinv initial_hook) as (G1 & G2 & G3 & G4); [done|done|done|done|].
  split; [done|]. split; [done|]. split; [done|].
  intros Hguard. specialize (G4 Hguard eq_refl). split; [done|].
  cbn [step second with_refs refs recordingTime]. rewrite G4.
  by destruct (running _).
Qed.

Lemma clock_runs_while_recording_witness :
  intervals (run [Start mp4_only; Pause; Resume; Second; Pause] initial_hook) = 0%nat.
Proof.
  apply (clock_runs_while_recording [Start mp4_only; Pause; Resume; Second; Pause]).
  cbn. tauto.
Defined.

(** *** The level meter *)

Lemma fold_add_bounds (dataArray : list Z) :
  bytes dataArray ->
  forall a,
    a <= fold_left Z.add dataArray a <= a + 255 * Z.of_nat (length dataArray).
Proof.
  induction 1 as [|value dataArray Hvalue _ IH]; intros a; cbn [fold_left length].
  - lia.
  - specialize (IH (a + value)). lia.
Qed.

Lemma ratio_le_1 (t m : Z) :
  0 < m -> (inject_Z t / inject_Z m <= 1)%Q <-> t <= m.
Proof.
  intros Hm. destruct m as [|p|p]; try lia.
  unfold Qle, Qdiv, Qmult, Qinv, inject_Z. cbn. lia.
Qed.

Lemma ratio_ge_1 (t m : Z) :
  0 < m -> (1 <= inject_Z t / inject_Z m)%Q <-> m <= t.
Proof.
  intros Hm. destruct m as [|p|p]; try lia.
  unfold Qle, Qdiv, Qmult, Qinv, inject_Z. cbn. lia.
Qed.

Lemma ratio_nonneg (t m : Z) :
  0 < m -> 0 <= t -> (0 <= inject_Z t / inject_Z m)%Q.
Proof.
  intros Hm Ht. destruct m as [|p|p]; try lia.
  unfold Qle, Qdiv, Qmult, Qinv, inject_Z. cbn. lia.
Qed.

(** X23. For the readings of a byte array that is not empty, as the
    analyser's always is, the level is a number between 0 and 1, and it
    is 1 exactly when the readings average 128 or more: the upper half
    of the byte range is cut off. *)
Theorem audio_level_is_normalized (dataArray : list Z) :
  bytes dataArray ->
  dataArray <> [] ->
  exists level,
    normalizedLevel dataArray = Fin level
    /\ (0 <= level <= 1)%Q
    /\ ((level == 1)%Q
        <-> 128 * Z.of_nat (length dataArray) <= fold_left Z.add dataArray 0).
Proof.
  intros Hbytes Hne.
  pose proof (fold_add_bounds dataArray Hbytes 0) as [Hlow _].
  set (total := fold_left Z.add dataArray 0) in *.
  assert (Hlen : (0 < Z.of_nat (length dataArray))) by (destruct dataArray; [done|cbn; lia]).
  set (n := Z.of_nat (length dataArray)) in *.
  unfold normalizedLevel, average. destruct dataArray as [|v rest]; [done|].
  fold total. fold n. cbn [times Math_min].
  set (ratio := (inject_Z total / inject_Z n * (1 # 128))%Q).
  assert (Hratio : (ratio == inject_Z total / inject_Z (128 * n))%Q).
  { unfold ratio. rewrite inject_Z_mult. field.
    change 0%Q with (inject_Z 0). rewrite inject_Z_injective. lia. }
  assert (Hle : (ratio <= 1)%Q <-> total <= 128 * n)
    by (rewrite Hratio; apply ratio_le_1; lia).
  assert (Hge : (1 <= ratio)%Q <-> 128 * n <= total)
    by (rewrite Hratio; apply ratio_ge_1; lia).
  assert (Hnonneg : (0 <= ratio)%Q)
    by (rewrite Hratio; apply ratio_nonneg; lia).
  destruct (Qle_bool ratio 1) eqn:Hcmp.
  - apply Qle_bool_iff in Hcmp. exists ratio. split; [done|]. split; [done|].
    rewrite <- Hge. split.
    + intros ->. apply Qle_refl.
    + intros H. by apply Qle_antisym.
  - exists 1%Q. split; [done|]. split; [done|]. split; [|done].
    intros _. apply Hge. apply Qlt_le_weak, Qnot_le_lt.
    intros H. apply Qle_bool_iff in H. congruence.
Qed.

Lemma audio_level_is_normalized_witness :
  exists level,
    normalizedLevel [255; 255; 0; 2] = Fin level /\ (level == 1)%Q.
Proof.
  destruct (audio_level_is_normalized [255; 255; 0; 2]) as (level & Heq & _ & Hone).
  - repeat constructor; lia.
  - discriminate.
  - exists level. split; [exact Heq|]. apply Hone. cbn. lia.
Defined.

End RecorderLifeProps.

Module PlayerControlsProps.
Import JS TrackStore Player PlayerControls.

Lemma refs_get_on_elements f refs key :
  refs_get (on_elements f refs) key = f <$> refs_get refs key.
Proof.
  induction refs as [|[k a] refs IH]; simpl; [done|].
  by destruct (String.eqb k key).
Qed.

Lemma keys_on_elements f refs : map fst (on_elements f refs) = map fst refs.
Proof. unfold on_elements. rewrite map_map. by apply map_ext. Qed.

Lemma Qmin2_cases a b :
  ((a <= b)%Q /\ Qmin2 a b = a) \/ ((b <= a)%Q /\ Qmin2 a b = b).
Proof.
  unfold Qmin2. destruct (Qle_bool a b) eqn:H.
  - left. split; [by apply Qle_bool_iff|done].
  - right. split; [|done]. apply Qlt_le_weak, Qnot_le_lt.
    intros Hle. apply Qle_bool_iff in Hle. congruence.
Qed.

Lemma Qmax2_cases a b :
  ((a <= b)%Q /\ Qmax2 a b = b) \/ ((b <= a)%Q /\ Qmax2 a b = a).
Proof.
  unfold Qmax2. destruct (Qle_bool a b) eqn:H.
  - left. split; [by apply Qle_bool_iff|done].
  - right. split; [|done]. apply Qlt_le_weak, Qnot_le_lt.
    intros Hle. apply Qle_bool_iff in Hle. congruence.
Qed.

(** *** Seeking and skipping *)

(** X24. With the playhead between 0 and the master duration, skipping back
    or forward leaves it there, at most 10 seconds from where it was and
    on the side asked for, and moves every element to the playhead
    without touching its source, volume, mute or pause state. *)
Theorem skipping_keeps_the_playhead_in_range (st : PlayerState) (back : bool) :
  (0 <= currentTime st <= duration st)%Q ->
  let st' := if back then handleSkipBack st else handleSkipForward st in
  (0 <= currentTime st' <= duration st')%Q
  /\ (if back
      then (currentTime st - 10 <= currentTime st' <= currentTime st)%Q
      else (currentTime st <= currentTime st' <= currentTime st + 10)%Q)
  /\ map fst (audioRefs st') = map fst (audioRefs st)
  /\ forall key audio,
       refs_get (audioRefs st) key = Some audio ->
       exists audio',
         refs_get (audioRefs st') key = Some audio'
         /\ a_currentTime audio' = currentTime st'
         /\ paused audio' = paused audio
         /\ same_settings audio' audio.
Proof.
  intros [Hlow Hhigh] st'. subst st'.
  assert (Hframe : forall newTime,
             map fst (audioRefs (handleSeek st newTime)) = map fst (audioRefs st)
             /\ forall key audio,
                 refs_get (audioRefs st) key = Some audio ->
                 exists audio',
                   refs_get (audioRefs (handleSeek st newTime)) key = Some audio'
                   /\ a_currentTime audio' = currentTime (handleSeek st newTime)
                   /\ paused audio' = paused audio
                   /\ same_settings audio' audio).
  { intros newTime. cbn [handleSeek audioRefs currentTime].
    split; [apply keys_on_elements|]. intros key audio Hget.
    rewrite refs_get_on_elements, Hget. eexists. split; [reflexivity|]. by repeat split. }
  destruct back.
  - unfold handleSkipBack. destruct (Hframe (Qmax2 0 (currentTime st - 10))) as [Hk He].
    split; [|split; [|by split]]; cbn [handleSeek currentTime duration];
      destruct (Qmax2_cases 0 (currentTime st - 10)) as [[Hc ->]|[Hc ->]]; lra.
  - unfold handleSkipForward.
    destruct (Hframe (Qmin2 (duration st) (currentTime st + 10))) as [Hk He].
    split; [|split; [|by split]]; cbn [handleSeek currentTime duration];
      destruct (Qmin2_cases (duration st) (currentTime st + 10)) as [[Hc ->]|[Hc ->]];
      lra.
Qed.

Lemma skipping_keeps_the_playhead_in_range_witness :
  (0 <= currentTime (handleSkipForward example_playing)
   <= duration (handleSkipForward example_playing))%Q.
Proof.
  apply (skipping_keeps_the_playhead_in_range example_playing false).
  cbn. lra.
Defined.

Lemma find_on_elements_seek newTime refs audio :
  List.find (fun audio => negb (paused audio)) (values refs) = Some audio ->
  List.find (fun audio => negb (paused audio))
            (values (on_elements (seek_to newTime) refs))
  = Some (seek_to newTime audio).
Proof.
  unfold values, on_elements. induction refs as [|[k a] refs IH]; [done|].
  cbn [map snd List.find seek_to paused].
  destruct (negb (paused a)); [by intros [= ->]|exact IH].
Qed.

(** X25. Skipping forward within the last 10 seconds while an element plays
    puts the playhead on the master duration, so the next run of
    [updateTime] ends the playback: the playing flag is off, the playhead
    is back at 0 and every element is paused at 0. *)
Theorem skipping_forward_near_the_end_rewinds
        (st : PlayerState) (playingAudio : Audio) :
  isPlaying st = true ->
  List.find (fun audio => negb (paused audio)) (values (audioRefs st))
  = Some playingAudio ->
  (duration st - 10 <= currentTime st)%Q ->
  let st' := updateTime (handleSkipForward st) in
  isPlaying st' = false
  /\ currentTime st' = 0%Q
  /\ map fst (audioRefs st') = map fst (audioRefs st)
  /\ forall key audio,
       refs_get (audioRefs st') key = Some audio ->
       paused audio = true /\ a_currentTime audio = 0%Q.
Proof.
  intros Hplay Hfind Hnear st'. subst st'.
  unfold handleSkipForward.
  assert (Hmin : Qmin2 (duration st) (currentTime st + 10) = duration st).
  { unfold Qmin2. replace (Qle_bool _ _) with true; [done|].
    symmetry. apply Qle_bool_iff. lra. }
  rewrite Hmin. unfold updateTime, handleSeek.
  cbn [isPlaying audioRefs duration currentTime masterVolume]. rewrite Hplay.
  rewrite (find_on_elements_seek _ _ _ Hfind). cbn [seek_to a_currentTime].
  replace (Qle_bool (duration st) (duration st)) with true
    by (symmetry; apply Qle_bool_iff, Qle_refl).
  cbn [isPlaying audioRefs currentTime].
  split; [done|]. split; [done|]. split.
  - rewrite map_map. cbn [fst]. apply keys_on_elements.
  - intros key audio. rewrite PlayerProps.refs_get_rewound.
    destruct (refs_get _ key) as [a|]; [|done]. by intros [= <-].
Qed.

Lemma skipping_forward_near_the_end_rewinds_witness :
  isPlaying (updateTime (handleSkipForward example_playing)) = false.
Proof.
  apply (skipping_forward_near_the_end_rewinds
           example_playing (mkAudio "blob:b" 1 false false 5));
    [reflexivity|reflexivity|cbn; lra].
Defined.

(** *** The sync effect *)

Lemma refs_get_sync st accepts refs key :
  refs_get (map (fun entry => (entry.1, sync st accepts entry.1 entry.2)) refs) key
  = sync st accepts key <$> refs_get refs key.
Proof.
  induction refs as [|[k a] refs IH]; simpl; [done|].
  destruct (String.eqb k key) eqn:Hk; [|done].
  apply String.eqb_eq in Hk. by subst.
Qed.

(** X26. The sync effect keeps the set of elements and their settings. With
    the playing flag on, an element that plays is left alone and a paused
    one is put on the playhead, not left where it stopped, and plays from
    there unless the browser refuses its [play()], in which case it stays
    paused; so an element is paused afterwards exactly when it was paused
    and refused. With the flag off every element is paused where it is.
    Running the effect again, with the same elements refusing, changes
    nothing. *)
Theorem syncEffect_aligns_the_elements (accepts : string -> bool) (st : PlayerState) :
  let st' := syncEffect accepts st in
  map fst (audioRefs st') = map fst (audioRefs st)
  /\ (forall key,
         refs_get (audioRefs st') key
         = sync st accepts key <$> refs_get (audioRefs st) key)
  /\ (forall key audio,
         let audio' := sync st accepts key audio in
         paused audio'
         = (if isPlaying st then paused audio && negb (accepts key) else true)
         /\ same_settings audio' audio
         /\ a_currentTime audio'
            = if isPlaying st && paused audio then currentTime st
              else a_currentTime audio)
  /\ syncEffect accepts st' = st'.
Proof.
  intros st'. subst st'. unfold syncEffect.
  cbn [audioRefs isPlaying currentTime masterVolume duration].
  split; [rewrite map_map; by apply map_ext|].
  split; [intros key; apply refs_get_sync|].
  split.
  - intros key audio. unfold sync, play_at, pause, same_settings.
    by destruct (isPlaying st), (paused audio) eqn:Hp.
  - f_equal. rewrite map_map. apply map_ext.
    intros [k a]. cbn [fst snd]. f_equal. unfold sync, play_at, pause.
    cbn [isPlaying currentTime].
    by destruct (isPlaying st), (paused a) eqn:Hp, (accepts k); cbn; rewrite ?Hp.
Qed.

(** *** The progress bar *)

(** X27. With the playhead at or after 0, the progress is between 0 and 100:
    0 when the master duration is not positive, the share of the master
    duration that has played up to the master duration, and 100 from
    there on. *)
Theorem getProgress_is_a_percentage (st : PlayerState) :
  (0 <= currentTime st)%Q ->
  (0 <= getProgress st <= 100)%Q
  /\ ((duration st <= 0)%Q -> getProgress st = 0%Q)
  /\ ((0 < duration st)%Q -> (currentTime st <= duration st)%Q ->
      (getProgress st == currentTime st / duration st * 100)%Q)
  /\ ((0 < duration st)%Q -> (duration st <= currentTime st)%Q ->
      (getProgress st == 100)%Q).
Proof.
  intros Hnow. unfold getProgress.
  destruct (Qle_bool (duration st) 0) eqn:Hle.
  - rewrite orb_true_r. apply Qle_bool_iff in Hle.
    split; [lra|]. split; [done|]. split; intros Hpos; lra.
  - assert (Hpos : (0 < duration st)%Q).
    { apply Qnot_le_lt. intros H. apply Qle_bool_iff in H. congruence. }
    assert (Hz : Qeq_bool (duration st) 0 = false).
    { apply not_true_is_false. intros H. apply Qeq_bool_iff in H. lra. }
    rewrite Hz. cbn [orb].
    set (ratio := (currentTime st / duration st)%Q).
    assert (Hratio : (0 <= ratio)%Q).
    { apply Qle_shift_div_l; [done|]. lra. }
    assert (Hbelow : (currentTime st <= duration st)%Q -> (ratio <= 1)%Q).
    { intros H. apply Qle_shift_div_r; [done|]. lra. }
    assert (Habove : (duration st <= currentTime st)%Q -> (1 <= ratio)%Q).
    { intros H. apply Qle_shift_div_l; [done|]. lra. }
    destruct (Qmin2_cases (ratio * 100) 100) as [[Hc ->]|[Hc ->]].
    + split; [lra|]. split; [intros H; lra|]. split; [intros _ _; reflexivity|].
      intros _ Hend. specialize (Habove Hend). lra.
    + split; [lra|]. split; [intros H; lra|]. split; [|intros _ _; reflexivity].
      intros _ Hend. specialize (Hbelow Hend). lra.
Qed.

Lemma getProgress_is_a_percentage_witness :
  (getProgress example_playing == 98)%Q.
Proof.
  destruct (getProgress_is_a_percentage example_playing) as (_ & _ & Hshare & _).
  - cbn. lra.
  - rewrite Hshare; [reflexivity|cbn; lra|cbn; lra].
Defined.

(** *** Which elements there are *)

Lemma setUpTrack_unplayable tracks sessions masterVolume refs track :
  playable sessions track = false ->
  setUpTrack tracks sessions masterVolume refs track = refs.
Proof.
  unfold playable, setUpTrack. destruct (sessions !! id track) as [session|]; [|done].
  destruct (audioUrl session) as [url|]; [|done].
  by intros ->%negb_false_iff.
Qed.

Lemma setUpTrack_is_Some tracks sessions masterVolume refs track key :
  is_Some (refs_get (setUpTrack tracks sessions masterVolume refs track) key)
  <-> is_Some (refs_get refs key)
      \/ (id track = key /\ playable sessions track = true).
Proof.
  destruct (playable sessions track) eqn:Hp.
  - destruct (decide (id track = key)) as [<-|Hne].
    + unfold playable in Hp. unfold setUpTrack.
      destruct (sessions !! id track) as [session|]; [|done].
      destruct (audioUrl session) as [url|]; [|done].
      apply negb_true_iff in Hp. rewrite Hp, PlayerProps.refs_get_set_eq.
      split; [by right|by eauto].
    + rewrite PlayerProps.setUpTrack_other by done. split; [by left|].
      by intros [H|[H _]].
  - rewrite setUpTrack_unplayable by done. split; [by left|].
    by intros [H|[_ H]].
Qed.

Lemma fold_setUp_is_Some all sessions masterVolume rest :
  forall refs key,
    is_Some (refs_get (fold_left (setUpTrack all sessions masterVolume) rest refs) key)
    <-> is_Some (refs_get refs key) \/ playable_id rest sessions key.
Proof.
  induction rest as [|t rest IH]; intros refs key; cbn [fold_left].
  - split; [by left|]. by intros [H|(t & [] & _)].
  - rewrite IH, setUpTrack_is_Some. unfold playable_id. split.
    + intros [[H|[Hid Hp]]|(t' & Hin & Hid & Hp)].
      * by left.
      * right. exists t. split; [by left|done].
      * right. exists t'. split; [by right|done].
    + intros [H|(t' & [<-|Hin] & Hid & Hp)].
      * by left; left.
      * by left; right.
      * right. by exists t'.
Qed.

Lemma fold_setUp_unplayable all sessions masterVolume rest :
  forall refs key,
    ~ playable_id rest sessions key ->
    refs_get (fold_left (setUpTrack all sessions masterVolume) rest refs) key
    = refs_get refs key.
Proof.
  induction rest as [|t rest IH]; intros refs key Hno; cbn [fold_left]; [done|].
  rewrite IH.
  - destruct (decide (id t = key)) as [Hid|Hne].
    + rewrite setUpTrack_unplayable; [done|].
      apply not_true_is_false. intros Hp. apply Hno. exists t.
      split; [by left|done].
    + by apply PlayerProps.setUpTrack_other.
  - intros (t' & Hin & Hid & Hp). apply Hno. exists t'. split; [by right|done].
Qed.

Lemma refs_get_filter_out (keep : string -> bool) refs key :
  keep key = false ->
  refs_get (List.filter (fun entry => keep entry.1) refs) key = None.
Proof.
  intros Hkeep. induction refs as [|[k a] refs IH]; simpl; [done|].
  destruct (keep k) eqn:Hk; [|done]. simpl.
  destruct (String.eqb k key) eqn:Heq; [|done].
  apply String.eqb_eq in Heq. congruence.
Qed.

(** X28. After the track-settings effect there is an element for an id
    exactly when a track with that id is listed and either the id had an
    element before or one of its tracks has a playable session: elements
    of tracks that are gone are dropped, and none is made for a track
    without a playable session. A listed track that has lost its
    playable session keeps the element it had, as it was: its settings
    are not refreshed. *)
Theorem trackSettingsEffect_element_set
        (tracks : list Track) (trackSessions : gmap string TrackSession)
        (st : PlayerState) (key : string) :
  let st' := trackSettingsEffect tracks trackSessions st in
  (is_Some (refs_get (audioRefs st') key)
   <-> In key (map id tracks)
       /\ (is_Some (refs_get (audioRefs st) key)
           \/ playable_id tracks trackSessions key))
  /\ (In key (map id tracks) ->
      ~ playable_id tracks trackSessions key ->
      refs_get (audioRefs st') key = refs_get (audioRefs st) key).
Proof.
  intros st'. subst st'. unfold trackSettingsEffect. cbn [audioRefs].
  set (keep := fun key => existsb (fun t => String.eqb (id t) key) tracks).
  assert (Hkeep : keep key = true <-> In key (map id tracks)).
  { unfold keep. rewrite existsb_exists, in_map_iff.
    split; intros (t & H1 & H2); exists t.
    - apply String.eqb_eq in H2. by split.
    - split; [done|]. by apply String.eqb_eq. }
  destruct (keep key) eqn:Hk.
  - rewrite (PlayerProps.refs_get_filter keep) by done.
    split.
    + rewrite fold_setUp_is_Some. split; [intros H; split; [by apply Hkeep|done]|].
      by intros [_ H].
    + intros _ Hno. by apply fold_setUp_unplayable.
  - rewrite (refs_get_filter_out keep) by done. split.
    + split; [by intros [? [=]]|]. intros [Hin _]. apply Hkeep in Hin. done.
    + intros Hin. apply Hkeep in Hin. done.
Qed.

Lemma trackSettingsEffect_element_set_witness :
  refs_get (audioRefs (trackSettingsEffect
                         [example_track "A" 3 false false] ∅ example_playing)) "A"
  = refs_get (audioRefs example_playing) "A".
Proof.
  apply (trackSettingsEffect_element_set
           [example_track "A" 3 false false] ∅ example_playing "A").
  - cbn. by left.
  - intros (t & Hin & _ & Hp). destruct Hin as [<-|[]]. discriminate.
Defined.

End PlayerControlsProps.

Module ToggleProps.
Import JS Effects.

Lemma filter_other_NoDup (e : string) (l : list string) :
  NoDup l -> NoDup (List.filter (fun name => negb (String.eqb name e)) l).
Proof.
  induction 1 as [|x l Hx _ IH]; cbn [List.filter]; [constructor|].
  destruct (negb (String.eqb x e)); [|done].
  apply NoDup_cons. split; [|done].
  rewrite list_elem_of_In, List.filter_In, <- list_elem_of_In. by intros [? _].
Qed.

Lemma filter_other_absent (e : string) (l : list string) :
  ~ In e l -> List.filter (fun name => negb (String.eqb name e)) l = l.
Proof.
  induction l as [|x l IH]; intros Hnin; cbn [List.filter]; [done|].
  destruct (String.eqb x e) eqn:Hx.
  - apply String.eqb_eq in Hx. subst x. exfalso. apply Hnin. by left.
  - cbn [negb]. rewrite IH; [done|]. intros H. apply Hnin. by right.
Qed.

Lemma filter_other_idem (e : string) (l : list string) :
  ~ In e (List.filter (fun name => negb (String.eqb name e)) l).
Proof.
  rewrite List.filter_In, negb_true_iff, String.eqb_neq. by intros [_ H].
Qed.

(** X29. A toggle switches one effect and nothing else: a list without
    duplicates stays so, the effect named is active afterwards exactly
    when it was not before, every other effect keeps its state and its
    place among the others. Switching an effect off and on again does
    not bring the list back: the effect is then the last of the chain. *)
Theorem toggleEffect_switches_one_effect (prev : list string) (effectName : string) :
  NoDup prev ->
  let next := toggleEffect prev effectName in
  let others := List.filter (fun name => negb (String.eqb name effectName)) in
  NoDup next
  /\ (In effectName next <-> ~ In effectName prev)
  /\ others next = others prev
  /\ (In effectName prev -> toggleEffect next effectName = others prev ++ [effectName])
  /\ (~ In effectName prev -> toggleEffect next effectName = prev).
Proof.
  intros Hnd next others. subst next others.
  destruct (includes prev effectName) eqn:Hin.
  - apply EffectsProps.includes_In in Hin as Hin'.
    rewrite (EffectsProps.toggleEffect_deactivates prev effectName Hin).
    split; [by apply filter_other_NoDup|].
    split; [split; [by intros ?%filter_other_idem|done]|].
    split; [apply filter_other_absent, filter_other_idem|].
    split; [|done]. intros _. apply EffectsProps.toggleEffect_activates.
    apply not_true_is_false. rewrite EffectsProps.includes_In.
    apply filter_other_idem.
  - assert (Hnin : ~ In effectName prev).
    { intros H. apply EffectsProps.includes_In in H. congruence. }
    rewrite (EffectsProps.toggleEffect_activates prev effectName Hin).
    split.
    { apply NoDup_app. split; [done|]. split; [|apply NoDup_singleton].
      intros x Hx ->%list_elem_of_singleton. by apply list_elem_of_In in Hx. }
    split; [split; [done|]; intros _; apply in_or_app; right; by left|].
    split.
    { rewrite List.filter_app. cbn [List.filter].
      rewrite String.eqb_refl. cbn [negb]. by rewrite app_nil_r. }
    split; [done|]. intros _.
    rewrite EffectsProps.toggleEffect_deactivates.
    + rewrite List.filter_app. cbn [List.filter].
      rewrite String.eqb_refl. cbn [negb].
      by rewrite app_nil_r, filter_other_absent.
    + apply EffectsProps.includes_In, in_or_app. right. by left.
Qed.

Lemma toggleEffect_switches_one_effect_witness :
  toggleEffect (toggleEffect ["reverb"; "delay"] "reverb") "reverb"
  = ["delay"; "reverb"].
Proof.
  apply (toggleEffect_switches_one_effect ["reverb"; "delay"] "reverb").
  - by apply (bool_decide_unpack _).
  - by left.
Defined.

End ToggleProps.

Module QuantiseProps.
Import JS Wav.

Lemma clamp_Fin v :
  exists q, clamp (Fin v) = Fin q
            /\ ((-1 <= v <= 1)%Q -> q == v)
            /\ ((v <= -1)%Q -> q == -1)
            /\ ((1 <= v)%Q -> q == 1).
Proof.
  destruct (WavProps.clamp_number (Fin v)) as (q & Hq & Hrange & Hin & Hlow & Hhigh);
    [done|].
  exists q. split; [done|]. split; [done|]. split.
  - intros H. destruct (Qlt_le_dec v (-1)) as [Hlt|Hge]; [by apply Hlow|].
    rewrite Hin; lra.
  - intros H. destruct (Qlt_le_dec 1 v) as [Hlt|Hge]; [by apply Hhigh|].
    rewrite Hin; lra.
Qed.

Lemma clamp_monotone v w qv qw :
  (v <= w)%Q -> clamp (Fin v) = Fin qv -> clamp (Fin w) = Fin qw -> (qv <= qw)%Q.
Proof.
  intros Hle Hv Hw.
  destruct (WavProps.clamp_number (Fin v)) as (q1 & Hq1 & Hr1 & Hin1 & Hlow1 & Hhigh1);
    [done|].
  destruct (WavProps.clamp_number (Fin w)) as (q2 & Hq2 & Hr2 & Hin2 & Hlow2 & Hhigh2);
    [done|].
  assert (q1 = qv) as -> by congruence. assert (q2 = qw) as -> by congruence.
  destruct (Qlt_le_dec v (-1)) as [Hv1|Hv1].
  - rewrite (Hlow1 Hv1). lra.
  - destruct (Qlt_le_dec 1 w) as [Hw1|Hw1].
    + rewrite (Hhigh2 Hw1). lra.
    + rewrite Hin1, Hin2; lra.
Qed.

(** X30. The sample that is stored follows the input: it never decreases when
    the input increases, inside the range [-1, 1] it is within half a
    step of 32767 times the input, and outside it sticks to the ends,
    which are 32767 and -32767; the value -32768 is never written, and
    [NaN] is written as 0. *)
Theorem quantisation_is_monotone_and_close :
  (forall v w, (v <= w)%Q -> pcm16 (Fin v) <= pcm16 (Fin w))
  /\ (forall v, (-1 <= v <= 1)%Q ->
                (32767 * v - (1 # 2) < inject_Z (pcm16 (Fin v)) <= 32767 * v + (1 # 2))%Q)
  /\ (forall v, (1 <= v)%Q -> pcm16 (Fin v) = 32767)
  /\ (forall v, (v <= -1)%Q -> pcm16 (Fin v) = -32767)
  /\ pcm16 PosInf = 32767 /\ pcm16 NegInf = -32767 /\ pcm16 NaN = 0
  /\ forall x, pcm16 x <> -32768.
Proof.
  split; [|split; [|split; [|split]]].
  - intros v w Hle.
    destruct (clamp_Fin v) as (qv & Hv & _). destruct (clamp_Fin w) as (qw & Hw & _).
    rewrite (WavProps.pcm16_Fin _ _ Hv), (WavProps.pcm16_Fin _ _ Hw).
    apply Qfloor_resp_le. pose proof (clamp_monotone v w qv qw Hle Hv Hw). lra.
  - intros v Hrange. destruct (clamp_Fin v) as (q & Hq & Hin & _).
    rewrite (WavProps.pcm16_Fin _ _ Hq). specialize (Hin Hrange).
    assert (Heq : (q * 32767 + (1 # 2) == v * 32767 + (1 # 2))%Q) by lra.
    rewrite (Qfloor_comp _ _ Heq).
    pose proof (Qfloor_le (v * 32767 + (1 # 2))) as Hfloor.
    pose proof (Qlt_floor (v * 32767 + (1 # 2))) as Hceil.
    rewrite inject_Z_plus in Hceil. change (inject_Z 1) with 1%Q in Hceil.
    lra.
  - intros v Hhigh. destruct (clamp_Fin v) as (q & Hq & _ & _ & Hone).
    rewrite (WavProps.pcm16_Fin _ _ Hq).
    assert (Heq : (q * 32767 + (1 # 2) == 1 * 32767 + (1 # 2))%Q)
      by (rewrite (Hone Hhigh); reflexivity).
    by rewrite (Qfloor_comp _ _ Heq).
  - intros v Hlow. destruct (clamp_Fin v) as (q & Hq & _ & Hone & _).
    rewrite (WavProps.pcm16_Fin _ _ Hq).
    assert (Heq : (q * 32767 + (1 # 2) == -1 * 32767 + (1 # 2))%Q)
      by (rewrite (Hone Hlow); reflexivity).
    by rewrite (Qfloor_comp _ _ Heq).
  - split; [reflexivity|]. split; [reflexivity|]. split; [reflexivity|].
    intros x. pose proof (WavProps.pcm16_range x). lia.
Qed.

End QuantiseProps.
